(** * ECG recordings: beat and segment sampling

    A shallow embedding of [Notebooks/ECG_demo/scripts/recordings.py].

    Conventions of the embedding.
    - Python [int] is [Z]; list positions and lengths are [nat] where the
      source can only produce non-negative values and [Z] (with Python's
      slice rules written out) where it computes them.
    - A pandas [DataFrame] of beat annotations is the list of its rows in
      row order; its index is the list of the rows' [beat_id].
    - Python [float] is an exact rational [Q]; [np.floor], [np.ceil] and
      [np.round] act on it exactly (the inputs used below are small integers
      and halves, on which binary floating point is exact).
    - The process-wide random source is a tape of naturals: every draw pops
      one entry (an exhausted tape yields 0), so a statement quantified
      over all tapes covers every outcome of the generator.
    - Warnings are collected in a log; an exception is a result of its
      own, carrying the state at the point where it was raised. *)

From Stdlib Require Import ZArith QArith Qround List Bool Arith Lia Permutation Sorted.
Import ListNotations.
Open Scope Z_scope.

(** ** Effects: random tape, warnings, exceptions *)

Inductive exn : Type :=
| ValueError
| TypeError
| KeyError
| IndexError
| ZeroDivisionError
| AttributeError
| OverflowError.

Inductive warning : Type :=
| WarnInsufficient (tgt num_available num_beats : Z)
| WarnNoMoreSegments
| WarnProbsIgnored
| WarnBelowMinimum (num_beats_total min_len_segment : Z)
| WarnExceeded (num_exceeded : Z)
| WarnMatchUnsupported.

Record world : Type := mkWorld { tape : list nat; warnings : list warning }.

(** The outcome of a computation: a value, an exception, or [Diverge] when
    a loop has used up the rounds it was given. *)
Inductive result (A : Type) : Type :=
| Ok (a : A) (w : world)
| Raise (e : exn) (w : world)
| Diverge.
Arguments Ok {A} a w.
Arguments Raise {A} e w.
Arguments Diverge {A}.

Definition M (A : Type) : Type := world -> result A.

Definition ret {A} (a : A) : M A := fun w => Ok a w.

Definition bind {A B} (c : M A) (k : A -> M B) : M B :=
  fun w => match c w with
           | Ok a w' => k a w'
           | Raise e w' => Raise e w'
           | Diverge => Diverge
           end.

Notation "x <- c ;; k" := (bind c (fun x => k))
  (at level 61, c at next level, right associativity).
Notation "' p <- c ;; k" := (bind c (fun x => let p := x in k))
  (at level 61, p pattern, c at next level, right associativity).

Definition raise {A} (e : exn) : M A := fun w => Raise e w.

(** [try: c  except ValueError: h]; any other exception passes through. *)
Definition except_ValueError {A} (c : M A) (h : M A) : M A :=
  fun w => match c w with
           | Raise ValueError w' => h w'
           | r => r
           end.

Definition warn (m : warning) : M unit :=
  fun w => Ok tt (mkWorld (tape w) (warnings w ++ [m])).

(** One raw draw from the random source. *)
Definition draw : M nat :=
  fun w => match tape w with
           | [] => Ok 0%nat w
           | r :: t => Ok r (mkWorld t (warnings w))
           end.

(** A uniform index below [n] (for [n > 0]). *)
Definition randbelow (n : nat) : M nat :=
  r <- draw ;; ret (r mod n)%nat.

Fixpoint mapM {A B} (f : A -> M B) (l : list A) : M (list B) :=
  match l with
  | [] => ret []
  | a :: t => b <- f a ;; bs <- mapM f t ;; ret (b :: bs)
  end.

(** ** Python and NumPy primitives *)

Definition len {A} (l : list A) : Z := Z.of_nat (length l).

(** Python's clamping of one slice bound. *)
Definition slice_bound (n i : Z) : Z :=
  if i <? 0 then Z.max 0 (i + n) else Z.min i n.

(** [l[a:b]] *)
Definition py_slice {A} (l : list A) (a b : Z) : list A :=
  let a' := slice_bound (len l) a in
  let b' := slice_bound (len l) b in
  firstn (Z.to_nat (b' - a')) (skipn (Z.to_nat a') l).

(** [l[a:]] *)
Definition py_slice_from {A} (l : list A) (a : Z) : list A :=
  skipn (Z.to_nat (slice_bound (len l) a)) l.

(** [l[:b]] *)
Definition py_slice_to {A} (l : list A) (b : Z) : list A :=
  firstn (Z.to_nat (slice_bound (len l) b)) l.

(** [np.diff], with the differences taken exactly: what NumPy computes
    as long as no difference wraps around in the dtype of the array (see
    [np_diff_in] below). *)
Fixpoint np_diff (l : list Z) : list Z :=
  match l with
  | a :: (b :: _) as t => (b - a) :: np_diff t
  | _ => []
  end.

(** [np.where(mask)[0]]: positions of the true entries, counted from [k]. *)
Fixpoint np_where_from (k : nat) (mask : list bool) : list nat :=
  match mask with
  | [] => []
  | b :: t => if b then k :: np_where_from (S k) t else np_where_from (S k) t
  end.

Definition np_where (mask : list bool) : list nat := np_where_from 0 mask.

(** [np.split(ary, indices)]: the pieces [ary[0:i1]], [ary[i1:i2]], ...,
    [ary[ik:]], each a Python slice. *)
Fixpoint np_split_from {A} (l : list A) (prev : Z) (idx : list Z) : list (list A) :=
  match idx with
  | [] => [py_slice l prev (len l)]
  | i :: rest => py_slice l prev i :: np_split_from l i rest
  end.

Definition np_split {A} (l : list A) (idx : list Z) : list (list A) :=
  np_split_from l 0 idx.

(** [np.cumsum] *)
Fixpoint np_cumsum_from (acc : Z) (l : list Z) : list Z :=
  match l with
  | [] => []
  | x :: t => (acc + x) :: np_cumsum_from (acc + x) t
  end.

Definition np_cumsum (l : list Z) : list Z := np_cumsum_from 0 l.

Definition sum (l : list Z) : Z := fold_right Z.add 0 l.

(** ** [split_at_discontinuity] *)

(** [is_discontinuous = np.r_[False, np.diff(seq) != 1]];
    [np.split(seq, np.where(is_discontinuous)[0])].  The parameter [step]
    is accepted and never read.  The differences are taken exactly here;
    [split_at_discontinuity_in] below takes them in the integer dtype of
    the array, and the two agree unless the largest value of the dtype is
    directly followed by its smallest. *)
Definition is_discontinuous (seq : list Z) : list bool :=
  false :: map (fun d => negb (d =? 1)) (np_diff seq).

Definition split_at_discontinuity (seq : list Z) (step : Z) : list (list Z) :=
  np_split seq (map Z.of_nat (np_where (is_discontinuous seq))).

(** A direct recursion that cuts after every element whose successor is not
    one larger; shown below to be what [split_at_discontinuity] returns. *)
Fixpoint runs (seq : list Z) : list (list Z) :=
  match seq with
  | [] => [[]]
  | a :: t =>
      match t with
      | [] => [[a]]
      | b :: _ =>
          if b - a =? 1 then
            match runs t with
            | r :: rs => (a :: r) :: rs
            | [] => [[a]]
            end
          else [a] :: runs t
      end
  end.

(** Every two neighbours of [l] differ by exactly one. *)
Fixpoint consecutive (l : list Z) : Prop :=
  match l with
  | a :: (b :: _) as t => b - a = 1 /\ consecutive t
  | _ => True
  end.


(** ** [split_at_discontinuity] on an array of an integer dtype *)












(** ** More NumPy primitives *)

(** [l[i]] for a Python integer [i]: negative positions count from the end,
    anything outside raises [IndexError]. *)
Definition py_index {A} (l : list A) (i : Z) : M A :=
  let j := if i <? 0 then i + len l else i in
  if (j <? 0) || (len l <=? j) then raise IndexError
  else match nth_error l (Z.to_nat j) with
       | Some x => ret x
       | None => raise IndexError
       end.

(** [l[mask]] for a boolean mask of the same length. *)
Fixpoint np_select {A} (l : list A) (mask : list bool) : list A :=
  match l, mask with
  | a :: t, b :: m => if b then a :: np_select t m else np_select t m
  | _, _ => []
  end.

(** [np.random.randint(low, high)]: uniform in [[low, high)], [ValueError]
    when the range is empty. *)
Definition np_randint (low high : Z) : M Z :=
  if high <=? low then raise ValueError
  else r <- draw ;; ret (low + Z.of_nat r mod (high - low)).

(** [np.random.randint(low, high, size=size)]: an empty request is served
    before the bounds are looked at. *)
Definition np_randint_size (low high size : Z) : M (list Z) :=
  if size =? 0 then ret []
  else if high <=? low then raise ValueError
  else if size <? 0 then raise ValueError
  else mapM (fun _ : unit => np_randint low high) (repeat tt (Z.to_nat size)).

(** [int(np.ceil(a / b))] on Python integers. *)
Definition int_ceil_div (a b : Z) : M Z :=
  if b =? 0 then raise ZeroDivisionError
  else ret (Qceiling (inject_Z a / inject_Z b)).

Definition when (b : bool) (c : M unit) : M unit := if b then c else ret tt.

(** ** [_determine_seg_lengths] *)

Definition _determine_seg_lengths
    (num_beats_total min_len_segment max_len_segment : Z) : M (list Z) :=
  if num_beats_total <=? max_len_segment then
    _ <- when (num_beats_total <? min_len_segment)
           (warn (WarnBelowMinimum num_beats_total min_len_segment)) ;;
    ret [min_len_segment]
  else
    (* Maximum necessary number of segments *)
    max_size <- int_ceil_div num_beats_total min_len_segment ;;
    (* Draw many segments, then determine how many need to be kept *)
    segments <- np_randint_size min_len_segment (max_len_segment + 1) max_size ;;
    let summed_segs := np_cumsum segments in
    let segments :=
      np_select segments (map (fun c => c <=? num_beats_total) summed_segs) in
    current_num_beats <- py_index summed_segs (len segments - 1) ;;
    let num_missing := num_beats_total - current_num_beats in
    if 0 <? num_missing then
      let size_last_seg := Z.max min_len_segment num_missing in
      let segments := segments ++ [size_last_seg] in
      let num_exceeded := size_last_seg - num_missing in
      _ <- when (0 <? num_exceeded) (warn (WarnExceeded num_exceeded)) ;;
      ret segments
    else ret segments.

(** ** Beat annotations *)

(** One row of the annotation table.  The last three columns exist only
    after [provide_data] has added them. *)
Record Beat : Type := mkBeat {
  beat_id : Z;
  idx_start : Z;
  idx_end : Z;
  target : Z;
  recording : Z;
  bad_signal : bool;
  is_anomal : bool;
  is_used : bool;
  idx_start_new : option Z;
  idx_end_new : option Z;
  segment_id : option Z
}.

Definition DataFrame : Type := list Beat.

(** [annotations.index] *)
Definition index (annotations : DataFrame) : list Z := map beat_id annotations.

(** ** Python dictionaries with integer keys

    A [dict] is the list of its items in insertion order; a well-formed
    one has no key twice. *)
Definition dict (V : Type) : Type := list (Z * V).

Definition keys {V} (d : dict V) : list Z := map fst d.
Definition values {V} (d : dict V) : list V := map snd d.

Fixpoint dict_get {V} (d : dict V) (k : Z) : option V :=
  match d with
  | [] => None
  | (k', v) :: t => if k' =? k then Some v else dict_get t k
  end.

(** [d[k] = v] *)
Fixpoint dict_set {V} (d : dict V) (k : Z) (v : V) : dict V :=
  match d with
  | [] => [(k, v)]
  | (k', v') :: t => if k' =? k then (k', v) :: t else (k', v') :: dict_set t k v
  end.

(** [d[k] += delta] *)
Definition dict_add (d : dict Z) (k delta : Z) : M (dict Z) :=
  match dict_get d k with
  | Some v => ret (dict_set d k (v + delta))
  | None => raise KeyError
  end.

Fixpoint foldM {A B} (f : B -> A -> M B) (l : list A) (b : B) : M B :=
  match l with
  | [] => ret b
  | a :: t => b' <- f b a ;; foldM f t b'
  end.

(** ** Sorting, counting, rounding, choosing *)

Fixpoint insert_unique (x : Z) (l : list Z) : list Z :=
  match l with
  | [] => [x]
  | y :: t =>
      if x <? y then x :: l
      else if x =? y then l
      else y :: insert_unique x t
  end.

(** [np.unique(l)]: the distinct values in ascending order. *)
Definition np_unique (l : list Z) : list Z := fold_right insert_unique [] l.

Definition count (x : Z) (l : list Z) : Z := len (filter (Z.eqb x) l).

(** [np.unique(l, return_counts=True)] *)
Definition np_unique_counts (l : list Z) : list Z * list Z :=
  let u := np_unique l in (u, map (fun x => count x l) u).

Definition Qsum (l : list Q) : Q := fold_right Qplus (0 # 1)%Q l.

(** [np.round]: to the nearest integer, halves to the even neighbour. *)
Definition np_round (q : Q) : Z :=
  let f := Qfloor q in
  match ((q - inject_Z f) ?= (1 # 2))%Q with
  | Lt => f
  | Gt => f + 1
  | Eq => if Z.even f then f else f + 1
  end.

(** [random.choices(population, k=k)]: [k] draws with replacement; no draw
    at all when [k] is not positive. *)
Definition random_choices {A} (population : list A) (k : Z) : M (list A) :=
  mapM (fun _ : unit =>
          i <- randbelow (length population) ;;
          match nth_error population i with
          | Some x => ret x
          | None => raise IndexError
          end)
       (repeat tt (Z.to_nat k)).

(** ** [_determine_beat_counts] *)

(** The values [target_probs] can take: [None], the string ["uniform"], a
    dict from class to weight, or anything else. *)
Inductive target_probs_arg : Type :=
| ProbsNone
| ProbsUniform
| ProbsDict (d : dict Q)
| ProbsOther.

(** The weights of a mapping are rationals, and the shares are computed
    on exact numbers: the quotients and products that the code takes in
    float64 are taken exactly here.  The two agree wherever the float64
    results round to the same integers; the residual and everything after
    it is integer arithmetic of Python. *)
Definition _determine_beat_counts (num_beats : Z) (annotations : DataFrame)
    (target_probs : target_probs_arg) (include_zero_prob : bool) : M (dict Z) :=
  (* Arrays of target classes and number of available beats for each class *)
  let '(all_targets, counts_tgt) := np_unique_counts (map target annotations) in
  beat_counts <-
    match target_probs with
    | ProbsNone =>
        let total := sum counts_tgt in
        let counts :=
          map (fun c => Qfloor (inject_Z (num_beats * c) / inject_Z total)) counts_tgt in
        ret (combine all_targets counts)
    | ProbsUniform =>
        if len all_targets =? 0 then raise ZeroDivisionError
        else
          let beats_per_tgt := num_beats / len all_targets in
          ret (map (fun tgt => (tgt, beats_per_tgt)) all_targets)
    | ProbsDict d =>
        (* Normalize probabilities *)
        let norm := Qsum (values d) in
        probs <- mapM (fun '(tgt, p) =>
                         if Qeq_bool norm 0 then raise ZeroDivisionError
                         else ret (tgt, (p / norm)%Q)) d ;;
        (* Dict with number of beats per class *)
        ret (map (fun '(tgt, p) => (tgt, np_round (p * inject_Z num_beats))) probs)
    | ProbsOther => raise TypeError
    end ;;
  (* Make sure numbers sum up *)
  let diff_beats := num_beats - sum (values beat_counts) in
  (* Add difference to 0-class if available *)
  beat_counts <-
    match dict_get beat_counts 0 with
    | Some v => ret (dict_set beat_counts 0 (v + diff_beats))
    | None =>
        (* If no 0-class, distribute beats randomly *)
        tgts <- random_choices (keys beat_counts) diff_beats ;;
        foldM (fun bc tgt => dict_add bc tgt 1) tgts beat_counts
    end ;;
  if include_zero_prob then
    ret (fold_left
           (fun bc tgt => if existsb (Z.eqb tgt) (keys bc) then bc else dict_set bc tgt 0)
           all_targets beat_counts)
  else ret beat_counts.

(** ** Shuffling and sampling *)

(** [l[i] = v] for a position inside the list. *)
Fixpoint list_set {A} (l : list A) (i : nat) (v : A) : list A :=
  match l, i with
  | [], _ => []
  | _ :: t, O => v :: t
  | a :: t, S i' => a :: list_set t i' v
  end.

(** [x[i], x[j] = x[j], x[i]] *)
Definition swap {A} (x : list A) (i j : nat) : list A :=
  match nth_error x i, nth_error x j with
  | Some a, Some b => list_set (list_set x i b) j a
  | _, _ => x
  end.

(** The loop of [np.random.shuffle]:
    [for i in reversed(range(1, n)): j = random_interval(i); swap i, j]. *)
Fixpoint shuffle_steps {A} (i : nat) (x : list A) : M (list A) :=
  match i with
  | O => ret x
  | S i' => j <- randbelow (S i) ;; shuffle_steps i' (swap x i j)
  end.

Definition np_shuffle {A} (x : list A) : M (list A) :=
  shuffle_steps (length x - 1) x.

(** [np.random.choice(a, size=size, replace=False)]: the first [size]
    entries of a random permutation of [a]; an empty [a] with a non-zero
    [size], a [size] above [len(a)] and a negative [size] are each a
    [ValueError]. *)
Definition np_choice_noreplace {A} (a : list A) (size : Z) : M (list A) :=
  if (len a =? 0) && negb (size =? 0) then raise ValueError
  else if len a <? size then raise ValueError
  else if size <? 0 then raise ValueError
  else p <- np_shuffle a ;; ret (firstn (Z.to_nat size) p).

(** [np.random.choice(a, size=size)]: [size] independent uniform draws. *)
Definition np_choice_replace {A} (a : list A) (size : Z) : M (list A) :=
  if (len a =? 0) && negb (size =? 0) then raise ValueError
  else if size <? 0 then raise ValueError
  else mapM (fun _ : unit =>
               i <- randbelow (length a) ;;
               match nth_error a i with
               | Some x => ret x
               | None => raise IndexError
               end)
            (repeat tt (Z.to_nat size)).

(** ** [_pick_target_beats] and [_pick_beats] *)

(** [annotations[annotations.target == target]] *)
Definition with_target (tgt : Z) (annotations : DataFrame) : DataFrame :=
  filter (fun b => target b =? tgt) annotations.

Definition _pick_target_beats (tgt num_beats : Z) (annotations : DataFrame)
  : M (list Z) :=
  let annot_tgt := with_target tgt annotations in
  except_ValueError
    (np_choice_noreplace (index annot_tgt) num_beats)
    ((* If not enough beats are available, warn *)
     let num_available := len (index annot_tgt) in
     if num_available <? num_beats then
       _ <- warn (WarnInsufficient tgt num_available num_beats) ;;
       ret (index annot_tgt)
     else
       (* If exception has different reason, throw it *)
       raise ValueError).

(** One round of the loop [for tgt, counts in beat_counts.items():
    collected_beats += list(_pick_target_beats(tgt, counts, annotations))]. *)
Definition collect_target_beats (annotations : DataFrame)
    (collected_beats : list Z) (item : Z * Z) : M (list Z) :=
  let '(tgt, counts) := item in
  beats <- _pick_target_beats tgt counts annotations ;;
  ret (collected_beats ++ beats).

Definition _pick_beats (num_beats : Z) (annotations : DataFrame)
    (target_probs : target_probs_arg) : M (list Z) :=
  match target_probs with
  | ProbsNone =>
      (* Pick beats at random, with target probabilities proportional to
         number of respective beats *)
      np_choice_replace (index annotations) num_beats
  | _ =>
      (* Number of beats for each target class *)
      beat_counts <- _determine_beat_counts num_beats annotations target_probs false ;;
      (* Pick beats *)
      collected_beats <- foldM (collect_target_beats annotations) beat_counts [] ;;
      (* Shuffle list of beat indices *)
      np_shuffle collected_beats
  end.

(** ** Continuous segments *)

(** [range(a, b)] *)
Definition py_range (a b : Z) : list Z :=
  map (fun i => a + Z.of_nat i) (seq 0 (Z.to_nat (b - a))).

(** [l.pop(i)] for a position inside the list: the list that is left. *)
Fixpoint remove_nth {A} (i : nat) (l : list A) : list A :=
  match l, i with
  | [], _ => []
  | _ :: t, O => t
  | a :: t, S i' => a :: remove_nth i' t
  end.

(** [np.random.choice(len(weights), p=weights / sum(weights))] for
    non-negative integer weights: any position of positive weight; all
    weights zero makes the probabilities NaN, a [ValueError]. *)
Definition np_choice_weighted (weights : list Z) : M nat :=
  let support := np_where (map (fun x => 0 <? x) weights) in
  if sum weights =? 0 then raise ValueError
  else i <- randbelow (length support) ;; ret (nth i support 0%nat).

(** [np.random.choice(a)]: one uniform draw from a non-empty list. *)
Definition np_choice_one {A} (a : list A) : M A :=
  i <- randbelow (length a) ;;
  match nth_error a i with
  | Some x => ret x
  | None => raise ValueError
  end.

(** [annotations[annotations.recording == rec]] *)
Definition with_recording (rec : Z) (annotations : DataFrame) : DataFrame :=
  filter (fun b => recording b =? rec) annotations.

(** The list [available_segs] at the start of [_pick_cont_segments_inner]:
    per recording, the runs of consecutive beat identifiers that are at
    least [min_len_segment] long. *)
Definition initial_segs (annotations : DataFrame) (min_len_segment : Z)
  : list (list Z) :=
  let recordings := np_unique (map recording annotations) in
  let available_recs_idcs :=
    map (fun rec => index (with_recording rec annotations)) recordings in
  flat_map (fun rec_idcs =>
              filter (fun seg => min_len_segment <=? len seg)
                     (split_at_discontinuity rec_idcs 1))
           available_recs_idcs.

(** The [while num_beats > 0] loop of [_pick_cont_segments_inner]; [fuel]
    bounds the number of rounds. *)
Fixpoint cont_segments_loop (fuel : nat) (min_len_segment max_len_segment : Z)
    (num_beats : Z) (available_segs collected_segments : list (list Z))
  : M (list (list Z)) :=
  match fuel with
  | O => fun _ => Diverge
  | S fuel' =>
      if 0 <? num_beats then
        if len available_segs =? 0 then
          _ <- warn WarnNoMoreSegments ;;
          ret collected_segments
        else
          (* Pick a sub-list, weighted by size *)
          idx_sublist <- np_choice_weighted (map len available_segs) ;;
          let sublist := nth idx_sublist available_segs [] in
          let available_segs := remove_nth idx_sublist available_segs in
          (* Determine length of next segment *)
          if len sublist <=? max_len_segment then
            let len_seg := Z.min (len sublist) num_beats in
            cont_segments_loop fuel' min_len_segment max_len_segment
              (num_beats - len_seg) available_segs
              (collected_segments ++ [py_slice_to sublist len_seg])
          else
            drawn <- except_ValueError
                       (len_seg <- np_randint min_len_segment
                                     (Z.min max_len_segment
                                            (len sublist - min_len_segment)) ;;
                        ret (Some len_seg))
                       (ret None) ;;
            match drawn with
            | None =>
                (* no suitable size: go on, sublist will not be added again *)
                cont_segments_loop fuel' min_len_segment max_len_segment
                  num_beats available_segs collected_segments
            | Some len_seg =>
                idx_start <- np_choice_one
                               ([0] ++ [len sublist - len_seg]
                                ++ py_range min_len_segment
                                     (len sublist - len_seg - min_len_segment)) ;;
                let collected_segments :=
                  collected_segments
                  ++ [py_slice sublist idx_start (idx_start + len_seg)] in
                (* Split remaining part of sublist into two continuous segments *)
                let sl0 := py_slice_to sublist idx_start in
                let sl1 := py_slice_from sublist (idx_start + len_seg) in
                cont_segments_loop fuel' min_len_segment max_len_segment
                  (num_beats - len_seg)
                  (available_segs
                   ++ filter (fun l => max_len_segment <? len l) [sl0; sl1])
                  collected_segments
            end
      else ret collected_segments
  end.

(** A bound on the rounds of the loop: every round removes one list from
    [available_segs] and puts back at most two shorter ones. *)
Definition segs_weight (available_segs : list (list Z)) : nat :=
  fold_right (fun l n => (2 * length l + 1 + n)%nat) 0%nat available_segs.

Definition loop_budget (available_segs : list (list Z)) : nat :=
  S (segs_weight available_segs).

Definition _pick_cont_segments_inner (num_beats : Z) (annotations : DataFrame)
    (min_len_segment max_len_segment : Z) : M (list (list Z)) :=
  let available_segs := initial_segs annotations min_len_segment in
  cont_segments_loop (loop_budget available_segs) min_len_segment max_len_segment
    num_beats available_segs [].

(** [[i_seg for i_seg, seg in enumerate(segs) for _ in range(len(seg))]],
    counting from [i]. *)
Fixpoint segment_ids_from (i : Z) (segs : list (list Z)) : list Z :=
  match segs with
  | [] => []
  | seg :: t => repeat i (length seg) ++ segment_ids_from (i + 1) t
  end.

(** The common tail of the four segment pickers: shuffle the segments,
    flatten them, and give every beat the position of its segment. *)
Definition flatten_segments (collected_segments : list (list Z))
  : M (list Z * list Z) :=
  collected_segments <- np_shuffle collected_segments ;;
  let beat_idcs := concat collected_segments in
  let segment_ids_full := segment_ids_from 0 collected_segments in
  ret (beat_idcs, segment_ids_full).

Definition _pick_cont_segments (num_beats : Z) (annotations : DataFrame)
    (target_probs : target_probs_arg) (min_len_segment max_len_segment : Z)
  : M (list Z * list Z) :=
  _ <- when (match target_probs with ProbsNone => false | _ => true end)
         (warn WarnProbsIgnored) ;;
  (* Draw segments *)
  collected_segments <-
    _pick_cont_segments_inner num_beats annotations min_len_segment max_len_segment ;;
  flatten_segments collected_segments.

Definition _pick_cont_segments_sameclass (num_beats : Z) (annotations : DataFrame)
    (target_probs : target_probs_arg) (min_len_segment max_len_segment : Z)
  : M (list Z * list Z) :=
  (* Number of beats for each target class *)
  beat_counts <- _determine_beat_counts num_beats annotations target_probs false ;;
  (* Iterate over target classes and produce segments for each *)
  collected_segments <-
    foldM (fun collected '(tgt, num_beats_tgt) =>
             let available_beats := with_target tgt annotations in
             segs <- _pick_cont_segments_inner num_beats_tgt available_beats
                       min_len_segment max_len_segment ;;
             ret (collected ++ segs))
          beat_counts [] ;;
  flatten_segments collected_segments.

(** ** Category segments *)

(** The columns of the annotation table that filters and [match_segments]
    can name. *)
Inductive column : Type :=
| ColTarget
| ColRecording
| ColBadSignal
| ColIsAnomal
| ColIsUsed.

Definition column_eqb (a b : column) : bool :=
  match a, b with
  | ColTarget, ColTarget | ColRecording, ColRecording
  | ColBadSignal, ColBadSignal | ColIsAnomal, ColIsAnomal
  | ColIsUsed, ColIsUsed => true
  | _, _ => false
  end.

(** [set(a) == set(b)] *)
Definition same_set (a b : list column) : bool :=
  forallb (fun x => existsb (column_eqb x) b) a
  && forallb (fun x => existsb (column_eqb x) a) b.

(** [zeros[mask] = vals]: the values go to the true positions in order,
    every other position stays 0. *)
Fixpoint scatter (mask : list bool) (vals : list Z) : list Z :=
  match mask with
  | [] => []
  | true :: m =>
      match vals with
      | v :: vs => v :: scatter m vs
      | [] => 0 :: scatter m []
      end
  | false :: m => 0 :: scatter m vals
  end.

(** [_relative_counts]: [num_total] draws over the positions of
    [distribution], each position weighted by its normalised entry; the
    result counts the draws per position.  The weights are normalised
    first, and [np.random.choice] looks at the normalised ones only: it
    raises a [ValueError] for an empty distribution (the probabilities sum
    to 0, not to 1), for a sum of 0 (NaN or infinite after the division),
    for a negative normalised entry, and for a negative number of draws.
    Weights that are all [<= 0] with a negative sum are accepted: they
    normalise to probabilities.  A position is drawn only if its
    probability is positive. *)
Definition _relative_counts (num_total : Z) (distribution : list Q) : M (list Z) :=
  (* Normalize distribution *)
  let norm := Qsum distribution in
  let probs := map (fun d => (d / norm)%Q) distribution in
  (* Draw samples *)
  if len probs =? 0 then raise ValueError
  else if Qeq_bool norm 0 then raise ValueError
  else if existsb (fun p => negb (Qle_bool 0 p)) probs then raise ValueError
  else if num_total <? 0 then raise ValueError
  else
    let support := np_where (map (fun p => negb (Qle_bool p 0)) probs) in
    samples <- mapM (fun _ : unit =>
                       i <- randbelow (length support) ;;
                       ret (nth i support 0%nat))
                    (repeat tt (Z.to_nat num_total)) ;;
    (* Count instances, include 0-values *)
    let counts_of := fun i : nat => len (filter (Nat.eqb i) samples) in
    ret (map counts_of (seq 0 (length probs))).

Definition Qmean (l : list Z) : Q :=
  (inject_Z (sum l) / inject_Z (len l))%Q.

Definition _relative_counts_min (num_total : Z) (distribution : list Z)
    (min_count : Z) : M (list Z) :=
  (* Determine if any integers have to remain 0 *)
  let full_size := len distribution in
  ratio <- (if min_count =? 0 then raise ZeroDivisionError
            else ret (Qfloor (inject_Z num_total / inject_Z min_count))) ;;
  let num_nonzero := Z.min ratio full_size in
  is_nonzero <-
    (if num_nonzero <? full_size then
       zeros <- np_choice_noreplace (seq 0 (length distribution))
                  (full_size - num_nonzero) ;;
       ret (map (fun i => negb (existsb (Nat.eqb i) zeros))
                (seq 0 (length distribution)))
     else ret (repeat true (length distribution))) ;;
  (* New distribution, taking into account uniform distribution of minimum values *)
  let distro_nonzero := np_select distribution is_nonzero in
  let num_used := num_nonzero * min_count in
  let shift := (Qmean distro_nonzero * inject_Z num_used / inject_Z num_total)%Q in
  let distro_remaining :=
    map (fun d => let x := (inject_Z d - shift)%Q in
                  if Qle_bool x 0 then 0%Q else x)
        distro_nonzero in
  (* Draw non-zero integers *)
  counts_nonzero <- _relative_counts (num_total - num_used) distro_remaining ;;
  ret (scatter is_nonzero (map (fun c => c + min_count) counts_nonzero)).

(** One round of the loop over classes for [match_segments == {"target"}]. *)
Definition category_segments_target (annotations : DataFrame)
    (min_len_segment max_len_segment : Z)
    (collected_segments : list (list Z)) (item : Z * Z) : M (list (list Z)) :=
  let '(tgt, counts) := item in
  beats <- _pick_target_beats tgt counts annotations ;;
  (* Separate beats into segments *)
  seg_lengths <- _determine_seg_lengths counts min_len_segment max_len_segment ;;
  ret (collected_segments ++ np_split beats (np_cumsum (removelast seg_lengths))).

(** One round of the loop over classes for
    [match_segments == {"target", "recording"}]. *)
Definition category_segments_target_recording (annotations : DataFrame)
    (min_len_segment max_len_segment : Z)
    (collected_segments : list (list Z)) (item : Z * Z) : M (list (list Z)) :=
  let '(tgt, num_beats_tgt) := item in
  (* DataFrame with beats of the chosen target *)
  let available_beats := with_target tgt annotations in
  (* Recordings containing [tgt] and number of beats *)
  let '(useable_recordings, recording_sizes) :=
    np_unique_counts (map recording available_beats) in
  (* Ignore recordings with too little beats *)
  let has_sufficient_beats := map (fun s => min_len_segment <? s) recording_sizes in
  let useable_recordings := np_select useable_recordings has_sufficient_beats in
  let recording_sizes := np_select recording_sizes has_sufficient_beats in
  (* Determine how many beats should be drawn from each recording *)
  beats_per_rec <- _relative_counts_min num_beats_tgt recording_sizes min_len_segment ;;
  (* Iterate over recordings determine segment sizes and draw beats *)
  foldM (fun collected '(rec, n_beats) =>
           if 0 <? n_beats then
             seg_sizes <- _determine_seg_lengths n_beats min_len_segment max_len_segment ;;
             beat_idcs <- np_choice_noreplace
                            (index (with_recording rec available_beats))
                            (sum seg_sizes) ;;
             ret (collected ++ np_split beat_idcs (np_cumsum (removelast seg_sizes)))
           else ret collected)
        (combine useable_recordings beats_per_rec) collected_segments.

Definition _pick_category_segments (num_beats : Z) (annotations : DataFrame)
    (target_probs : target_probs_arg) (match_segments : list column)
    (min_len_segment max_len_segment : Z) : M (list Z * list Z) :=
  (* Number of beats for each target class *)
  beat_counts <- _determine_beat_counts num_beats annotations target_probs false ;;
  collected_segments <-
    (if same_set match_segments [ColTarget] then
       foldM (category_segments_target annotations min_len_segment max_len_segment)
             beat_counts []
     else if same_set match_segments [ColTarget; ColRecording] then
       foldM (category_segments_target_recording annotations
                min_len_segment max_len_segment)
             beat_counts []
     else raise ValueError) ;;
  flatten_segments collected_segments.

(** ** Density-constrained segments *)

(** [annotations.drop(ids)]: the rows whose identifier is not in [ids]
    (every identifier dropped below is present). *)
Definition drop_ids (annotations : DataFrame) (ids : list Z) : DataFrame :=
  filter (fun b => negb (existsb (Z.eqb (beat_id b)) ids)) annotations.

(** [annotations.loc[ids]]: the rows with these identifiers, in the order
    of [ids]; [KeyError] for an identifier without a row. *)
Definition loc_rows (annotations : DataFrame) (ids : list Z) : M DataFrame :=
  rows <- mapM (fun id =>
                  match filter (fun b => beat_id b =? id) annotations with
                  | [] => raise KeyError
                  | found => ret found
                  end) ids ;;
  ret (concat rows).

(** [int(x)]: truncation towards zero. *)
Definition Qtrunc (q : Q) : Z := if Qle_bool 0 q then Qfloor q else Qceiling q.

(** [max(l)] of a non-empty list. *)
Definition py_max (l : list Z) : Z :=
  match l with
  | [] => 0
  | x :: t => fold_left Z.max t x
  end.

(** The pruning pass: every recording is cut into 8 parts of [split_size]
    rows, and a part without any still-missing class is dropped. *)
Definition prune_recordings (annotations_remaining : DataFrame)
    (remaining_tgts : list Z) (min_len_segment : Z) : DataFrame :=
  fold_left
    (fun remaining rec =>
       let annot_rec := with_recording rec remaining in
       let num_parts := 8 in
       let split_size :=
         Z.max (Qceiling (inject_Z (len annot_rec) / inject_Z num_parts))
               min_len_segment in
       let split_annots :=
         np_split annot_rec (map (fun k => k * split_size) (py_range 1 num_parts)) in
       fold_left
         (fun remaining part =>
            if existsb (fun t => existsb (Z.eqb t) (map target part)) remaining_tgts
            then remaining
            else drop_ids remaining (index part))
         split_annots remaining)
    (np_unique (map recording annotations_remaining))
    annotations_remaining.

(** [any(target_nums_missing[tgt] > 0 for tgt in tgts)], evaluated lazily:
    a class without an entry raises [KeyError] when it is reached. *)
Fixpoint any_missing (target_nums_missing : dict Z) (tgts : list Z) : M bool :=
  match tgts with
  | [] => ret false
  | tgt :: rest =>
      match dict_get target_nums_missing tgt with
      | None => raise KeyError
      | Some n => if 0 <? n then ret true else any_missing target_nums_missing rest
      end
  end.

(** The state the [for i_seg in np.unique(new_segs)] loop updates. *)
Record new_style_state : Type := mkNewStyle {
  ns_collected : list (list Z);
  ns_remaining : DataFrame;
  ns_missing : dict Z
}.

(** One round of that loop: keep the segment when it meets the criteria. *)
Definition consider_segment (annotations : DataFrame) (min_anomal_per_seg : Z)
    (new_beats new_segs : list Z) (st : new_style_state) (i_seg : Z)
  : M new_style_state :=
  let beats_seg := np_select new_beats (map (fun s => s =? i_seg) new_segs) in
  annot_seg <- loc_rows annotations beats_seg ;;
  let annot_seg_anom := filter (fun b => negb (target b =? 0)) annot_seg in
  let '(tgts, cnts) := np_unique_counts (map target annot_seg) in
  let '(_, cnts_anom) := np_unique_counts (map target annot_seg_anom) in
  (* Only accept fully normal segments or segs with min. number of anomalies *)
  let dense :=
    (negb (len cnts_anom =? 0) && (min_anomal_per_seg <=? py_max cnts_anom))
    || (len cnts_anom =? 0) in
  (* Only accept segments that contain targets of which there are still some missing *)
  accepted <- (if dense then any_missing (ns_missing st) tgts else ret false) ;;
  if accepted then
    (* Reduce counts of missing beats *)
    missing <- foldM (fun d '(tgt, cnt) => dict_add d tgt (- cnt))
                     (combine tgts cnts) (ns_missing st) ;;
    ret (mkNewStyle (ns_collected st ++ [beats_seg])
                    (drop_ids (ns_remaining st) beats_seg)
                    missing)
  else ret st.

(** The loop [while max(target_nums_missing.values()) > 0]; the source sets
    no bound on its rounds, [fuel] does. *)
Fixpoint new_style_loop (fuel : nat) (annotations : DataFrame)
    (min_anomal_per_seg min_len_segment max_len_segment : Z)
    (st : new_style_state) : M (list (list Z)) :=
  match fuel with
  | O => fun _ => Diverge
  | S fuel' =>
      if len (ns_missing st) =? 0 then raise ValueError
      else if 0 <? py_max (values (ns_missing st)) then
        (* Ignore recordings that does not contain any of the missing targets *)
        let remaining_tgts :=
          keys (filter (fun '(_, num) => 0 <? num) (ns_missing st)) in
        let annotations_remaining :=
          prune_recordings (ns_remaining st) remaining_tgts min_len_segment in
        (* Pick segments *)
        '(new_beats, new_segs) <-
          _pick_cont_segments (sum (map (Z.max 0) (values (ns_missing st))))
            annotations_remaining ProbsNone min_len_segment max_len_segment ;;
        (* Go over new segments and keep those that match criteria *)
        st' <- foldM (consider_segment annotations min_anomal_per_seg
                        new_beats new_segs)
                     (np_unique new_segs)
                     (mkNewStyle (ns_collected st) annotations_remaining
                                 (ns_missing st)) ;;
        new_style_loop fuel' annotations min_anomal_per_seg
          min_len_segment max_len_segment st'
      else ret (ns_collected st)
  end.

Definition _pick_new_style_segments (fuel : nat) (num_beats : Z)
    (annotations : DataFrame) (min_anomal_per_seg : Z)
    (target_probs : target_probs_arg) (min_len_segment max_len_segment : Z)
  : M (list Z * list Z) :=
  match target_probs with
  | ProbsNone => raise ValueError
  | ProbsUniform | ProbsOther => raise AttributeError
  | ProbsDict d =>
      let normalize := Qsum (values d) in
      target_nums_missing <-
        mapM (fun '(tgt, prob) =>
                let rounded := np_round (prob * inject_Z num_beats) in
                if Qeq_bool normalize 0 then
                  (* int() of an infinity or of a NaN *)
                  if rounded =? 0 then raise ValueError else raise OverflowError
                else ret (tgt, Qtrunc (inject_Z rounded / normalize)))
             d ;;
      collected_segments <-
        new_style_loop fuel annotations min_anomal_per_seg
          min_len_segment max_len_segment
          (mkNewStyle [] annotations target_nums_missing) ;;
      flatten_segments collected_segments
  end.

(** ** The recordings repository *)

(** One time step of the signal: the values of its channels. *)
Definition Sample : Type := list Z.

Record ECGRecordings : Type := mkRecordings {
  self_annotations : DataFrame;
  self_ecg_data : list Sample
}.

(** What a local variable that holds a table refers to: the repository's
    own table (the same object, so that writing a column writes to the
    repository), or a table created by a query or a selection. *)
Inductive frame : Type :=
| SelfTable
| Fresh (rows : DataFrame).

Definition deref (self : ECGRecordings) (f : frame) : DataFrame :=
  match f with
  | SelfTable => self_annotations self
  | Fresh rows => rows
  end.

(** [f[column] = ...]: an update of the table [f] refers to. *)
Definition update_frame (self : ECGRecordings) (f : frame)
    (g : DataFrame -> DataFrame) : ECGRecordings * frame :=
  match f with
  | SelfTable => (mkRecordings (g (self_annotations self)) (self_ecg_data self),
                  SelfTable)
  | Fresh rows => (self, Fresh (g rows))
  end.

Definition column_value (c : column) (b : Beat) : Z :=
  match c with
  | ColTarget => target b
  | ColRecording => recording b
  | ColBadSignal => if bad_signal b then 1 else 0
  | ColIsAnomal => if is_anomal b then 1 else 0
  | ColIsUsed => if is_used b then 1 else 0
  end.

(** An [include] or [exclude] argument: columns with their lists of values
    (a single value is a list of one; booleans are 0 and 1). *)
Definition filters : Type := list (column * list Z).

Definition matches (b : Beat) (c : column) (vals : list Z) : bool :=
  existsb (Z.eqb (column_value c b)) vals.

(** [_filter_data]: without any filter the repository's table itself is
    returned; every [query] makes a new table. *)
Definition _filter_data (self : ECGRecordings) (include exclude : filters) : frame :=
  match include, exclude with
  | [], [] => SelfTable
  | _, _ =>
      let filtered_annot :=
        fold_left (fun t '(category, vals) => filter (fun b => matches b category vals) t)
                  include (self_annotations self) in
      Fresh (fold_left (fun t '(category, vals) =>
                          filter (fun b => negb (matches b category vals)) t)
                       exclude filtered_annot)
  end.

(** [generate_signal] on a table: the samples of every beat, in order. *)
Definition generate_signal (self : ECGRecordings) (selection : DataFrame)
  : M (list Sample) :=
  let indices_ecg :=
    flat_map (fun b => py_range (idx_start b) (idx_end b)) selection in
  mapM (py_index (self_ecg_data self)) indices_ecg.

(** Assigning a column: the values must be as many as the rows. *)
Definition set_column (set1 : Beat -> Z -> Beat) (vals : list Z) (t : DataFrame)
  : DataFrame :=
  map (fun '(b, v) => set1 b v) (combine t vals).

Definition set_idx_start_new (b : Beat) (v : Z) : Beat :=
  mkBeat (beat_id b) (idx_start b) (idx_end b) (target b) (recording b)
         (bad_signal b) (is_anomal b) (is_used b)
         (Some v) (idx_end_new b) (segment_id b).

Definition set_idx_end_new (b : Beat) (v : Z) : Beat :=
  mkBeat (beat_id b) (idx_start b) (idx_end b) (target b) (recording b)
         (bad_signal b) (is_anomal b) (is_used b)
         (idx_start_new b) (Some v) (segment_id b).

Definition set_segment_id (b : Beat) (v : Z) : Beat :=
  mkBeat (beat_id b) (idx_start b) (idx_end b) (target b) (recording b)
         (bad_signal b) (is_anomal b) (is_used b)
         (idx_start_new b) (idx_end_new b) (Some v).

Definition set_used (b : Beat) : Beat :=
  mkBeat (beat_id b) (idx_start b) (idx_end b) (target b) (recording b)
         (bad_signal b) (is_anomal b) true
         (idx_start_new b) (idx_end_new b) (segment_id b).

(** [annotations.loc[ids, "is_used"] = True] *)
Definition mark_used (ids : list Z) (t : DataFrame) : DataFrame :=
  map (fun b => if existsb (Z.eqb (beat_id b)) ids then set_used b else b) t.

(** The part of [provide_data] that draws the beats for an integer
    [num_beats], after the two length checks. *)
Definition dispatch (fuel : nat) (num_beats : Z) (annotations : DataFrame)
    (target_probs : target_probs_arg) (continuous_segments : bool)
    (min_anomal_per_seg : option Z) (match_segments : list column)
    (min_len_segment max_len_segment : Z) : M (list Z * option (list Z)) :=
  if (negb continuous_segments && (len match_segments =? 0))
     || (max_len_segment =? 1) then
    (* Pick beats randomly according to [target_probs] without arranging
       them in segments. *)
    beat_indices <- _pick_beats num_beats annotations target_probs ;;
    ret (beat_indices, None)
  else if continuous_segments then
    (* Ignore 'recording' in [match_segments] *)
    let match_segments :=
      filter (fun c => negb (column_eqb c ColRecording)) match_segments in
    _ <- when (existsb (fun c => negb (column_eqb c ColTarget)) match_segments)
           (warn WarnMatchUnsupported) ;;
    if existsb (column_eqb ColTarget) match_segments then
      '(beat_indices, ids_segment) <-
        _pick_cont_segments_sameclass num_beats annotations target_probs
          min_len_segment max_len_segment ;;
      ret (beat_indices, Some ids_segment)
    else
      match min_anomal_per_seg with
      | Some m =>
          '(beat_indices, ids_segment) <-
            _pick_new_style_segments fuel num_beats annotations m target_probs
              min_len_segment max_len_segment ;;
          ret (beat_indices, Some ids_segment)
      | None =>
          '(beat_indices, ids_segment) <-
            _pick_cont_segments num_beats annotations target_probs
              min_len_segment max_len_segment ;;
          ret (beat_indices, Some ids_segment)
      end
  else
    '(beat_indices, ids_segment) <-
      _pick_category_segments num_beats annotations target_probs match_segments
        min_len_segment max_len_segment ;;
    ret (beat_indices, Some ids_segment).

(** [selection[column] = vals]: refused with a [ValueError] unless there is
    one value per row; the write goes to the table [selection] refers to. *)
Definition assign_column (set1 : Beat -> Z -> Beat) (vals : list Z)
    (self : ECGRecordings) (selection : frame) : M (ECGRecordings * frame) :=
  if (length (deref self selection) =? length vals)%nat
  then ret (update_frame self selection (set_column set1 vals))
  else raise ValueError.

(** [provide_data].  [num_beats] is an integer or [None]; the result is the
    repository after the call together with the returned pair.  An
    exception is raised only before the first write, so it leaves the
    repository as it was. *)
Definition provide_data (fuel : nat) (self : ECGRecordings) (num_beats : option Z)
    (include exclude : filters) (target_probs : target_probs_arg)
    (continuous_segments : bool) (min_anomal_per_seg : option Z)
    (match_segments : list column) (min_len_segment max_len_segment : Z)
    (remain_unused : bool)
  : M (ECGRecordings * (DataFrame * list Sample)) :=
  (* Filter according to [include] and [exclude] keywords *)
  let annotations := _filter_data self include exclude in
  '(selection, ids_segment) <-
    match num_beats with
    | None =>
        (* Skip process of drawing beats and arranging them in segments *)
        ret (annotations, None)
    | Some num_beats =>
        (* Make sure values for the segment lengths are sensible *)
        if (min_len_segment <? 1) || (max_len_segment <? 1) then raise ValueError
        else if max_len_segment <? min_len_segment then raise ValueError
        else
          '(beat_indices, ids_segment) <-
            dispatch fuel num_beats (deref self annotations) target_probs
              continuous_segments min_anomal_per_seg match_segments
              min_len_segment max_len_segment ;;
          (* Annotations for selected beats *)
          rows <- loc_rows (deref self annotations) beat_indices ;;
          ret (Fresh rows, ids_segment)
    end ;;
  (* Retrieve corresponding ECG signal *)
  signal <- generate_signal self (deref self selection) ;;
  (* Adjust idx_start and idx_end columns of selection *)
  let beat_sizes := map (fun b => idx_end b - idx_start b) (deref self selection) in
  '(self, selection) <-
    assign_column set_idx_start_new (np_cumsum (0 :: removelast beat_sizes))
      self selection ;;
  '(self, selection) <-
    assign_column set_idx_end_new (np_cumsum beat_sizes) self selection ;;
  '(self, selection) <-
    match ids_segment with
    | Some ids => assign_column set_segment_id ids self selection
    | None => ret (self, selection)
    end ;;
  let self :=
    if remain_unused then self
    else
      (* Mark selected beats as used *)
      mkRecordings (mark_used (index (deref self selection)) (self_annotations self))
                   (self_ecg_data self) in
  ret (self, (deref self selection, signal)).

(** ** [generate_target] *)

Inductive target_stream : Type :=
| Stream (codes : list Z)
| Raster (rows : list (list bool)).

(** [np.repeat(values, counts)] *)
Fixpoint np_repeat (vals counts : list Z) : M (list Z) :=
  match vals, counts with
  | v :: vs, c :: cs =>
      if c <? 0 then raise ValueError
      else rest <- np_repeat vs cs ;; ret (repeat v (Z.to_nat c) ++ rest)
  | _, _ => ret []
  end.

(** [l[a:b] = v] *)
Definition slice_fill (l : list Z) (a b v : Z) : list Z :=
  let a' := slice_bound (len l) a in
  let b' := slice_bound (len l) b in
  map (fun '(i, x) => if (a' <=? Z.of_nat i) && (Z.of_nat i <? b') then v else x)
      (combine (seq 0 (length l)) l).

Fixpoint zip_with {A B C} (f : A -> B -> C) (l1 : list A) (l2 : list B) : list C :=
  match l1, l2 with
  | a :: t1, b :: t2 => f a b :: zip_with f t1 t2
  | _, _ => []
  end.

(** One round of [for idx_extd in anom_end_idcs:
    target[idx_extd : idx_extd + extend] = target[idx_extd - 1]].
    The loop runs over the boolean array itself, so [idx_extd] is [False]
    or [True]; as a slice bound and in arithmetic NumPy reads them as 0
    and 1 (the NumPy releases current for this code accept a boolean
    scalar where an index is expected). *)
Definition extend_step (extend : Z) (target : list Z) (idx_extd : bool)
  : M (list Z) :=
  let i := if idx_extd then 1 else 0 in
  v <- py_index target (i - 1) ;;
  ret (slice_fill target i (i + extend) v).

Definition lookup (m : dict Z) (k : Z) : M Z :=
  match dict_get m k with
  | Some v => ret v
  | None => raise KeyError
  end.

Definition generate_target (annotations : DataFrame) (map_target : option (dict Z))
    (extend : option Z) (boolean_raster : bool) : M target_stream :=
  (* Number of data samples per beat *)
  let beat_sizes := map (fun b => idx_end b - idx_start b) annotations in
  beat_targets <-
    match map_target with
    | Some m => mapM (lookup m) (map target annotations)
    | None => ret (map target annotations)
    end ;;
  target_arr <- np_repeat beat_targets beat_sizes ;;
  target_arr <-
    match extend with
    | Some e =>
        tgt_zero <- match map_target with
                    | Some m => lookup m 0
                    | None => ret 0
                    end ;;
        (* Determine when anomalies end *)
        let anom_end_idcs :=
          false :: zip_with (fun nxt prv => (nxt =? tgt_zero) && negb (prv =? tgt_zero))
                            (tl target_arr) (removelast target_arr) in
        foldM (extend_step e) anom_end_idcs target_arr
    | None => ret target_arr
    end ;;
  if negb boolean_raster then ret (Stream target_arr)
  else
    let anom_targets :=
      match map_target with
      | None => np_unique (filter (fun t => negb (t =? 0)) (map target annotations))
      | Some m =>
          let vals := np_unique (values m) in
          match dict_get m 0 with
          | Some z => filter (fun v => negb (v =? z)) vals
          | None => vals
          end
      end in
    (* Convert target to boolean raster, ignore target [normal] *)
    ret (Raster (map (fun t => map (fun tgt => t =? tgt) anom_targets) target_arr)).

(** ** Notions used in the statements *)

(** [annotations.loc[id]] in a table with unique identifiers. *)
Definition loc (annotations : DataFrame) (id : Z) : option Beat :=
  find (fun b => beat_id b =? id) annotations.

(** Each beat starts at the sample where the one before it ends. *)
Fixpoint abutting (rows : list Beat) : Prop :=
  match rows with
  | b1 :: (b2 :: _) as t => idx_start b2 = idx_end b1 /\ abutting t
  | _ => True
  end.


(** A run of consecutive identifiers, all of rows of one recording. *)
Definition run_of (annotations : DataFrame) (seg : list Z) : Prop :=
  consecutive seg
  /\ exists rec,
       Forall (fun id => exists b, In b annotations /\ beat_id b = id
                                   /\ recording b = rec) seg.

(** What the picker establishes by itself: a non-empty run of consecutive
    identifiers, all of rows of one recording. *)
Definition run_in_recording (annotations : DataFrame) (seg : list Z) : Prop :=
  seg <> [] /\ run_of annotations seg.


(** The two lists a segment picker returns, read against the list [segs]
    of its collected segments. *)
Definition parallel_lists (segs : list (list Z)) (beat_idcs segment_ids : list Z)
  : Prop :=
  beat_idcs = concat segs
  /\ segment_ids = segment_ids_from 0 segs
  /\ length segment_ids = length beat_idcs
  /\ Sorted Z.le segment_ids
  /\ (forall i : nat, (i < length segs)%nat ->
        count (Z.of_nat i) segment_ids = len (nth i segs []))
  /\ (forall i : Z, In i segment_ids <->
        0 <= i < len segs /\ nth (Z.to_nat i) segs [] <> []).

(** A call of one of the four segment pickers. *)
Inductive picker_call : Type :=
| CallContSegments (num_beats : Z) (annotations : DataFrame)
    (target_probs : target_probs_arg) (min_len_segment max_len_segment : Z)
| CallContSegmentsSameclass (num_beats : Z) (annotations : DataFrame)
    (target_probs : target_probs_arg) (min_len_segment max_len_segment : Z)
| CallCategorySegments (num_beats : Z) (annotations : DataFrame)
    (target_probs : target_probs_arg) (match_segments : list column)
    (min_len_segment max_len_segment : Z)
| CallNewStyleSegments (fuel : nat) (num_beats : Z) (annotations : DataFrame)
    (min_anomal_per_seg : Z) (target_probs : target_probs_arg)
    (min_len_segment max_len_segment : Z).

Definition run_picker (c : picker_call) : M (list Z * list Z) :=
  match c with
  | CallContSegments n a tp mn mx => _pick_cont_segments n a tp mn mx
  | CallContSegmentsSameclass n a tp mn mx => _pick_cont_segments_sameclass n a tp mn mx
  | CallCategorySegments n a tp ms mn mx => _pick_category_segments n a tp ms mn mx
  | CallNewStyleSegments fuel n a m tp mn mx =>
      _pick_new_style_segments fuel n a m tp mn mx
  end.

(** The segments a picker has collected when it reaches its common tail
    (the shuffle and the flattening of [flatten_segments]): the body of
    each picker up to that point. *)
Definition collect_segments (c : picker_call) : M (list (list Z)) :=
  match c with
  | CallContSegments num_beats annotations target_probs
      min_len_segment max_len_segment =>
      _ <- when (match target_probs with ProbsNone => false | _ => true end)
             (warn WarnProbsIgnored) ;;
      _pick_cont_segments_inner num_beats annotations min_len_segment max_len_segment
  | CallContSegmentsSameclass num_beats annotations target_probs
      min_len_segment max_len_segment =>
      beat_counts <- _determine_beat_counts num_beats annotations target_probs false ;;
      foldM (fun collected '(tgt, num_beats_tgt) =>
               let available_beats := with_target tgt annotations in
               segs <- _pick_cont_segments_inner num_beats_tgt available_beats
                         min_len_segment max_len_segment ;;
               ret (collected ++ segs))
            beat_counts []
  | CallCategorySegments num_beats annotations target_probs match_segments
      min_len_segment max_len_segment =>
      beat_counts <- _determine_beat_counts num_beats annotations target_probs false ;;
      if same_set match_segments [ColTarget] then
        foldM (category_segments_target annotations min_len_segment max_len_segment)
              beat_counts []
      else if same_set match_segments [ColTarget; ColRecording] then
        foldM (category_segments_target_recording annotations
                 min_len_segment max_len_segment)
              beat_counts []
      else raise ValueError
  | CallNewStyleSegments fuel num_beats annotations min_anomal_per_seg target_probs
      min_len_segment max_len_segment =>
      match target_probs with
      | ProbsNone => raise ValueError
      | ProbsUniform | ProbsOther => raise AttributeError
      | ProbsDict d =>
          let normalize := Qsum (values d) in
          target_nums_missing <-
            mapM (fun '(tgt, prob) =>
                    let rounded := np_round (prob * inject_Z num_beats) in
                    if Qeq_bool normalize 0 then
                      if rounded =? 0 then raise ValueError else raise OverflowError
                    else ret (tgt, Qtrunc (inject_Z rounded / normalize)))
                 d ;;
          new_style_loop fuel annotations min_anomal_per_seg
            min_len_segment max_len_segment
            (mkNewStyle [] annotations target_nums_missing)
      end
  end.

(** The columns of the data model other than [is_used]. *)
Definition core_columns (b : Beat) : Z * Z * Z * Z * Z * bool * bool :=
  (beat_id b, idx_start b, idx_end b, target b, recording b,
   bad_signal b, is_anomal b).

(** How one column assignment relates the repository and the table
    [selection] refers to, before and after. *)
Definition frame_step (self : ECGRecordings) (f : frame)
    (self' : ECGRecordings) (f' : frame) : Prop :=
  self_ecg_data self' = self_ecg_data self
  /\ map core_columns (self_annotations self') = map core_columns (self_annotations self)
  /\ map is_used (self_annotations self') = map is_used (self_annotations self)
  /\ map core_columns (deref self' f') = map core_columns (deref self f)
  /\ match f with
     | SelfTable => f' = SelfTable
     | Fresh _ => self' = self /\ exists rows, f' = Fresh rows
     end.

(** ** Notions used in the further statements *)

(** The rows [provide_data] hands back for the drawn rows [t0]: the two
    offset columns are written, then the segment ids if there are any. *)
Definition with_new_columns (ids_segment : option (list Z)) (t0 : DataFrame)
  : DataFrame :=
  let beat_sizes := map (fun b => idx_end b - idx_start b) t0 in
  let t1 := set_column set_idx_start_new (np_cumsum (0 :: removelast beat_sizes)) t0 in
  let t2 := set_column set_idx_end_new (np_cumsum beat_sizes) t1 in
  match ids_segment with
  | Some ids => set_column set_segment_id ids t2
  | None => t2
  end.

(** A row passes the [include] and [exclude] arguments. *)
Definition passes (include exclude : filters) (b : Beat) : Prop :=
  Forall (fun '(category, vals) => matches b category vals = true) include
  /\ Forall (fun '(category, vals) => matches b category vals = false) exclude.

(** The offsets [(start, end)] of consecutive rows follow each other from
    0, and each pair is as far apart as the beat is long. *)
Fixpoint offsets_from (pos : Z) (rows : DataFrame) : Prop :=
  match rows with
  | [] => True
  | b :: t =>
      idx_start_new b = Some pos
      /\ idx_end_new b = Some (pos + (idx_end b - idx_start b))
      /\ offsets_from (pos + (idx_end b - idx_start b)) t
  end.

(** The sample positions and the new offsets of a row. *)
Definition positions (b : Beat) : Z * Z * option Z * option Z :=
  (idx_start b, idx_end b, idx_start_new b, idx_end_new b).



(** Every identifier of [seg] is that of a beat of class [tgt]. *)
Definition of_class (annotations : DataFrame) (tgt : Z) (seg : list Z) : Prop :=
  Forall (fun id => exists b, In b annotations /\ beat_id b = id /\ target b = tgt)
         seg.

(** Every identifier of [seg] is that of a beat of class [tgt] in the
    recording [rec]. *)
Definition of_class_and_recording (annotations : DataFrame) (tgt rec : Z)
    (seg : list Z) : Prop :=
  Forall (fun id => exists b, In b annotations /\ beat_id b = id
                              /\ target b = tgt /\ recording b = rec)
         seg.

(** The criterion of [_pick_new_style_segments] for a segment: its beats
    are rows of the table, and they are all normal or some anomalous class
    has at least [min_anomal_per_seg] beats among them. *)
Definition dense_segment (annotations : DataFrame) (min_anomal_per_seg : Z)
    (seg : list Z) : Prop :=
  exists rows,
    (forall w, loc_rows annotations seg w = Ok rows w)
    /\ (Forall (fun b => target b = 0) rows
        \/ exists tgt, tgt <> 0
                       /\ min_anomal_per_seg <= count tgt (map target rows)).

(** ** The two methods on beats given by identifier

    [ECGRecordings.generate_signal] and [ECGRecordings.generate_target]
    take a table of annotations or anything else, which they read as beat
    identifiers and look up with [self.annotations.loc[...]]. *)
Inductive beats_arg : Type :=
| AsFrame (rows : DataFrame)
| AsIndex (ids : list Z).

(** [selection if isinstance(selection, pd.DataFrame)
    else self.annotations.loc[selection]] *)
Definition annotations_of (self : ECGRecordings) (selection : beats_arg)
  : M DataFrame :=
  match selection with
  | AsFrame rows => ret rows
  | AsIndex ids => loc_rows (self_annotations self) ids
  end.

(** The method [generate_signal(self, selection)]; [generate_signal] above
    is its part after the annotations are found. *)
Definition generate_signal_method (self : ECGRecordings) (selection : beats_arg)
  : M (list Sample) :=
  annotations <- annotations_of self selection ;;
  generate_signal self annotations.

(** The method [generate_target(self, beat_idcs, ...)], which hands over to
    the function [generate_target]. *)
Definition generate_target_method (self : ECGRecordings) (beat_idcs : beats_arg)
    (map_target : option (dict Z)) (extend : option Z) (boolean_raster : bool)
  : M target_stream :=
  annotations <- annotations_of self beat_idcs ;;
  generate_target annotations map_target extend boolean_raster.

(* ================================================================== *)
(** * Theorems *)
(* ================================================================== *)

(** ** Slices with non-negative bounds *)

Lemma len_cons {A} (a : A) (l : list A) : len (a :: l) = len l + 1.
Proof. unfold len. simpl length. lia. Qed.

Lemma len_nonneg {A} (l : list A) : 0 <= len l.
Proof. unfold len. lia. Qed.

Lemma py_slice_nat {A} (l : list A) (a b : nat) :
  py_slice l (Z.of_nat a) (Z.of_nat b) = firstn (b - a) (skipn a l).
Proof.
  unfold py_slice, slice_bound, len.
  destruct (Z.ltb_spec (Z.of_nat a) 0) as [Ha|Ha]; [lia|].
  destruct (Z.ltb_spec (Z.of_nat b) 0) as [Hb|Hb]; [lia|].
  destruct (Nat.le_gt_cases a (length l)) as [Hal|Hal].
  - replace (Z.to_nat (Z.min (Z.of_nat a) (Z.of_nat (length l)))) with a by lia.
    destruct (Nat.le_gt_cases b (length l)) as [Hbl|Hbl].
    + f_equal. lia.
    + rewrite !firstn_all2; try reflexivity; rewrite length_skipn; lia.
  - rewrite !(skipn_all2 l) by lia.
    rewrite !firstn_nil. reflexivity.
Qed.

Lemma py_slice_to_nat {A} (l : list A) (b : nat) :
  py_slice_to l (Z.of_nat b) = firstn b l.
Proof.
  unfold py_slice_to, slice_bound, len.
  destruct (Z.ltb_spec (Z.of_nat b) 0) as [Hb|Hb]; [lia|].
  destruct (Nat.le_gt_cases b (length l)) as [Hbl|Hbl].
  - f_equal. lia.
  - rewrite !firstn_all2 by lia. reflexivity.
Qed.

Lemma py_slice_from_nat {A} (l : list A) (a : nat) :
  py_slice_from l (Z.of_nat a) = skipn a l.
Proof.
  unfold py_slice_from, slice_bound, len.
  destruct (Z.ltb_spec (Z.of_nat a) 0) as [Ha|Ha]; [lia|].
  destruct (Nat.le_gt_cases a (length l)) as [Hal|Hal].
  - f_equal. lia.
  - rewrite !skipn_all2 by lia. reflexivity.
Qed.

Lemma py_slice_full {A} (l : list A) (a : nat) :
  py_slice l (Z.of_nat a) (len l) = skipn a l.
Proof.
  unfold len. rewrite py_slice_nat.
  apply firstn_all2. rewrite length_skipn. lia.
Qed.

(** ** [split_at_discontinuity] is [runs] *)

Lemma np_where_from_S (k : nat) (mask : list bool) :
  np_where_from (S k) mask = map S (np_where_from k mask).
Proof.
  revert k. induction mask as [|b t IH]; intro k; simpl; [reflexivity|].
  rewrite IH. destruct b; reflexivity.
Qed.

Lemma np_split_from_shift {A} (a : A) (t : list A) (idx : list nat) (p : nat) :
  np_split_from (a :: t) (Z.of_nat (S p)) (map Z.of_nat (map S idx))
  = np_split_from t (Z.of_nat p) (map Z.of_nat idx).
Proof.
  revert p. induction idx as [|i rest IH]; intro p; cbn [map np_split_from].
  - rewrite !py_slice_full. reflexivity.
  - rewrite IH, !py_slice_nat. reflexivity.
Qed.

Lemma np_split_from_cons {A} (a : A) (t : list A) (idx : list nat) :
  np_split_from (a :: t) 0 (map Z.of_nat (map S idx))
  = match np_split_from t 0 (map Z.of_nat idx) with
    | r :: rs => (a :: r) :: rs
    | [] => [[a]]
    end.
Proof.
  destruct idx as [|i rest]; cbn [map np_split_from].
  - change 0 with (Z.of_nat 0). rewrite !py_slice_full. reflexivity.
  - rewrite np_split_from_shift.
    change 0 with (Z.of_nat 0). rewrite !py_slice_nat, !Nat.sub_0_r. reflexivity.
Qed.

Lemma split_at_discontinuity_runs (seq : list Z) (step : Z) :
  split_at_discontinuity seq step = runs seq.
Proof.
  unfold split_at_discontinuity, np_split, np_where, is_discontinuous.
  induction seq as [|a t IH]; [reflexivity|].
  destruct t as [|b t']; [reflexivity|].
  cbn [np_diff map np_where_from] in *.
  rewrite np_where_from_S in IH.
  cbn [runs]. destruct (Z.eqb_spec (b - a) 1) as [E|E]; cbn [negb].
  - rewrite !np_where_from_S, np_split_from_cons, <- np_where_from_S.
    rewrite np_where_from_S, IH. reflexivity.
  - cbn [map np_split_from].
    rewrite !np_where_from_S.
    change (Z.of_nat 1) with (Z.of_nat (S 0)).
    rewrite np_split_from_shift.
    change (Z.of_nat 0) with 0. rewrite IH.
    change 0 with (Z.of_nat 0) at 1. rewrite py_slice_nat. reflexivity.
Qed.

(** ** Properties of [runs] *)

Lemma runs_cons2 (a b : Z) (t : list Z) :
  runs (a :: b :: t)
  = if b - a =? 1 then
      match runs (b :: t) with
      | r :: rs => (a :: r) :: rs
      | [] => [[a]]
      end
    else [a] :: runs (b :: t).
Proof. reflexivity. Qed.


Lemma runs_head (b : Z) (t : list Z) :
  exists r rs, runs (b :: t) = (b :: r) :: rs.
Proof.
  revert b. induction t as [|c t IH]; intro b.
  - exists [], []. reflexivity.
  - rewrite runs_cons2. destruct (IH c) as (r & rs & E).
    destruct (c - b =? 1).
    + rewrite E. eauto.
    + eauto.
Qed.

Lemma concat_runs (seq : list Z) : concat (runs seq) = seq.
Proof.
  induction seq as [|a t IH]; [reflexivity|].
  destruct t as [|b t']; [reflexivity|].
  rewrite runs_cons2. destruct (runs_head b t') as (r & rs & E).
  rewrite E in *. destruct (b - a =? 1); cbn [concat app] in *; now rewrite IH.
Qed.

Lemma runs_consecutive (seq : list Z) : Forall consecutive (runs seq).
Proof.
  induction seq as [|a t IH]; [repeat constructor|].
  destruct t as [|b t']; [repeat constructor|].
  rewrite runs_cons2. destruct (runs_head b t') as (r & rs & E).
  rewrite E in *. inversion IH as [|? ? Hr Hrs]; subst.
  destruct (Z.eqb_spec (b - a) 1) as [D|D].
  - constructor; [|assumption]. cbn [consecutive]. split; assumption.
  - constructor; [exact I|]. constructor; assumption.
Qed.


Lemma runs_nonempty (seq : list Z) :
  seq <> [] -> Forall (fun r => r <> []) (runs seq).
Proof.
  induction seq as [|a t IH]; [congruence|]; intros _.
  destruct t as [|b t']; [repeat constructor; discriminate|].
  rewrite runs_cons2. destruct (runs_head b t') as (r & rs & E).
  assert (H : Forall (fun r => r <> []) (runs (b :: t'))) by (apply IH; discriminate).
  rewrite E in *. inversion H; subst.
  destruct (b - a =? 1); constructor; try discriminate; try assumption.
Qed.

(** ** Where the cuts are *)



(** ** The cuts on an array of an integer dtype *)










(** ** The segment-length planner *)

Lemma Qceiling_div (a b : Z) :
  0 < b -> Qceiling (inject_Z a / inject_Z b) = - ((- a) / b).
Proof.
  intro Hb. destruct b as [|p|p]; try lia.
  unfold Qceiling, Qfloor, Qdiv, Qinv, Qmult, Qopp, inject_Z. simpl.
  rewrite Z.mul_1_r. reflexivity.
Qed.

Lemma int_ceil_div_pos (a b : Z) (w : world) :
  0 < b ->
  exists c, int_ceil_div a b w = Ok c w /\ a <= c * b /\ (0 < a -> 0 < c).
Proof.
  intro Hb. unfold int_ceil_div.
  destruct (Z.eqb_spec b 0) as [E|E]; [lia|].
  rewrite Qceiling_div by assumption.
  eexists. split; [reflexivity|].
  pose proof (Z.mul_div_le (- a) b Hb).
  split; [lia|]. intro Ha.
  destruct (Z.le_gt_cases (- (- a / b)) 0) as [L|L]; [|lia].
  assert (- a / b < 0) by (apply Z.div_lt_upper_bound; lia). lia.
Qed.

Lemma np_randint_ok (low high : Z) (w : world) :
  low < high ->
  exists x w', np_randint low high w = Ok x w'
               /\ low <= x < high /\ warnings w' = warnings w.
Proof.
  intro H. unfold np_randint, bind, draw, ret.
  destruct (Z.leb_spec high low) as [L|L]; [lia|].
  destruct (tape w) as [|r t]; eexists; eexists; (split; [reflexivity|]);
    (split; [|reflexivity]).
  - pose proof (Z.mod_pos_bound (Z.of_nat 0) (high - low)). lia.
  - pose proof (Z.mod_pos_bound (Z.of_nat r) (high - low)). lia.
Qed.

Lemma mapM_randint_ok (low high : Z) (n : nat) (w : world) :
  low < high ->
  exists l w', mapM (fun _ : unit => np_randint low high) (repeat tt n) w = Ok l w'
               /\ length l = n /\ Forall (fun x => low <= x < high) l
               /\ warnings w' = warnings w.
Proof.
  intro H. revert w. induction n as [|n IH]; intro w.
  - exists [], w. repeat split. constructor.
  - cbn [repeat mapM]. unfold bind at 1.
    destruct (np_randint_ok low high w H) as (x & w1 & E1 & Hx & Hw1).
    rewrite E1. unfold bind at 1.
    destruct (IH w1) as (l & w2 & E2 & Hl & Hall & Hw2).
    rewrite E2. exists (x :: l), w2. unfold ret.
    repeat split; [simpl; lia|constructor; assumption|congruence].
Qed.

Lemma In_firstn {A} (x : A) (n : nat) (l : list A) : In x (firstn n l) -> In x l.
Proof.
  intro H. rewrite <- (firstn_skipn n l). apply in_or_app. now left.
Qed.

Lemma In_skipn {A} (x : A) (n : nat) (l : list A) : In x (skipn n l) -> In x l.
Proof.
  intro H. rewrite <- (firstn_skipn n l). apply in_or_app. now right.
Qed.

Lemma sum_app (l1 l2 : list Z) : sum (l1 ++ l2) = sum l1 + sum l2.
Proof. induction l1 as [|a t IH]; simpl; [reflexivity|]. unfold sum in *. simpl. lia. Qed.

Lemma sum_cons (a : Z) (l : list Z) : sum (a :: l) = a + sum l.
Proof. reflexivity. Qed.

Lemma sum_lower (m : Z) (l : list Z) :
  Forall (fun x => m <= x) l -> len l * m <= sum l.
Proof.
  induction 1 as [|a t Ha _ IH]; [reflexivity|].
  rewrite len_cons, sum_cons. lia.
Qed.

Lemma np_select_none (num : Z) (l : list Z) (acc : Z) :
  num < acc -> Forall (fun x => 0 <= x) l ->
  np_select l (map (fun c => c <=? num) (np_cumsum_from acc l)) = [].
Proof.
  intros Hacc Hl. revert acc Hacc.
  induction Hl as [|x t Hx _ IH]; intros acc Hacc; [reflexivity|].
  cbn [np_cumsum_from map np_select].
  destruct (Z.leb_spec (acc + x) num); [lia|]. apply IH. lia.
Qed.

Lemma np_select_prefix (num : Z) (l : list Z) (acc : Z) :
  Forall (fun x => 1 <= x) l -> acc <= num ->
  exists k : nat,
    (k <= length l)%nat
    /\ np_select l (map (fun c => c <=? num) (np_cumsum_from acc l)) = firstn k l
    /\ acc + sum (firstn k l) <= num
    /\ ((k < length l)%nat -> num < acc + sum (firstn (S k) l)).
Proof.
  intros Hl. revert acc.
  induction Hl as [|x t Hx Ht IH]; intros acc Hacc.
  - exists 0%nat. repeat split; simpl; try lia.
  - cbn [np_cumsum_from map np_select].
    destruct (Z.leb_spec (acc + x) num) as [L|L].
    + destruct (IH (acc + x) L) as (k & Hk & E & Hs & Hn).
      exists (S k). rewrite !firstn_cons, E, !sum_cons. cbn [length].
      repeat split; lia.
    + exists 0%nat. rewrite np_select_none; try lia.
      * rewrite firstn_cons, firstn_O, sum_cons. cbn [length]. unfold sum. simpl.
        repeat split; try lia.
      * eapply Forall_impl; [|exact Ht]. simpl. intros. lia.
Qed.

Lemma nth_error_cumsum (l : list Z) (acc : Z) (j : nat) :
  (j < length l)%nat ->
  nth_error (np_cumsum_from acc l) j = Some (acc + sum (firstn (S j) l)).
Proof.
  revert acc j. induction l as [|x t IH]; intros acc j Hj; [inversion Hj|].
  cbn [np_cumsum_from]. destruct j as [|j].
  - simpl. f_equal. unfold sum. simpl. lia.
  - cbn [nth_error]. rewrite IH by (simpl in Hj; lia).
    f_equal. cbn [firstn]. rewrite !sum_cons. lia.
Qed.

Lemma length_cumsum (l : list Z) (acc : Z) :
  length (np_cumsum_from acc l) = length l.
Proof. revert acc. induction l; intro; simpl; [reflexivity|]. now rewrite IHl. Qed.

Lemma py_index_nat {A} (l : list A) (j : nat) (x : A) (w : world) :
  nth_error l j = Some x -> py_index l (Z.of_nat j) w = Ok x w.
Proof.
  intro H. unfold py_index. cbv zeta.
  assert (Hj : (j < length l)%nat) by (apply nth_error_Some; congruence).
  assert (E1 : (Z.of_nat j <? 0) = false) by (apply Z.ltb_ge; lia).
  assert (E2 : (len l <=? Z.of_nat j) = false) by (apply Z.leb_gt; unfold len; lia).
  rewrite E1. cbv iota. rewrite E1, E2. cbn [orb].
  rewrite Nat2Z.id, H. reflexivity.
Qed.

(** X2.  When the budget exceeds [max_len_segment] (and
    [1 <= min_len_segment <= max_len_segment]) the planner returns, every
    length lies in [[min_len_segment, max_len_segment]], and the lengths
    add up to at least the budget and to less than the budget plus
    [min_len_segment]. *)
Theorem determine_seg_lengths_large_budget
    (num_beats_total min_len_segment max_len_segment : Z) (w : world) :
  1 <= min_len_segment -> min_len_segment <= max_len_segment ->
  max_len_segment < num_beats_total ->
  exists segments w',
    _determine_seg_lengths num_beats_total min_len_segment max_len_segment w
    = Ok segments w'
    /\ Forall (fun s => min_len_segment <= s <= max_len_segment) segments
    /\ num_beats_total <= sum segments < num_beats_total + min_len_segment.
Proof.
  intros Hmin Hmax Hnum. unfold _determine_seg_lengths.
  destruct (Z.leb_spec num_beats_total max_len_segment) as [L|_]; [lia|].
  unfold bind at 1.
  destruct (int_ceil_div_pos num_beats_total min_len_segment w) as (c & Ec & Hc & Hcpos);
    [lia|]. rewrite Ec.
  unfold bind at 1. unfold np_randint_size.
  destruct (Z.eqb_spec c 0) as [Hc00|Hc00]; [lia|].
  destruct (Z.leb_spec (max_len_segment + 1) min_len_segment) as [Hr|Hr]; [lia|].
  destruct (Z.ltb_spec c 0) as [Hc0|Hc0]; [lia|].
  destruct (mapM_randint_ok min_len_segment (max_len_segment + 1) (Z.to_nat c) w)
    as (l & w1 & El & Hlen & Hall & Hw1); [lia|]. rewrite El.
  assert (Hall1 : Forall (fun x => 1 <= x) l)
    by (eapply Forall_impl; [|exact Hall]; simpl; intros; lia).
  destruct (np_select_prefix num_beats_total l 0 Hall1) as (k & Hk & Ek & Hs & Hn); [lia|].
  unfold np_cumsum. rewrite Ek.
  assert (Hkpos : (1 <= k)%nat).
  { destruct k as [|k]; [|lia]. exfalso.
    assert (Hl0 : (0 < length l)%nat) by lia.
    specialize (Hn Hl0). destruct l as [|x t]; [inversion Hl0|].
    inversion Hall; subst. simpl in Hn. unfold sum in Hn. simpl in Hn. lia. }
  assert (Hlk : len (firstn k l) - 1 = Z.of_nat (k - 1)).
  { unfold len. rewrite length_firstn. lia. }
  unfold bind at 1. rewrite Hlk.
  rewrite (py_index_nat _ (k - 1) (0 + sum (firstn (S (k - 1)) l)))
    by (apply nth_error_cumsum; lia).
  replace (S (k - 1)) with k by lia.
  assert (Hin : Forall (fun s => min_len_segment <= s <= max_len_segment) (firstn k l)).
  { apply Forall_forall. intros x Hx. apply In_firstn in Hx.
    rewrite Forall_forall in Hall. specialize (Hall x Hx). simpl in Hall. lia. }
  assert (Hmiss : num_beats_total - (0 + sum (firstn k l)) < max_len_segment + 1).
  { destruct (Nat.eq_dec k (length l)) as [->|Hne].
    - rewrite firstn_all in *.
      assert (len l * min_len_segment <= sum l).
      { apply sum_lower. eapply Forall_impl; [|exact Hall]. simpl. intros; lia. }
      unfold len in H. rewrite Hlen in H. nia.
    - assert (Hlt : (k < length l)%nat) by lia. specialize (Hn Hlt).
      rewrite <- (firstn_skipn k l) in Hn at 1.
      assert (Hsk : exists y, firstn (S k) l = firstn k l ++ [y] /\ In y l).
      { clear - Hlt. revert k Hlt. induction l as [|a t IH]; intros k Hlt; [inversion Hlt|].
        destruct k as [|k].
        - exists a. split; [reflexivity|now left].
        - destruct (IH k) as (y & E & Hy); [simpl in Hlt; lia|].
          exists y. split; [rewrite !firstn_cons, E; reflexivity|now right]. }
      destruct Hsk as (y & Ey & Hy). rewrite firstn_skipn in Hn.
      rewrite Ey, sum_app in Hn. rewrite Forall_forall in Hall.
      specialize (Hall y Hy). simpl in Hall. unfold sum in Hn at 2. simpl in Hn. lia. }
  destruct (Z.ltb_spec 0 (num_beats_total - (0 + sum (firstn k l)))) as [Hm|Hm].
  - unfold bind, when, warn, ret.
    destruct (Z.ltb_spec 0 (Z.max min_len_segment (num_beats_total - (0 + sum (firstn k l)))
                            - (num_beats_total - (0 + sum (firstn k l)))));
      eexists; eexists; (split; [reflexivity|]); rewrite sum_app;
      (split; [apply Forall_app; split; [exact Hin|constructor; [lia|constructor]]|]);
      unfold sum at 2; simpl; lia.
  - unfold ret. eexists; eexists; split; [reflexivity|]. split; [exact Hin|]. lia.
Qed.

Lemma determine_seg_lengths_large_budget_witness :
  let w := mkWorld [] [] in
  (1 <= 2 /\ 2 <= 2 /\ 2 < 5)
  /\ _determine_seg_lengths 5 2 2 w = Ok [2; 2; 2] (mkWorld [] [WarnExceeded 1])
  /\ exists segments w',
       _determine_seg_lengths 5 2 2 w = Ok segments w'
       /\ Forall (fun s => 2 <= s <= 2) segments
       /\ 5 <= sum segments < 5 + 2.
Proof.
  intro w. split; [lia|]. split; [reflexivity|].
  apply (determine_seg_lengths_large_budget 5 2 2 w); lia.
Defined.

(** C3 (evaluation at the failing input). Budget 5 with segment lengths
    between 1 and 10: the planner returns the single length 1, whose sum
    is below the budget, without drawing and without a warning. *)
Theorem determine_seg_lengths_small_budget :
  forall w : world,
    _determine_seg_lengths 5 1 10 w = Ok [1] w
    /\ sum [1] < 5.
Proof. intro w. split; [reflexivity|reflexivity]. Qed.

(** ** The count allocator *)

Lemma Qfloor_div (a b : Z) :
  0 < b -> Qfloor (inject_Z a / inject_Z b) = a / b.
Proof.
  intro Hb. destruct b as [|p|p]; try lia.
  unfold Qfloor, Qdiv, Qinv, Qmult, inject_Z. simpl.
  rewrite Z.mul_1_r. reflexivity.
Qed.

Lemma In_insert_unique (x y : Z) (l : list Z) :
  In y (insert_unique x l) <-> y = x \/ In y l.
Proof.
  induction l as [|z t IH]; simpl; [intuition|].
  destruct (Z.ltb_spec x z); [simpl; intuition|].
  destruct (Z.eqb_spec x z); [subst; simpl; intuition|].
  simpl. rewrite IH. intuition.
Qed.

Lemma In_np_unique (y : Z) (l : list Z) : In y (np_unique l) <-> In y l.
Proof.
  unfold np_unique. induction l as [|x t IH]; simpl; [tauto|].
  rewrite In_insert_unique, IH. intuition.
Qed.

Lemma insert_unique_sorted (x : Z) (l : list Z) :
  StronglySorted Z.lt l -> StronglySorted Z.lt (insert_unique x l).
Proof.
  induction 1 as [|z t Ht IH Hz]; simpl; [repeat constructor|].
  destruct (Z.ltb_spec x z).
  - constructor; [constructor; assumption|].
    constructor; [assumption|].
    eapply Forall_impl; [|exact Hz]. simpl. intros. lia.
  - destruct (Z.eqb_spec x z); [constructor; assumption|].
    constructor; [assumption|].
    apply Forall_forall. intros y Hy. apply In_insert_unique in Hy.
    destruct Hy as [->|Hy]; [lia|].
    rewrite Forall_forall in Hz. auto.
Qed.

Lemma np_unique_sorted (l : list Z) : StronglySorted Z.lt (np_unique l).
Proof.
  unfold np_unique. induction l; simpl; [constructor|].
  now apply insert_unique_sorted.
Qed.

Lemma sorted_NoDup (l : list Z) : StronglySorted Z.lt l -> NoDup l.
Proof.
  induction 1 as [|z t Ht IH Hz]; constructor; [|assumption].
  intro Hin. rewrite Forall_forall in Hz. specialize (Hz z Hin). lia.
Qed.

Lemma np_unique_NoDup (l : list Z) : NoDup (np_unique l).
Proof. apply sorted_NoDup, np_unique_sorted. Qed.

Lemma count_cons (x a : Z) (l : list Z) :
  count x (a :: l) = (if x =? a then 1 else 0) + count x l.
Proof.
  unfold count. cbn [filter]. destruct (x =? a); [rewrite len_cons|]; lia.
Qed.

Lemma count_nonneg (x : Z) (l : list Z) : 0 <= count x l.
Proof. apply len_nonneg. Qed.

Lemma sum_indicator (a : Z) (u : list Z) :
  NoDup u -> In a u -> sum (map (fun x => if x =? a then 1 else 0) u) = 1.
Proof.
  induction 1 as [|z t Hz Ht IH]; intro Hin; [inversion Hin|].
  cbn [map]. rewrite sum_cons. destruct (Z.eqb_spec z a) as [->|Hne].
  - assert (E : sum (map (fun x => if x =? a then 1 else 0) t) = 0); [|lia].
    clear IH Ht Hin. induction t as [|y t IH]; [reflexivity|].
    cbn [map]. rewrite sum_cons.
    destruct (Z.eqb_spec y a) as [->|_]; [exfalso; apply Hz; now left|].
    rewrite IH; [reflexivity|]. intro H. apply Hz. now right.
  - destruct Hin as [->|Hin]; [congruence|]. rewrite IH by assumption. lia.
Qed.

Lemma sum_map_add {A} (f g : A -> Z) (l : list A) :
  sum (map (fun x => f x + g x) l) = sum (map f l) + sum (map g l).
Proof. induction l as [|a t IH]; [reflexivity|]. cbn [map]. rewrite !sum_cons. lia. Qed.

Lemma sum_map_ext {A} (f g : A -> Z) (l : list A) :
  (forall x, f x = g x) -> sum (map f l) = sum (map g l).
Proof. intro H. induction l; [reflexivity|]. cbn [map]. rewrite !sum_cons, H. lia. Qed.

Lemma sum_counts (u l : list Z) :
  NoDup u -> (forall x, In x l -> In x u) ->
  sum (map (fun x => count x l) u) = len l.
Proof.
  intros Hu. induction l as [|a t IH]; intro Hin.
  - clear. induction u; [reflexivity|]. cbn [map]. rewrite sum_cons, IHu. reflexivity.
  - rewrite (sum_map_ext _ (fun x => (if x =? a then 1 else 0) + count x t))
      by (intro; apply count_cons).
    rewrite sum_map_add, sum_indicator, IH, len_cons; try lia; try assumption.
    + intros x Hx. apply Hin. now right.
    + apply Hin. now left.
Qed.

Lemma sum_unique_counts (l : list Z) :
  sum (snd (np_unique_counts l)) = len l.
Proof.
  unfold np_unique_counts. cbn [snd].
  apply sum_counts; [apply np_unique_NoDup|]. intros x. apply In_np_unique.
Qed.

Lemma values_combine {V} (ks : list Z) (vs : list V) :
  length ks = length vs -> values (combine ks vs) = vs.
Proof.
  revert vs. induction ks as [|k t IH]; intros [|v vs] H; try discriminate; [reflexivity|].
  cbn [combine values map snd]. f_equal. apply IH. simpl in H. lia.
Qed.

Lemma keys_combine {V} (ks : list Z) (vs : list V) :
  length ks = length vs -> keys (combine ks vs) = ks.
Proof.
  revert vs. induction ks as [|k t IH]; intros [|v vs] H; try discriminate; [reflexivity|].
  cbn [combine keys map fst]. f_equal. apply IH. simpl in H. lia.
Qed.

Lemma keys_cons {V} (k : Z) (v : V) (d : dict V) : keys ((k, v) :: d) = k :: keys d.
Proof. reflexivity. Qed.

Lemma values_cons {V} (k : Z) (v : V) (d : dict V) : values ((k, v) :: d) = v :: values d.
Proof. reflexivity. Qed.

Lemma dict_get_Some_In {V} (d : dict V) (k : Z) (v : V) :
  dict_get d k = Some v -> In k (keys d).
Proof.
  induction d as [|[k' v'] t IH]; [discriminate|]. cbn [dict_get keys map fst].
  destruct (Z.eqb_spec k' k); [now left|]. intro H. right. now apply IH.
Qed.

Lemma dict_get_In {V} (d : dict V) (k : Z) :
  In k (keys d) -> exists v, dict_get d k = Some v.
Proof.
  induction d as [|[k' v'] t IH]; [intros []|]. cbn [dict_get keys map fst].
  destruct (Z.eqb_spec k' k); [eauto|]. intros [H|H]; [congruence|]. now apply IH.
Qed.

Lemma dict_set_existing (d : dict Z) (k v0 v : Z) :
  dict_get d k = Some v0 ->
  keys (dict_set d k v) = keys d
  /\ sum (values (dict_set d k v)) = sum (values d) - v0 + v
  /\ (Forall (fun c => 0 <= c) (values d) -> 0 <= v ->
      Forall (fun c => 0 <= c) (values (dict_set d k v))).
Proof.
  induction d as [|[k' v'] t IH]; [discriminate|].
  cbn [dict_get dict_set]. destruct (Z.eqb_spec k' k) as [->|Hne].
  - intros [= ->]. rewrite !keys_cons, !values_cons, !sum_cons.
    repeat split; [lia|]. intros H Hv. inversion H; subst. constructor; assumption.
  - intro H. destruct (IH H) as (Hk & Hs & Hf).
    rewrite !keys_cons, !values_cons, !sum_cons, Hs, Hk.
    repeat split; [lia|]. intros Hall Hv. inversion Hall; subst.
    constructor; auto.
Qed.

Lemma dict_get_nonneg (d : dict Z) (k v : Z) :
  Forall (fun c => 0 <= c) (values d) -> dict_get d k = Some v -> 0 <= v.
Proof.
  induction d as [|[k' v'] t IH]; [discriminate|].
  cbn [dict_get values map snd]. intro H. inversion H; subst.
  destruct (k' =? k); [intros [= ->]; assumption|]. now apply IH.
Qed.

Lemma randbelow_ok (n : nat) (w : world) :
  (0 < n)%nat ->
  exists i w', randbelow n w = Ok i w' /\ (i < n)%nat /\ warnings w' = warnings w.
Proof.
  intro Hn. unfold randbelow, bind, draw, ret.
  destruct (tape w) as [|r t]; eexists; eexists; (split; [reflexivity|]);
    (split; [apply Nat.mod_upper_bound; lia|reflexivity]).
Qed.

Lemma random_choices_ok {A} (population : list A) (k : Z) (w : world) :
  population <> [] ->
  exists picks w',
    random_choices population k w = Ok picks w'
    /\ length picks = Z.to_nat k
    /\ Forall (fun x => In x population) picks
    /\ warnings w' = warnings w.
Proof.
  intro Hne. unfold random_choices.
  generalize (Z.to_nat k) as n. intro n. revert w.
  assert (Hlen : (0 < length population)%nat)
    by (destruct population; [congruence|simpl; lia]).
  induction n as [|n IH]; intro w.
  - exists [], w. repeat split. constructor.
  - cbn [repeat mapM]. unfold bind at 1. unfold bind at 1.
    destruct (randbelow_ok (length population) w Hlen) as (i & w1 & Ei & Hi & Hw1).
    rewrite Ei.
    destruct (nth_error population i) as [x|] eqn:Ex;
      [|apply nth_error_None in Ex; lia].
    unfold ret at 1. unfold bind at 1.
    destruct (IH w1) as (l & w2 & E2 & Hl & Hall & Hw2). rewrite E2.
    exists (x :: l), w2. unfold ret.
    repeat split; [simpl; lia| |congruence].
    constructor; [eapply nth_error_In; eauto|assumption].
Qed.

Lemma dict_add_ok (d : dict Z) (k delta v : Z) (w : world) :
  dict_get d k = Some v -> dict_add d k delta w = Ok (dict_set d k (v + delta)) w.
Proof. intro H. unfold dict_add. rewrite H. reflexivity. Qed.

Lemma foldM_dict_add_ok (tgts : list Z) (d : dict Z) (w : world) :
  Forall (fun t => In t (keys d)) tgts ->
  exists d',
    foldM (fun bc tgt => dict_add bc tgt 1) tgts d w = Ok d' w
    /\ keys d' = keys d
    /\ sum (values d') = sum (values d) + len tgts
    /\ (Forall (fun c => 0 <= c) (values d) -> Forall (fun c => 0 <= c) (values d')).
Proof.
  revert d. induction tgts as [|t ts IH]; intros d Hall.
  - exists d. unfold len. simpl. repeat split; [lia|auto].
  - inversion Hall as [|? ? Ht Hts]; subst.
    destruct (dict_get_In d t Ht) as (v & Ev).
    cbn [foldM]. unfold bind at 1. rewrite (dict_add_ok d t 1 v w Ev).
    destruct (dict_set_existing d t v (v + 1) Ev) as (Hk & Hs & Hf).
    destruct (IH (dict_set d t (v + 1))) as (d' & E & Hk' & Hs' & Hf').
    { rewrite Hk. assumption. }
    exists d'. rewrite E, len_cons. repeat split; [congruence|lia|].
    intro Hnn. apply Hf', Hf; [assumption|].
    pose proof (dict_get_nonneg d t v Hnn Ev). lia.
Qed.

Lemma zero_fill_ok (targets : list Z) (d : dict Z) :
  let d' := fold_left
              (fun bc tgt => if existsb (Z.eqb tgt) (keys bc) then bc else dict_set bc tgt 0)
              targets d in
  sum (values d') = sum (values d)
  /\ (Forall (fun c => 0 <= c) (values d) -> Forall (fun c => 0 <= c) (values d')).
Proof.
  revert d. induction targets as [|t ts IH]; intro d; cbn [fold_left]; [auto|].
  destruct (existsb (Z.eqb t) (keys d)) eqn:E; [apply IH|].
  assert (Hset : values (dict_set d t 0) = values d ++ [0]).
  { clear IH. induction d as [|[k v] d IHd]; [reflexivity|].
    cbn [keys map fst existsb] in E. apply orb_false_iff in E. destruct E as [E1 E2].
    cbn [dict_set]. rewrite Z.eqb_sym, E1. cbn [values map snd app]. f_equal.
    apply IHd. exact E2. }
  destruct (IH (dict_set d t 0)) as (Hs & Hf). cbv zeta. rewrite Hs, Hset, sum_app.
  split; [unfold sum at 2; simpl; lia|].
  intro Hnn. apply Hf. rewrite Hset. apply Forall_app. split; [assumption|].
  constructor; [lia|constructor].
Qed.

Lemma sum_floor_shares (n t : Z) (cs : list Z) :
  0 < t ->
  sum (map (fun c => Qfloor (inject_Z (n * c) / inject_Z t)) cs) * t <= n * sum cs.
Proof.
  intro Ht. induction cs as [|c cs IH]; [unfold sum; simpl; lia|].
  cbn [map]. rewrite !sum_cons, Qfloor_div by assumption.
  pose proof (Z.mul_div_le (n * c) t Ht). lia.
Qed.

(** The residual, when it is not negative, goes to class 0 or to classes
    drawn at random; either way the counts stay non-negative and add up
    to [num_beats]. *)
Lemma add_difference_ok (num_beats : Z) (bc0 : dict Z) (w : world) :
  keys bc0 <> [] ->
  Forall (fun c => 0 <= c) (values bc0) ->
  sum (values bc0) <= num_beats ->
  exists bc1 w1,
    (match dict_get bc0 0 with
     | Some v => ret (dict_set bc0 0 (v + (num_beats - sum (values bc0))))
     | None =>
         tgts <- random_choices (keys bc0) (num_beats - sum (values bc0)) ;;
         foldM (fun bc tgt => dict_add bc tgt 1) tgts bc0
     end) w = Ok bc1 w1
    /\ Forall (fun c => 0 <= c) (values bc1)
    /\ sum (values bc1) = num_beats.
Proof.
  intros Hk0 Hnn0 Hle0. destruct (dict_get bc0 0) as [v|] eqn:Eg.
  - destruct (dict_set_existing bc0 0 v (v + (num_beats - sum (values bc0))) Eg)
      as (_ & Hs & Hf).
    eexists. eexists. split; [reflexivity|]. split; [|lia].
    apply Hf; [assumption|]. pose proof (dict_get_nonneg bc0 0 v Hnn0 Eg). lia.
  - destruct (random_choices_ok (keys bc0) (num_beats - sum (values bc0)) w Hk0)
      as (tgts & w1 & Er & Hl & Hall & _).
    unfold bind. rewrite Er.
    destruct (foldM_dict_add_ok tgts bc0 w1 Hall) as (d' & Ef & _ & Hs & Hf).
    exists d', w1. split; [exact Ef|]. split; [auto|].
    rewrite Hs. unfold len. rewrite Hl. lia.
Qed.

Lemma np_unique_nonempty (l : list Z) : l <> [] -> np_unique l <> [].
Proof.
  intros Hl E. destruct l as [|x t]; [congruence|].
  assert (H : In x (np_unique (x :: t))) by (apply In_np_unique; now left).
  rewrite E in H. inversion H.
Qed.

(** The tail of [_determine_beat_counts] after the first version [bc0] of
    the counts: the residual and the classes without a count. *)
Ltac complete_beat_counts U bc0 Hk0 Hnn0 Hle0 :=
  unfold bind at 1;
  let bc1 := fresh "bc1" in
  let w1 := fresh "w1" in
  let E1 := fresh "E1" in
  let Hnn1 := fresh "Hnn1" in
  let Hs1 := fresh "Hs1" in
  match goal with
  | |- context [_ - sum (values bc0)] =>
      match goal with
      | |- exists _ _, match ?c ?w0 with _ => _ end = _ /\ _ =>
          destruct (add_difference_ok _ bc0 w0 Hk0 Hnn0 Hle0)
            as (bc1 & w1 & E1 & Hnn1 & Hs1)
      end
  end;
  rewrite E1;
  match goal with
  | |- context [if ?b then _ else _] =>
      destruct b;
      [ let Hz := fresh "Hz" in
        pose proof (zero_fill_ok U bc1) as Hz; cbv zeta in Hz;
        destruct Hz as (? & ?);
        eexists; eexists; (split; [reflexivity|]); split; [auto|lia]
      | eexists; eexists; (split; [reflexivity|]); auto ]
  end.

(** X1.  With [target_probs = "uniform"], a non-negative budget and at
    least one annotated beat, the allocator returns a count for each
    class of the table, none negative, that add up to exactly
    [num_beats].  (Every step is integer arithmetic of Python: the floor
    division and the residual.) *)
Theorem determine_beat_counts_uniform
    (num_beats : Z) (annotations : DataFrame)
    (include_zero_prob : bool) (w : world) :
  0 <= num_beats -> annotations <> [] ->
  exists beat_counts w',
    _determine_beat_counts num_beats annotations ProbsUniform include_zero_prob w
    = Ok beat_counts w'
    /\ Forall (fun c => 0 <= c) (values beat_counts)
    /\ sum (values beat_counts) = num_beats.
Proof.
  intros Hn Hne. unfold _determine_beat_counts, np_unique_counts.
  set (tg := map target annotations).
  set (U := np_unique tg).
  assert (HU : U <> []).
  { apply np_unique_nonempty. unfold tg. destruct annotations; [congruence|discriminate]. }
  assert (HlenU : 0 < len U).
  { unfold len. destruct U; [congruence|simpl; lia]. }
  destruct (Z.eqb_spec (len U) 0) as [E|_]; [lia|].
  set (bc0 := map (fun tgt => (tgt, num_beats / len U)) U).
  assert (Hv : values bc0 = map (fun _ => num_beats / len U) U).
  { unfold values, bc0. rewrite map_map. reflexivity. }
  assert (Hk : keys bc0 = U).
  { unfold keys, bc0. rewrite map_map. apply map_id. }
  assert (Hk0 : keys bc0 <> []) by (rewrite Hk; exact HU).
  assert (Hnn0 : Forall (fun c => 0 <= c) (values bc0)).
  { rewrite Hv. apply Forall_forall. intros v Hin. apply in_map_iff in Hin.
    destruct Hin as (? & <- & _). apply Z.div_pos; lia. }
  assert (Hle0 : sum (values bc0) <= num_beats).
  { assert (Hs : forall l : list Z,
               sum (map (fun _ => num_beats / len U) l) = len l * (num_beats / len U)).
    { induction l as [|a t IH]; [reflexivity|].
      cbn [map]. rewrite sum_cons, len_cons, IH. lia. }
    rewrite Hv, Hs. pose proof (Z.mul_div_le num_beats (len U) HlenU). lia. }
  unfold bind at 1. unfold ret at 1.
  complete_beat_counts U bc0 Hk0 Hnn0 Hle0.
Qed.

Lemma determine_beat_counts_uniform_witness :
  let annotations :=
    [ mkBeat 0 0 10 1 0 false false false None None None;
      mkBeat 1 10 20 2 0 false false false None None None;
      mkBeat 2 20 30 2 0 false false false None None None ] in
  let w := mkWorld [5%nat; 2%nat] [] in
  (0 <= 3 /\ annotations <> [])
  /\ _determine_beat_counts 3 annotations ProbsUniform false w
     = Ok [(1, 1); (2, 2)] (mkWorld [2%nat] [])
  /\ exists beat_counts w',
       _determine_beat_counts 3 annotations ProbsUniform false w
       = Ok beat_counts w'
       /\ Forall (fun c => 0 <= c) (values beat_counts)
       /\ sum (values beat_counts) = 3.
Proof.
  intros annotations w. split; [split; [lia|discriminate]|].
  split; [reflexivity|].
  apply (determine_beat_counts_uniform 3 annotations false w);
    [lia|discriminate].
Defined.

(** X26.  With [target_probs = None], a non-negative budget, at least one
    annotated beat and [(num_beats + 1) * len(annotations) < 2^53], the
    allocator returns a count for each class of the table, none negative,
    that add up to exactly [num_beats].

    The bound is where the quotient that the code takes in float64 has
    the floor of the exact quotient, which is what the definition takes.
    With [t = len(annotations)] the total and [x = num_beats * c <=
    num_beats * t] the product for a class, [x + t < 2^53]: the product
    does not wrap in int64, and float64 holds [x] and [t] exactly.  The
    division rounds the exact quotient [q = x / t] to the nearest float.
    An integer [q] is a float, and is the result.  Otherwise, with [k]
    the floor of [q], [q <= k + 1 - 1/t], while half the distance from
    [k + 1] to the float before it is at most
    [(k + 1) / 2^53 <= (x + t) / (t * 2^53) < 1/t]; so the rounded
    quotient stays below [k + 1], and not below the float [k]. *)
Theorem determine_beat_counts_none
    (num_beats : Z) (annotations : DataFrame)
    (include_zero_prob : bool) (w : world) :
  0 <= num_beats -> annotations <> [] ->
  (num_beats + 1) * len annotations < 2 ^ 53 ->
  exists beat_counts w',
    _determine_beat_counts num_beats annotations ProbsNone include_zero_prob w
    = Ok beat_counts w'
    /\ Forall (fun c => 0 <= c) (values beat_counts)
    /\ sum (values beat_counts) = num_beats.
Proof.
  intros Hn Hne _. unfold _determine_beat_counts.
  set (tg := map target annotations).
  assert (Htg : 0 < len tg).
  { unfold tg, len. rewrite length_map. destruct annotations; [congruence|simpl; lia]. }
  pose proof (sum_unique_counts tg) as Hsum.
  unfold np_unique_counts in *. cbn [snd] in Hsum.
  set (U := np_unique tg) in *.
  set (C := map (fun x => count x tg) U) in *.
  assert (HU : U <> []).
  { apply np_unique_nonempty. unfold tg. destruct annotations; [congruence|discriminate]. }
  assert (HlenC : length U = length C) by (unfold C; now rewrite length_map).
  set (bc0 := combine U (map (fun c => Qfloor (inject_Z (num_beats * c) / inject_Z (sum C))) C)).
  assert (Hk : keys bc0 = U)
    by (unfold bc0; rewrite keys_combine by (now rewrite length_map); reflexivity).
  assert (Hv : values bc0
               = map (fun c => Qfloor (inject_Z (num_beats * c) / inject_Z (sum C))) C)
    by (unfold bc0; rewrite values_combine by (now rewrite length_map); reflexivity).
  assert (Hk0 : keys bc0 <> []) by (rewrite Hk; exact HU).
  assert (Hnn0 : Forall (fun c => 0 <= c) (values bc0)).
  { rewrite Hv. apply Forall_forall. intros v Hin. apply in_map_iff in Hin.
    destruct Hin as (c & <- & Hc). rewrite Qfloor_div by lia.
    apply Z.div_pos; [|lia]. apply Z.mul_nonneg_nonneg; [lia|].
    unfold C in Hc. apply in_map_iff in Hc. destruct Hc as (x & <- & _).
    apply count_nonneg. }
  assert (Hle0 : sum (values bc0) <= num_beats).
  { rewrite Hv. pose proof (sum_floor_shares num_beats (sum C) C ltac:(lia)). nia. }
  unfold bind at 1. unfold ret at 1.
  complete_beat_counts U bc0 Hk0 Hnn0 Hle0.
Qed.

Lemma determine_beat_counts_none_witness :
  let annotations :=
    [ mkBeat 0 0 10 1 0 false false false None None None;
      mkBeat 1 10 20 2 0 false false false None None None;
      mkBeat 2 20 30 2 0 false false false None None None ] in
  let w := mkWorld [5%nat; 2%nat] [] in
  (0 <= 3 /\ annotations <> [] /\ (3 + 1) * len annotations < 2 ^ 53)
  /\ _determine_beat_counts 3 annotations ProbsNone false w
     = Ok [(1, 1); (2, 2)] w
  /\ exists beat_counts w',
       _determine_beat_counts 3 annotations ProbsNone false w
       = Ok beat_counts w'
       /\ Forall (fun c => 0 <= c) (values beat_counts)
       /\ sum (values beat_counts) = 3.
Proof.
  intros annotations w.
  split; [split; [lia|split; [discriminate|reflexivity]]|].
  split; [reflexivity|].
  apply (determine_beat_counts_none 3 annotations false w);
    [lia|discriminate|reflexivity].
Defined.

(** C1 (evaluation at two failing inputs).  Budget 3 over classes 1 and 2
    with equal weights: both shares are 1.5 and round to 2, the residual
    is -1, no class 0 exists and [random.choices] with a negative [k]
    draws nothing, so the counts add up to 4.  With a class 0 of weight 0
    added, the residual -1 goes to class 0, whose count becomes -1. *)
Theorem determine_beat_counts_rounding_overshoot :
  let annotations :=
    [ mkBeat 0 0 10 1 0 false false false None None None;
      mkBeat 1 10 20 2 0 false false false None None None ] in
  forall w : world,
    (_determine_beat_counts 3 annotations (ProbsDict [(1, 1%Q); (2, 1%Q)]) false w
     = Ok [(1, 2); (2, 2)] w
     /\ sum (values [(1, 2); (2, 2)]) = 4)
    /\ _determine_beat_counts 3 annotations
         (ProbsDict [(0, 0%Q); (1, 1%Q); (2, 1%Q)]) false w
       = Ok [(0, -1); (1, 2); (2, 2)] w.
Proof. intros annotations w. repeat split. Qed.

(** ** Sampling one class *)

Lemma np_choice_noreplace_too_many {A} (a : list A) (size : Z) (w : world) :
  len a < size -> np_choice_noreplace a size w = Raise ValueError w.
Proof.
  intro H. unfold np_choice_noreplace.
  destruct ((len a =? 0) && negb (size =? 0)); [reflexivity|].
  destruct (Z.ltb_spec (len a) size); [reflexivity|lia].
Qed.

(** C7. When the count asked of a class exceeds the beats available for
    it, [_pick_target_beats] does not fail: it logs the insufficient-data
    warning and returns every available beat of the class (in table
    order, no random draw consumed); and the loop of [_pick_beats] over
    the classes goes on with the remaining classes from there. *)
Theorem pick_target_beats_insufficient
    (tgt num_beats : Z) (annotations : DataFrame) (w : world) :
  let available := index (with_target tgt annotations) in
  let w' := mkWorld (tape w)
              (warnings w ++ [WarnInsufficient tgt (len available) num_beats]) in
  len available < num_beats ->
  _pick_target_beats tgt num_beats annotations w = Ok available w'
  /\ forall (collected_beats : list Z) (rest : dict Z),
       foldM (collect_target_beats annotations) ((tgt, num_beats) :: rest)
         collected_beats w
       = foldM (collect_target_beats annotations) rest
           (collected_beats ++ available) w'.
Proof.
  intros available w' H.
  assert (E : _pick_target_beats tgt num_beats annotations w = Ok available w').
  { unfold _pick_target_beats, except_ValueError.
    fold available. rewrite np_choice_noreplace_too_many by assumption.
    destruct (Z.ltb_spec (len available) num_beats); [reflexivity|lia]. }
  split; [exact E|]. intros collected_beats rest.
  cbn [foldM]. unfold bind at 1. unfold collect_target_beats at 1.
  unfold bind at 1. rewrite E. reflexivity.
Qed.

Lemma pick_target_beats_insufficient_witness :
  let annotations :=
    [ mkBeat 0 0 10 0 0 false false false None None None;
      mkBeat 1 10 20 1 0 false false false None None None;
      mkBeat 2 20 30 0 0 false false false None None None ] in
  let w := mkWorld [] [] in
  len (index (with_target 1 annotations)) < 2
  /\ _pick_target_beats 1 2 annotations w
     = Ok [1] (mkWorld [] [WarnInsufficient 1 1 2]).
Proof.
  intros annotations w. split; [reflexivity|].
  apply (pick_target_beats_insufficient 1 2 annotations w). reflexivity.
Defined.

(** ** Shuffling permutes *)

Lemma nth_error_list_set_eq {A} (l : list A) (i : nat) (v : A) :
  (i < length l)%nat -> nth_error (list_set l i v) i = Some v.
Proof.
  revert i. induction l as [|a t IH]; intros [|i] H; simpl in *; try lia; [reflexivity|].
  apply IH. lia.
Qed.

Lemma nth_error_list_set_neq {A} (l : list A) (i j : nat) (v : A) :
  i <> j -> nth_error (list_set l i v) j = nth_error l j.
Proof.
  revert i j. induction l as [|a t IH]; intros [|i] [|j] H; simpl; try reflexivity; try lia.
  apply IH. lia.
Qed.

Lemma list_set_perm {A} (l : list A) (i : nat) (a b : A) :
  nth_error l i = Some a -> Permutation (b :: l) (a :: list_set l i b).
Proof.
  revert i. induction l as [|c t IH]; intros [|i] H; simpl in *; try discriminate.
  - injection H as ->. apply perm_swap.
  - specialize (IH i H).
    transitivity (c :: b :: t); [apply perm_swap|].
    transitivity (c :: a :: list_set t i b); [now apply perm_skip|apply perm_swap].
Qed.

Lemma swap_perm {A} (x : list A) (i j : nat) : Permutation (swap x i j) x.
Proof.
  unfold swap.
  destruct (nth_error x i) as [a|] eqn:Ea; [|reflexivity].
  destruct (nth_error x j) as [b|] eqn:Eb; [|reflexivity].
  assert (Hi : (i < length x)%nat) by (apply nth_error_Some; congruence).
  assert (Eb' : nth_error (list_set x i b) j = Some b).
  { destruct (Nat.eq_dec i j) as [->|Hne].
    - now apply nth_error_list_set_eq.
    - rewrite nth_error_list_set_neq by assumption. exact Eb. }
  apply Permutation_cons_inv with (a := b). symmetry.
  transitivity (a :: list_set x i b); [now apply list_set_perm|].
  now apply list_set_perm.
Qed.

Lemma shuffle_steps_perm {A} (i : nat) (x : list A) (w : world) :
  exists y w', shuffle_steps i x w = Ok y w'
               /\ Permutation y x /\ warnings w' = warnings w.
Proof.
  revert x w. induction i as [|i IH]; intros x w.
  - exists x, w. repeat split. reflexivity.
  - cbn [shuffle_steps]. unfold bind at 1.
    destruct (randbelow_ok (S (S i)) w) as (j & w1 & Ej & _ & Hw1); [lia|].
    rewrite Ej.
    destruct (IH (swap x (S i) j) w1) as (y & w2 & E & Hp & Hw2).
    exists y, w2. split; [exact E|]. split; [|congruence].
    transitivity (swap x (S i) j); [exact Hp|apply swap_perm].
Qed.

Lemma np_shuffle_perm {A} (x : list A) (w : world) :
  exists y w', np_shuffle x w = Ok y w'
               /\ Permutation y x /\ warnings w' = warnings w.
Proof. apply shuffle_steps_perm. Qed.

(** ** The loop of the continuous-segment picker *)

Lemma In_np_where_from_bound (mask : list bool) (k i : nat) :
  In i (np_where_from k mask) -> (k <= i < k + length mask)%nat.
Proof.
  revert k. induction mask as [|b t IH]; intros k H; [inversion H|].
  cbn [np_where_from] in H. cbn [length].
  destruct b; [destruct H as [<-|H]; [lia|]|]; apply IH in H; lia.
Qed.

Lemma np_choice_weighted_ok (weights : list Z) (w : world) :
  weights <> [] -> Forall (fun x => 0 < x) weights ->
  exists i w', np_choice_weighted weights w = Ok i w' /\ (i < length weights)%nat.
Proof.
  intros Hne Hpos. unfold np_choice_weighted.
  assert (Hsum : 0 < sum weights).
  { destruct Hpos as [|x t Hx Ht]; [congruence|].
    rewrite sum_cons.
    assert (0 <= sum t); [|lia].
    clear - Ht. induction Ht; [unfold sum; simpl; lia|rewrite sum_cons; lia]. }
  destruct (Z.eqb_spec (sum weights) 0) as [E|_]; [lia|].
  set (support := np_where (map (fun x => 0 <? x) weights)).
  assert (Hsup : (0 < length support)%nat).
  { unfold support, np_where. destruct Hpos as [|x t Hx Ht]; [congruence|].
    cbn [map np_where_from]. destruct (Z.ltb_spec 0 x); [simpl; lia|lia]. }
  unfold bind.
  destruct (randbelow_ok (length support) w Hsup) as (j & w1 & Ej & Hj & _).
  rewrite Ej. unfold ret. eexists. eexists. split; [reflexivity|].
  assert (Hin : In (nth j support 0%nat) support) by (apply nth_In; exact Hj).
  apply In_np_where_from_bound in Hin. rewrite length_map in Hin. lia.
Qed.

Lemma np_choice_one_ok {A} (a : list A) (w : world) :
  a <> [] -> exists x w', np_choice_one a w = Ok x w' /\ In x a.
Proof.
  intro Hne. unfold np_choice_one, bind.
  assert (Hlen : (0 < length a)%nat) by (destruct a; [congruence|simpl; lia]).
  destruct (randbelow_ok (length a) w Hlen) as (i & w1 & Ei & Hi & _).
  rewrite Ei. destruct (nth_error a i) as [x|] eqn:Ex.
  - exists x, w1. split; [reflexivity|]. eapply nth_error_In; eauto.
  - apply nth_error_None in Ex. lia.
Qed.

Lemma try_randint_ok (low high : Z) (w : world) :
  exists r w',
    except_ValueError (len_seg <- np_randint low high ;; ret (Some len_seg))
                      (ret None) w = Ok r w'
    /\ match r with Some x => low <= x < high | None => True end.
Proof.
  destruct (Z.le_gt_cases high low) as [H|H].
  - exists None, w. split; [|exact I].
    unfold except_ValueError, bind, np_randint, raise.
    destruct (Z.leb_spec high low); [reflexivity|lia].
  - destruct (np_randint_ok low high w) as (x & w1 & E & Hx & _); [lia|].
    exists (Some x), w1. split; [|exact Hx].
    unfold except_ValueError, bind. rewrite E. reflexivity.
Qed.

Lemma In_py_range (a b x : Z) : In x (py_range a b) -> a <= x < b.
Proof.
  unfold py_range. intro H. apply in_map_iff in H.
  destruct H as (i & <- & Hi). apply in_seq in Hi. lia.
Qed.

Lemma segs_weight_app (l1 l2 : list (list Z)) :
  segs_weight (l1 ++ l2) = (segs_weight l1 + segs_weight l2)%nat.
Proof.
  unfold segs_weight. induction l1 as [|a t IH]; [reflexivity|].
  cbn [app fold_right]. rewrite IH. lia.
Qed.

Lemma segs_weight_filter (f : list Z -> bool) (l : list (list Z)) :
  (segs_weight (filter f l) <= segs_weight l)%nat.
Proof.
  unfold segs_weight. induction l as [|a t IH]; [simpl; lia|].
  cbn [filter]. destruct (f a); cbn [fold_right]; lia.
Qed.

Lemma remove_nth_weight (i : nat) (l : list (list Z)) :
  (i < length l)%nat ->
  (segs_weight (remove_nth i l) + (2 * length (nth i l []) + 1)
   = segs_weight l)%nat.
Proof.
  unfold segs_weight. revert i. induction l as [|a t IH]; intros [|i] H;
    simpl in H; try lia.
  - cbn [remove_nth nth fold_right]. lia.
  - cbn [remove_nth nth fold_right]. specialize (IH i ltac:(lia)). lia.
Qed.

Lemma In_remove_nth {A} (x : A) (i : nat) (l : list A) :
  In x (remove_nth i l) -> In x l.
Proof.
  revert i. induction l as [|a t IH]; intros [|i] H; simpl in *; auto.
  destruct H as [H|H]; [now left|right; eauto].
Qed.

Lemma py_slice_to_Z {A} (l : list A) (b : Z) :
  0 <= b -> py_slice_to l b = firstn (Z.to_nat b) l.
Proof. intro H. rewrite <- (Z2Nat.id b) at 1 by assumption. apply py_slice_to_nat. Qed.

Lemma py_slice_from_Z {A} (l : list A) (a : Z) :
  0 <= a -> py_slice_from l a = skipn (Z.to_nat a) l.
Proof. intro H. rewrite <- (Z2Nat.id a) at 1 by assumption. apply py_slice_from_nat. Qed.

Lemma py_slice_Z {A} (l : list A) (a b : Z) :
  0 <= a -> 0 <= b ->
  py_slice l a b = firstn (Z.to_nat b - Z.to_nat a) (skipn (Z.to_nat a) l).
Proof.
  intros Ha Hb. rewrite <- (Z2Nat.id a) at 1 by assumption.
  rewrite <- (Z2Nat.id b) at 1 by assumption. apply py_slice_nat.
Qed.

Section ContinuousLoop.

Variable P : list Z -> Prop.
Hypothesis P_firstn : forall n l, P l -> P (firstn n l).
Hypothesis P_skipn : forall n l, P l -> P (skipn n l).
Variables min_len_segment max_len_segment : Z.
Hypothesis Hmin : 1 <= min_len_segment.
Hypothesis Hmax : min_len_segment <= max_len_segment.

(** With valid length bounds the loop ends within its budget, raises
    nothing, and keeps every property of segments that passes to
    contiguous pieces; no collected segment is empty. *)
Lemma cont_segments_loop_ok (fuel : nat) :
  forall (num_beats : Z) (available_segs collected_segments : list (list Z))
         (w : world),
    Forall (fun l => l <> [] /\ P l) available_segs ->
    Forall (fun l => l <> [] /\ P l) collected_segments ->
    (segs_weight available_segs < fuel)%nat ->
    exists segs w',
      cont_segments_loop fuel min_len_segment max_len_segment num_beats
        available_segs collected_segments w = Ok segs w'
      /\ Forall (fun l => l <> [] /\ P l) segs.
Proof.
  induction fuel as [|fuel IH]; intros num_beats avail coll w Hav Hco Hfuel; [lia|].
  cbn [cont_segments_loop].
  destruct (Z.ltb_spec 0 num_beats) as [Hnum|Hnum];
    [|exists coll, w; split; [reflexivity|assumption]].
  destruct (Z.eqb_spec (len avail) 0) as [Hlen|Hlen].
  { unfold bind, warn, ret. eexists. eexists. split; [reflexivity|assumption]. }
  assert (Havne : avail <> []) by (intros ->; apply Hlen; reflexivity).
  destruct (np_choice_weighted_ok (map len avail) w) as (i & w1 & Ei & Hi).
  { destruct avail; [congruence|discriminate]. }
  { apply Forall_forall. intros x Hx. apply in_map_iff in Hx.
    destruct Hx as (l & <- & Hl). rewrite Forall_forall in Hav.
    destruct (Hav l Hl) as (Hne & _). unfold len.
    destruct l; [congruence|simpl; lia]. }
  rewrite length_map in Hi.
  unfold bind at 1. rewrite Ei.
  set (sublist := nth i avail []).
  assert (Hsub : In sublist avail) by (apply nth_In; exact Hi).
  assert (Hgood : sublist <> [] /\ P sublist)
    by (rewrite Forall_forall in Hav; apply Hav; exact Hsub).
  destruct Hgood as (Hsne & HsP).
  assert (HL : 1 <= len sublist)
    by (unfold len; destruct sublist; [congruence|simpl; lia]).
  pose proof (remove_nth_weight i avail Hi) as Hw. fold sublist in Hw.
  assert (Hav' : Forall (fun l => l <> [] /\ P l) (remove_nth i avail)).
  { apply Forall_forall. intros l Hl. apply In_remove_nth in Hl.
    rewrite Forall_forall in Hav. auto. }
  destruct (Z.leb_spec (len sublist) max_len_segment) as [Hle|Hgt].
  - (* the whole sub-list, cut to the number of beats still missing *)
    apply IH; [assumption| |lia].
    apply Forall_app. split; [assumption|]. constructor; [|constructor].
    rewrite py_slice_to_Z by lia. split; [|apply P_firstn; assumption].
    intro E. apply (f_equal (@length Z)) in E. rewrite length_firstn in E.
    unfold len in *. simpl in E. lia.
  - unfold bind at 1.
    destruct (try_randint_ok min_len_segment
                (Z.min max_len_segment (len sublist - min_len_segment)) w1)
      as (r & w2 & Er & Hr).
    rewrite Er. destruct r as [len_seg|]; [|apply IH; [assumption|assumption|lia]].
    unfold bind at 1.
    destruct (np_choice_one_ok
                ([0] ++ [len sublist - len_seg]
                 ++ py_range min_len_segment
                      (len sublist - len_seg - min_len_segment)) w2)
      as (idx_start & w3 & Es & Hs); [discriminate|].
    rewrite Es.
    assert (Hidx : 0 <= idx_start <= len sublist - len_seg).
    { cbn [app] in Hs. destruct Hs as [<-|[<-|Hs]]; [lia|lia|].
      apply In_py_range in Hs. lia. }
    assert (Hl0 : length (py_slice_to sublist idx_start) = Z.to_nat idx_start).
    { rewrite py_slice_to_Z, length_firstn by lia. unfold len in *. lia. }
    assert (Hl1 : length (py_slice_from sublist (idx_start + len_seg))
                  = (length sublist - Z.to_nat (idx_start + len_seg))%nat).
    { rewrite py_slice_from_Z, length_skipn by lia. reflexivity. }
    apply IH.
    + apply Forall_app. split; [assumption|].
      apply Forall_forall. intros l Hl. apply filter_In in Hl.
      destruct Hl as (Hl & Hlen'). apply Z.ltb_lt in Hlen'.
      split; [intros ->; unfold len in Hlen'; simpl in Hlen'; lia|].
      destruct Hl as [<-|[<-|[]]].
      * rewrite py_slice_to_Z by lia. apply P_firstn; assumption.
      * rewrite py_slice_from_Z by lia. apply P_skipn; assumption.
    + apply Forall_app. split; [assumption|]. constructor; [|constructor].
      rewrite py_slice_Z by lia. split; [|apply P_firstn, P_skipn; assumption].
      intro E. apply (f_equal (@length Z)) in E.
      rewrite length_firstn, length_skipn in E. unfold len in *. simpl in E. lia.
    + rewrite segs_weight_app.
      pose proof (segs_weight_filter (fun l => max_len_segment <? len l)
                    [py_slice_to sublist idx_start;
                     py_slice_from sublist (idx_start + len_seg)]) as Hf.
      unfold segs_weight at 2 in Hf. cbn [fold_right] in Hf.
      rewrite Hl0, Hl1 in Hf. unfold len in *. lia.
Qed.

End ContinuousLoop.

(** ** Reading results of monadic code *)

Lemma bind_Ok {A B} (c : M A) (k : A -> M B) (w : world) (r : B) (w' : world) :
  bind c k w = Ok r w' -> exists a w1, c w = Ok a w1 /\ k a w1 = Ok r w'.
Proof.
  unfold bind. destruct (c w) as [a w1| |]; try discriminate. eauto.
Qed.

Lemma ret_Ok {A} (a r : A) (w w' : world) : ret a w = Ok r w' -> r = a /\ w' = w.
Proof. unfold ret. intros [= -> ->]. auto. Qed.

Lemma foldM_invariant {A B} (I : B -> Prop) (f : B -> A -> M B) (l : list A) :
  (forall b a w b' w', I b -> In a l -> f b a w = Ok b' w' -> I b') ->
  forall b w b' w', I b -> foldM f l b w = Ok b' w' -> I b'.
Proof.
  induction l as [|a t IH]; intros Hstep b w b' w' Hb H.
  - apply ret_Ok in H. destruct H as [-> _]. exact Hb.
  - cbn [foldM] in H. apply bind_Ok in H. destruct H as (b1 & w1 & H1 & H2).
    eapply IH; [|eapply Hstep; [exact Hb|now left|exact H1]|exact H2].
    intros. eapply Hstep; eauto. now right.
Qed.

(** ** Segment identifiers *)

Lemma count_app (x : Z) (l1 l2 : list Z) : count x (l1 ++ l2) = count x l1 + count x l2.
Proof. unfold count, len. rewrite filter_app, length_app. lia. Qed.

Lemma count_repeat (x y : Z) (n : nat) :
  count x (repeat y n) = if x =? y then Z.of_nat n else 0.
Proof.
  induction n as [|n IH]; [destruct (x =? y); reflexivity|].
  cbn [repeat]. rewrite count_cons, IH. destruct (x =? y); lia.
Qed.

Lemma segment_ids_lower (k : Z) (segs : list (list Z)) :
  Forall (fun i => k <= i) (segment_ids_from k segs).
Proof.
  revert k. induction segs as [|s t IH]; intro k; [constructor|].
  cbn [segment_ids_from]. apply Forall_app. split.
  - apply Forall_forall. intros i Hi. apply repeat_spec in Hi. lia.
  - eapply Forall_impl; [|apply (IH (k + 1))]. simpl. intros. lia.
Qed.

Lemma segment_ids_length (k : Z) (segs : list (list Z)) :
  length (segment_ids_from k segs) = length (concat segs).
Proof.
  revert k. induction segs as [|s t IH]; intro k; [reflexivity|].
  cbn [segment_ids_from concat]. rewrite !length_app, repeat_length, IH. reflexivity.
Qed.

Lemma segment_ids_In (k i : Z) (segs : list (list Z)) :
  In i (segment_ids_from k segs)
  <-> k <= i < k + len segs /\ nth (Z.to_nat (i - k)) segs [] <> [].
Proof.
  revert k. induction segs as [|s t IH]; intro k.
  - unfold len. simpl. split; [tauto|lia].
  - cbn [segment_ids_from]. rewrite in_app_iff, IH, len_cons.
    pose proof (len_nonneg t).
    destruct (Z.eq_dec i k) as [->|Hne].
    + replace (k - k) with 0 by lia. cbn [Z.to_nat nth]. split.
      * intros [Hi|Hi]; [|lia]. split; [lia|].
        intros ->. simpl in Hi. exact Hi.
      * intros [_ Hs]. left. destruct s as [|x s]; [congruence|]. now left.
    + split.
      * intros [Hi|(Hi & Hn)]; [apply repeat_spec in Hi; congruence|].
        split; [lia|].
        replace (Z.to_nat (i - k)) with (S (Z.to_nat (i - (k + 1)))) by lia.
        exact Hn.
      * intros (Hi & Hn). right. split; [lia|].
        replace (Z.to_nat (i - k)) with (S (Z.to_nat (i - (k + 1)))) in Hn by lia.
        exact Hn.
Qed.

Lemma segment_ids_sorted (k : Z) (segs : list (list Z)) :
  StronglySorted Z.le (segment_ids_from k segs).
Proof.
  revert k. induction segs as [|s t IH]; intro k; [constructor|].
  cbn [segment_ids_from].
  pose proof (segment_ids_lower (k + 1) t) as Hlow.
  induction (length s) as [|n IHn]; [apply IH|].
  cbn [repeat app]. constructor; [exact IHn|].
  apply Forall_app. split.
  - apply Forall_forall. intros i Hi. apply repeat_spec in Hi. lia.
  - eapply Forall_impl; [|exact Hlow]. simpl. intros. lia.
Qed.

Lemma segment_ids_count (k : Z) (i : nat) (segs : list (list Z)) :
  (i < length segs)%nat ->
  count (k + Z.of_nat i) (segment_ids_from k segs) = len (nth i segs []).
Proof.
  revert k i. induction segs as [|s t IH]; intros k i Hi; [inversion Hi|].
  cbn [segment_ids_from]. rewrite count_app, count_repeat.
  destruct i as [|i].
  - replace (k + Z.of_nat 0) with k by lia. rewrite Z.eqb_refl. cbn [nth].
    assert (E : count k (segment_ids_from (k + 1) t) = 0); [|unfold len; lia].
    pose proof (segment_ids_lower (k + 1) t) as Hlow.
    induction Hlow as [|x l Hx _ IHl]; [reflexivity|].
    rewrite count_cons, IHl. destruct (Z.eqb_spec k x); lia.
  - destruct (Z.eqb_spec (k + Z.of_nat (S i)) k); [lia|].
    cbn [nth]. replace (k + Z.of_nat (S i)) with (k + 1 + Z.of_nat i) by lia.
    rewrite IH by (simpl in Hi; lia). lia.
Qed.

Lemma parallel_lists_intro (segs : list (list Z)) :
  parallel_lists segs (concat segs) (segment_ids_from 0 segs).
Proof.
  unfold parallel_lists. split; [reflexivity|]. split; [reflexivity|].
  split; [apply segment_ids_length|].
  split; [apply StronglySorted_Sorted, segment_ids_sorted|].
  split.
  - intros i Hi. apply (segment_ids_count 0 i segs Hi).
  - intro i. rewrite segment_ids_In. rewrite Z.sub_0_r. reflexivity.
Qed.

Lemma flatten_segments_Ok (segs0 : list (list Z)) (w : world)
    (beats ids : list Z) (w' : world) :
  flatten_segments segs0 w = Ok (beats, ids) w' ->
  exists segs, Permutation segs segs0 /\ parallel_lists segs beats ids.
Proof.
  unfold flatten_segments. intro H. apply bind_Ok in H.
  destruct H as (segs & w1 & Hs & Hr).
  destruct (np_shuffle_perm segs0 w) as (y & w2 & Ey & Hp & _).
  rewrite Ey in Hs. injection Hs as -> ->.
  apply ret_Ok in Hr. destruct Hr as [[= -> ->] _].
  exists segs. split; [exact Hp|apply parallel_lists_intro].
Qed.

Lemma flatten_segments_total (segs0 : list (list Z)) (w : world) :
  exists beats ids w', flatten_segments segs0 w = Ok (beats, ids) w'.
Proof.
  unfold flatten_segments, bind.
  destruct (np_shuffle_perm segs0 w) as (y & w2 & Ey & _ & _). rewrite Ey.
  unfold ret. eauto.
Qed.

Lemma bind_assoc {A B C} (c : M A) (f : A -> M B) (g : B -> M C) (w : world) :
  bind (bind c f) g w = bind c (fun a => bind (f a) g) w.
Proof. unfold bind. destruct (c w); reflexivity. Qed.

(** Every picker is its collecting part followed by the common tail. *)
Lemma run_picker_collect (c : picker_call) (w : world) :
  run_picker c w
  = (collected_segments <- collect_segments c ;;
     flatten_segments collected_segments) w.
Proof.
  destruct c; cbn [run_picker collect_segments].
  - unfold _pick_cont_segments. now rewrite bind_assoc.
  - unfold _pick_cont_segments_sameclass. now rewrite bind_assoc.
  - unfold _pick_category_segments. now rewrite bind_assoc.
  - unfold _pick_new_style_segments.
    destruct target_probs; try reflexivity.
    cbv zeta. now rewrite bind_assoc.
Qed.

(** C9 (amended).  Whenever one of the four segment pickers returns, its
    two lists are parallel.  Let [collected_segments] be the [k] segments
    the picker has collected and [segs] their order after the shuffle, a
    permutation of them: the beat list is the concatenation of [segs] and
    the segment-id list holds, for each position [i] in turn, as many
    copies of [i] as segment [i] of [segs] has beats.  So both lists have
    the same length, the ids never decrease, id [i] occurs exactly
    [len(segs[i])] times, and the ids that occur are those of the
    non-empty segments among [0 .. k-1]. *)
Theorem segment_pickers_parallel_lists
    (c : picker_call) (w : world) (beat_idcs segment_ids : list Z) (w' : world) :
  run_picker c w = Ok (beat_idcs, segment_ids) w' ->
  exists collected_segments w1 segs,
    collect_segments c w = Ok collected_segments w1
    /\ np_shuffle collected_segments w1 = Ok segs w'
    /\ Permutation segs collected_segments
    /\ length segs = length collected_segments
    /\ parallel_lists segs beat_idcs segment_ids.
Proof.
  intro H. rewrite run_picker_collect in H.
  apply bind_Ok in H. destruct H as (collected_segments & w1 & Hc & Hf).
  unfold flatten_segments in Hf.
  apply bind_Ok in Hf. destruct Hf as (segs & w2 & Hs & Hr).
  apply ret_Ok in Hr. destruct Hr as [[= -> ->] ->].
  destruct (np_shuffle_perm collected_segments w1) as (y & w3 & Ey & Hp & _).
  rewrite Ey in Hs. injection Hs as -> ->.
  exists collected_segments, w1, segs.
  split; [exact Hc|]. split; [exact Ey|]. split; [exact Hp|].
  split; [apply Permutation_length, Hp|apply parallel_lists_intro].
Qed.

(** ** Continuous segments are runs inside one recording *)

Lemma consecutive_tail (a : Z) (l : list Z) : consecutive (a :: l) -> consecutive l.
Proof. destruct l; [intros; exact I|]. intros [_ H]. exact H. Qed.

Lemma consecutive_firstn (n : nat) (l : list Z) :
  consecutive l -> consecutive (firstn n l).
Proof.
  revert l. induction n as [|n IH]; intros l H; [exact I|].
  destruct l as [|a t]; [exact I|]. rewrite firstn_cons.
  destruct t as [|b t']; [destruct n; exact I|].
  destruct H as [Hab Ht]. specialize (IH (b :: t') Ht).
  destruct n as [|n]; [exact I|].
  rewrite firstn_cons in *. split; assumption.
Qed.

Lemma consecutive_skipn (n : nat) (l : list Z) :
  consecutive l -> consecutive (skipn n l).
Proof.
  revert l. induction n as [|n IH]; intros l H; [exact H|].
  destruct l as [|a t]; [exact I|]. cbn [skipn]. apply IH.
  eapply consecutive_tail; eauto.
Qed.

Lemma run_of_firstn (annotations : DataFrame) (n : nat) (l : list Z) :
  run_of annotations l -> run_of annotations (firstn n l).
Proof.
  intros (Hc & rec & Hr). split; [now apply consecutive_firstn|].
  exists rec. apply Forall_forall. intros id Hid. apply In_firstn in Hid.
  rewrite Forall_forall in Hr. auto.
Qed.

Lemma run_of_skipn (annotations : DataFrame) (n : nat) (l : list Z) :
  run_of annotations l -> run_of annotations (skipn n l).
Proof.
  intros (Hc & rec & Hr). split; [now apply consecutive_skipn|].
  exists rec. apply Forall_forall. intros id Hid. apply In_skipn in Hid.
  rewrite Forall_forall in Hr. auto.
Qed.

Lemma run_in_recording_iff (annotations : DataFrame) (seg : list Z) :
  run_in_recording annotations seg <-> seg <> [] /\ run_of annotations seg.
Proof. unfold run_in_recording. tauto. Qed.


Lemma initial_segs_good (annotations : DataFrame) (min_len_segment : Z) :
  1 <= min_len_segment ->
  Forall (fun l => l <> [] /\ run_of annotations l)
         (initial_segs annotations min_len_segment).
Proof.
  intro Hmin. apply Forall_forall. intros seg Hseg.
  unfold initial_segs in Hseg. apply in_flat_map in Hseg.
  destruct Hseg as (rec_idcs & Hrec & Hseg).
  apply in_map_iff in Hrec. destruct Hrec as (rec & <- & _).
  apply filter_In in Hseg. destruct Hseg as (Hseg & Hlen).
  apply Z.leb_le in Hlen.
  split; [intros ->; unfold len in Hlen; simpl in Hlen; lia|].
  rewrite split_at_discontinuity_runs in Hseg. split.
  - pose proof (runs_consecutive (index (with_recording rec annotations))) as Hc.
    rewrite Forall_forall in Hc. auto.
  - exists rec. apply Forall_forall. intros id Hid.
    assert (Hin : In id (index (with_recording rec annotations))).
    { rewrite <- (concat_runs (index (with_recording rec annotations))).
      apply in_concat. eauto. }
    unfold index in Hin. apply in_map_iff in Hin. destruct Hin as (b & Hb & Hin).
    unfold with_recording in Hin. apply filter_In in Hin.
    destruct Hin as (Hin & Hr). apply Z.eqb_eq in Hr. eauto.
Qed.

(** With valid length bounds [_pick_cont_segments_inner] always returns,
    and every segment it returns is a non-empty run of consecutive
    identifiers of rows of one recording. *)
Lemma pick_cont_segments_inner_ok
    (num_beats : Z) (annotations : DataFrame) (min_len_segment max_len_segment : Z)
    (w : world) :
  1 <= min_len_segment -> min_len_segment <= max_len_segment ->
  exists segs w',
    _pick_cont_segments_inner num_beats annotations min_len_segment max_len_segment w
    = Ok segs w'
    /\ Forall (run_in_recording annotations) segs.
Proof.
  intros Hmin Hmax. unfold _pick_cont_segments_inner.
  destruct (cont_segments_loop_ok (run_of annotations)
              (run_of_firstn annotations) (run_of_skipn annotations)
              min_len_segment max_len_segment Hmin Hmax
              (loop_budget (initial_segs annotations min_len_segment))
              num_beats (initial_segs annotations min_len_segment) [] w)
    as (segs & w' & E & Hall).
  - now apply initial_segs_good.
  - constructor.
  - unfold loop_budget. lia.
  - exists segs, w'. split; [exact E|].
    eapply Forall_impl; [|exact Hall]. intros seg. apply run_in_recording_iff.
Qed.

Lemma Forall_perm {A} (P : A -> Prop) (l l' : list A) :
  Permutation l l' -> Forall P l' -> Forall P l.
Proof.
  intros Hp H. apply Forall_forall. intros x Hx. rewrite Forall_forall in H.
  apply H. eapply Permutation_in; eauto.
Qed.


(** X4.  With [1 <= min_len_segment <= max_len_segment],
    [_pick_cont_segments] always returns: the loop of
    [_pick_cont_segments_inner] ends within its budget of rounds and no
    random draw it makes can fail. *)
Theorem pick_cont_segments_total
    (num_beats : Z) (annotations : DataFrame) (target_probs : target_probs_arg)
    (min_len_segment max_len_segment : Z) (w : world) :
  1 <= min_len_segment -> min_len_segment <= max_len_segment ->
  exists beats ids w',
    _pick_cont_segments num_beats annotations target_probs
      min_len_segment max_len_segment w = Ok (beats, ids) w'.
Proof.
  intros Hmin Hmax. unfold _pick_cont_segments.
  unfold bind at 1.
  assert (Hw : exists w1, when (match target_probs with ProbsNone => false | _ => true end)
                               (warn WarnProbsIgnored) w = Ok tt w1).
  { unfold when, warn, ret. destruct target_probs; eauto. }
  destruct Hw as (w1 & ->). unfold bind at 1.
  destruct (pick_cont_segments_inner_ok num_beats annotations
              min_len_segment max_len_segment w1 Hmin Hmax)
    as (segs1 & w3 & E & _).
  rewrite E. apply flatten_segments_total.
Qed.

Lemma pick_cont_segments_total_witness :
  let annotations :=
    [ mkBeat 0 0 10 0 0 false false false None None None;
      mkBeat 1 10 20 1 0 false false false None None None;
      mkBeat 2 20 30 0 0 false false false None None None ] in
  let w := mkWorld [] [] in
  (1 <= 1 /\ 1 <= 2)
  /\ exists beats ids w',
       _pick_cont_segments 5 annotations ProbsNone 1 2 w = Ok (beats, ids) w'.
Proof.
  intros annotations w. split; [lia|].
  apply (pick_cont_segments_total 5 annotations ProbsNone 1 2 w); lia.
Defined.



(** ** The density-constrained picker collects such runs too *)










(** ** From runs of identifiers to abutting sample ranges *)

Lemma loc_found (t : DataFrame) (b : Beat) :
  NoDup (index t) -> In b t -> loc t (beat_id b) = Some b.
Proof.
  unfold loc, index. induction t as [|a t IH]; intros Hnd Hin; [inversion Hin|].
  cbn [map] in Hnd. inversion Hnd as [|? ? Hnotin Hnd']; subst.
  cbn [find]. destruct (Z.eqb_spec (beat_id a) (beat_id b)) as [E|E].
  - destruct Hin as [->|Hin]; [reflexivity|].
    exfalso. apply Hnotin. rewrite E. now apply in_map.
  - destruct Hin as [->|Hin]; [congruence|]. now apply IH.
Qed.




Lemma segment_pickers_parallel_lists_witness :
  let annotations :=
    [ mkBeat 0 0 10 0 0 false false false None None None;
      mkBeat 1 10 20 1 0 false false false None None None;
      mkBeat 2 20 30 0 0 false false false None None None;
      mkBeat 4 40 50 0 0 false false false None None None;
      mkBeat 5 50 60 0 0 false false false None None None ] in
  let c := CallContSegments 3 annotations ProbsNone 1 2 in
  let w := mkWorld [1%nat; 0%nat; 0%nat; 0%nat] [] in
  run_picker c w = Ok ([0; 4; 5], [0; 1; 1]) (mkWorld [] [])
  /\ collect_segments c w = Ok [[4; 5]; [0]] (mkWorld [] [])
  /\ np_shuffle [[4; 5]; [0]] (mkWorld [] []) = Ok [[0]; [4; 5]] (mkWorld [] [])
  /\ exists collected_segments w1 segs,
       collect_segments c w = Ok collected_segments w1
       /\ np_shuffle collected_segments w1 = Ok segs (mkWorld [] [])
       /\ Permutation segs collected_segments
       /\ length segs = length collected_segments
       /\ parallel_lists segs [0; 4; 5] [0; 1; 1].
Proof.
  intros annotations c w.
  assert (Hrun : run_picker c w = Ok ([0; 4; 5], [0; 1; 1]) (mkWorld [] []))
    by reflexivity.
  split; [exact Hrun|]. split; [reflexivity|]. split; [reflexivity|].
  exact (segment_pickers_parallel_lists c w [0; 4; 5] [0; 1; 1] (mkWorld [] []) Hrun).
Defined.

(** C9 (counterexample to the claim as stated).  One beat is requested
    from a table with one beat of class 0 and one of class 1, segments
    matching in [target]: class 1 is allotted no beat and contributes an
    empty segment, so two segments are collected but the only segment id
    that is returned is 1; id 0 is missing. *)
Lemma category_segments_empty_segment_counterexample :
  let annotations :=
    [ mkBeat 0 0 10 0 0 false false false None None None;
      mkBeat 1 10 20 1 0 false false false None None None ] in
  let w := mkWorld [] [] in
  let w1 := mkWorld [] [WarnBelowMinimum 0 1] in
  _determine_beat_counts 1 annotations ProbsNone false w = Ok [(0, 1); (1, 0)] w
  /\ foldM (category_segments_target annotations 1 2) [(0, 1); (1, 0)] [] w
     = Ok [[0]; []] w1
  /\ _pick_category_segments 1 annotations ProbsNone [ColTarget] 1 2 w
     = Ok ([0], [1]) w1
  /\ ~ (forall i : Z, In i [1] <-> 0 <= i < len [[0]; []]).
Proof.
  intros annotations w w1.
  split; [reflexivity|]. split; [reflexivity|]. split; [reflexivity|].
  intro H. specialize (H 0). destruct H as [_ H].
  assert (Hin : In 0 [1]) by (apply H; unfold len; simpl; lia).
  destruct Hin as [Hin|[]]. discriminate.
Qed.

(** ** The label stream *)

(** C5 (evaluation at the failing input).  A class-1 beat of two samples
    followed by a normal beat of two samples, [extend = 1]: the base
    stream is [1, 1, 0, 0] and padding the anomaly forward by one sample
    would give [1, 1, 1, 0]; the loop however runs over the boolean mask
    itself, so it only ever writes at the positions 0 and 1, and the
    result is [0, 0, 0, 0]. *)
Theorem generate_target_extend_erases :
  let annotations :=
    [ mkBeat 0 0 2 1 0 false true false None None None;
      mkBeat 1 2 4 0 0 false false false None None None ] in
  forall w : world,
    generate_target annotations None None false w = Ok (Stream [1; 1; 0; 0]) w
    /\ generate_target annotations None (Some 1) false w
       = Ok (Stream [0; 0; 0; 0]) w.
Proof. intros annotations w. split; reflexivity. Qed.

(** ** Validation of the segment lengths *)

(** C8 (amended).  For an integer [num_beats], a call of [provide_data]
    with [min_len_segment < 1], [max_len_segment < 1] or
    [max_len_segment < min_len_segment] raises [ValueError] before
    anything is drawn, logged or written, whatever the other arguments
    are.  For [num_beats = None] the two lengths are not read at all. *)
Theorem provide_data_invalid_lengths
    (fuel : nat) (self : ECGRecordings) (include exclude : filters)
    (target_probs : target_probs_arg) (continuous_segments : bool)
    (min_anomal_per_seg : option Z) (match_segments : list column)
    (min_len_segment max_len_segment : Z) (remain_unused : bool) (w : world) :
  min_len_segment < 1 \/ max_len_segment < 1 \/ max_len_segment < min_len_segment ->
  (forall num_beats : Z,
     provide_data fuel self (Some num_beats) include exclude target_probs
       continuous_segments min_anomal_per_seg match_segments
       min_len_segment max_len_segment remain_unused w
     = Raise ValueError w)
  /\ (forall min_len' max_len' : Z,
        provide_data fuel self None include exclude target_probs
          continuous_segments min_anomal_per_seg match_segments
          min_len_segment max_len_segment remain_unused w
        = provide_data fuel self None include exclude target_probs
            continuous_segments min_anomal_per_seg match_segments
            min_len' max_len' remain_unused w).
Proof.
  intro H. split; [|reflexivity].
  intro num_beats. unfold provide_data, bind.
  destruct (Z.ltb_spec min_len_segment 1) as [H1|H1]; [reflexivity|].
  destruct (Z.ltb_spec max_len_segment 1) as [H2|H2]; [reflexivity|].
  cbn [orb].
  destruct (Z.ltb_spec max_len_segment min_len_segment) as [H3|H3]; [reflexivity|].
  lia.
Qed.

Lemma provide_data_invalid_lengths_witness :
  let self :=
    mkRecordings [mkBeat 0 0 2 0 0 false false false None None None]
                 [[1; 2]; [3; 4]] in
  let w := mkWorld [] [] in
  (0 < 1 \/ 3 < 1 \/ 3 < 0)
  /\ provide_data 0 self (Some 1) [] [(ColIsUsed, [1])] ProbsNone false None []
       0 3 false w
     = Raise ValueError w.
Proof.
  intros self w. split; [left; lia|].
  apply (provide_data_invalid_lengths 0 self [] [(ColIsUsed, [1])] ProbsNone
           false None [] 0 3 false w).
  left. lia.
Defined.

(** C8 (counterexample to the claim as stated).  With [num_beats = None]
    the call returns although [min_len_segment = 0]. *)
Lemma provide_data_none_skips_validation :
  ~ (forall (fuel : nat) (self : ECGRecordings) (num_beats : option Z)
            (include exclude : filters) (target_probs : target_probs_arg)
            (continuous_segments : bool) (min_anomal_per_seg : option Z)
            (match_segments : list column) (min_len_segment max_len_segment : Z)
            (remain_unused : bool) (w : world),
        min_len_segment < 1 \/ max_len_segment < 1
        \/ max_len_segment < min_len_segment ->
        exists w',
          provide_data fuel self num_beats include exclude target_probs
            continuous_segments min_anomal_per_seg match_segments
            min_len_segment max_len_segment remain_unused w
          = Raise ValueError w').
Proof.
  intro H.
  destruct (H 0%nat
              (mkRecordings [mkBeat 0 0 2 0 0 false false false None None None]
                            [[1; 2]; [3; 4]])
              None [] [(ColIsUsed, [1])] ProbsNone false None [] 0 0 true
              (mkWorld [] [])) as (w' & E); [left; lia|].
  vm_compute in E. discriminate.
Qed.

(** ** What [provide_data] writes to the repository *)

Lemma set_column_frame (set1 : Beat -> Z -> Beat) (vals : list Z) (t : DataFrame) :
  (forall b v, core_columns (set1 b v) = core_columns b
               /\ is_used (set1 b v) = is_used b) ->
  length t = length vals ->
  map core_columns (set_column set1 vals t) = map core_columns t
  /\ map is_used (set_column set1 vals t) = map is_used t
  /\ index (set_column set1 vals t) = index t.
Proof.
  intros Hset. unfold set_column, index. revert vals.
  induction t as [|b t IH]; intros [|v vals] Hlen; try discriminate;
    [repeat split|].
  cbn [combine map]. destruct (IH vals) as (H1 & H2 & H3); [simpl in Hlen; lia|].
  destruct (Hset b v) as (Hc & Hu).
  rewrite H1, H2, H3, Hc, Hu. repeat split.
  f_equal. unfold core_columns in Hc. congruence.
Qed.

Lemma frame_step_refl (self : ECGRecordings) (f : frame) : frame_step self f self f.
Proof. unfold frame_step. destruct f; repeat split; eauto. Qed.

Lemma frame_step_trans (s1 s2 s3 : ECGRecordings) (f1 f2 f3 : frame) :
  frame_step s1 f1 s2 f2 -> frame_step s2 f2 s3 f3 -> frame_step s1 f1 s3 f3.
Proof.
  unfold frame_step. intros (A1 & A2 & A3 & A4 & A5) (B1 & B2 & B3 & B4 & B5).
  repeat split; try congruence.
  destruct f1 as [|r1].
  - subst f2. exact B5.
  - destruct A5 as (-> & r2 & ->). destruct B5 as (-> & r3 & ->). eauto.
Qed.

Lemma assign_column_step (set1 : Beat -> Z -> Beat) (vals : list Z)
    (self : ECGRecordings) (f : frame) (self' : ECGRecordings) (f' : frame)
    (w w' : world) :
  (forall b v, core_columns (set1 b v) = core_columns b
               /\ is_used (set1 b v) = is_used b) ->
  assign_column set1 vals self f w = Ok (self', f') w' ->
  frame_step self f self' f' /\ w' = w.
Proof.
  intros Hset H. unfold assign_column in H.
  destruct (Nat.eqb_spec (length (deref self f)) (length vals)) as [Hlen|];
    [|discriminate].
  apply ret_Ok in H. destruct H as [H ->]. split; [|reflexivity].
  destruct (set_column_frame set1 vals (deref self f) Hset Hlen) as (H1 & H2 & H3).
  unfold frame_step. destruct f as [|rows]; cbn [update_frame deref] in *;
    injection H as -> ->; cbn [self_annotations self_ecg_data deref];
    repeat split; eauto.
Qed.

Lemma setters_keep_columns :
  (forall b v, core_columns (set_idx_start_new b v) = core_columns b
               /\ is_used (set_idx_start_new b v) = is_used b)
  /\ (forall b v, core_columns (set_idx_end_new b v) = core_columns b
                  /\ is_used (set_idx_end_new b v) = is_used b)
  /\ (forall b v, core_columns (set_segment_id b v) = core_columns b
                  /\ is_used (set_segment_id b v) = is_used b).
Proof. repeat split. Qed.

Lemma mark_used_frame (ids : list Z) (t : DataFrame) :
  map core_columns (mark_used ids t) = map core_columns t
  /\ map is_used (mark_used ids t)
     = map (fun b => is_used b || existsb (Z.eqb (beat_id b)) ids) t
  /\ index (mark_used ids t) = index t.
Proof.
  unfold mark_used, index. induction t as [|b t (H1 & H2 & H3)]; [repeat split|].
  cbn [map]. rewrite H1, H2, H3.
  destruct (existsb (Z.eqb (beat_id b)) ids); cbn [set_used is_used beat_id];
    rewrite ?orb_true_r, ?orb_false_r; repeat split.
Qed.

Lemma mark_used_idempotent (ids : list Z) (t : DataFrame) :
  mark_used ids (mark_used ids t) = mark_used ids t.
Proof.
  unfold mark_used. rewrite map_map. apply map_ext. intro b.
  destruct (existsb (Z.eqb (beat_id b)) ids) eqn:E.
  - cbn [set_used beat_id]. rewrite E. reflexivity.
  - rewrite E. reflexivity.
Qed.

Lemma filter_data_alias (self : ECGRecordings) (include exclude : filters) :
  _filter_data self include exclude = SelfTable -> include = [] /\ exclude = [].
Proof.
  unfold _filter_data. destruct include, exclude; try discriminate. auto.
Qed.

(** X27.  Whenever [provide_data] returns, the signal buffer and,
    in every row of the repository's table, the identifier, [idx_start],
    [idx_end], [target], [recording], [bad_signal] and [is_anomal] are as
    before.  With [remain_unused = True] every [is_used] flag is as before
    too; with [remain_unused = False] a row's flag is true afterwards
    exactly if it was true before or the row's identifier is among the
    returned beats.  Marking is idempotent.  And unless the call is made
    with [num_beats = None] and with both filters empty, the table
    afterwards is exactly the table before with the returned beats marked
    (nothing else is written). *)
Theorem provide_data_frame
    (fuel : nat) (self : ECGRecordings) (num_beats : option Z)
    (include exclude : filters) (target_probs : target_probs_arg)
    (continuous_segments : bool) (min_anomal_per_seg : option Z)
    (match_segments : list column) (min_len_segment max_len_segment : Z)
    (remain_unused : bool) (w : world)
    (self' : ECGRecordings) (selection : DataFrame) (signal : list Sample)
    (w' : world) :
  provide_data fuel self num_beats include exclude target_probs
    continuous_segments min_anomal_per_seg match_segments
    min_len_segment max_len_segment remain_unused w
  = Ok (self', (selection, signal)) w' ->
  self_ecg_data self' = self_ecg_data self
  /\ map core_columns (self_annotations self')
     = map core_columns (self_annotations self)
  /\ map is_used (self_annotations self')
     = (if remain_unused then map is_used (self_annotations self)
        else map (fun b => is_used b || existsb (Z.eqb (beat_id b)) (index selection))
                 (self_annotations self))
  /\ mark_used (index selection) (mark_used (index selection) (self_annotations self'))
     = mark_used (index selection) (self_annotations self')
  /\ (num_beats <> None \/ include <> [] \/ exclude <> [] ->
      self_annotations self'
      = if remain_unused then self_annotations self
        else mark_used (index selection) (self_annotations self)).
Proof.
  intro H. unfold provide_data in H.
  apply bind_Ok in H. destruct H as ([sel0 ids_segment] & w1 & Hsel & H).
  apply bind_Ok in H. destruct H as (sig & w2 & _ & H).
  apply bind_Ok in H. destruct H as ([self1 sel1] & w3 & Ha1 & H).
  apply bind_Ok in H. destruct H as ([self2 sel2] & w4 & Ha2 & H).
  apply bind_Ok in H. destruct H as ([self3 sel3] & w5 & Ha3 & H).
  apply ret_Ok in H. destruct H as [H _].
  destruct setters_keep_columns as (K1 & K2 & K3).
  apply assign_column_step in Ha1; [|exact K1]. destruct Ha1 as (S1 & _).
  apply assign_column_step in Ha2; [|exact K2]. destruct Ha2 as (S2 & _).
  assert (S3 : frame_step self2 sel2 self3 sel3).
  { destruct ids_segment as [ids|].
    - apply assign_column_step in Ha3; [|exact K3]. tauto.
    - apply ret_Ok in Ha3. destruct Ha3 as [[= -> ->] _]. apply frame_step_refl. }
  pose proof (frame_step_trans _ _ _ _ _ _ (frame_step_trans _ _ _ _ _ _ S1 S2) S3)
    as (E1 & E2 & E3 & E4 & E5).
  (* when the selection is not the repository's own table *)
  assert (Hfresh : num_beats <> None \/ include <> [] \/ exclude <> [] ->
                   exists rows, sel0 = Fresh rows).
  { intro Hna. destruct num_beats as [n|].
    - destruct ((min_len_segment <? 1) || (max_len_segment <? 1)); [discriminate|].
      destruct (max_len_segment <? min_len_segment); [discriminate|].
      apply bind_Ok in Hsel. destruct Hsel as ([bi ids] & wa & _ & Hsel).
      apply bind_Ok in Hsel. destruct Hsel as (rows & wb & _ & Hsel).
      apply ret_Ok in Hsel. destruct Hsel as [[= -> _] _]. eauto.
    - apply ret_Ok in Hsel. destruct Hsel as [[= -> _] _].
      destruct (_filter_data self include exclude) as [|rows] eqn:Ef; [|eauto].
      apply filter_data_alias in Ef. destruct Ef as [-> ->].
      destruct Hna as [Hna|[Hna|Hna]]; congruence. }
  split; [|split; [|split; [|split]]].
  - destruct remain_unused; injection H as -> _ _; cbn [self_ecg_data]; exact E1.
  - destruct remain_unused; injection H as -> _ _; cbn [self_annotations];
      [exact E2|].
    rewrite (proj1 (mark_used_frame _ _)). exact E2.
  - destruct remain_unused; injection H as -> -> _; cbn [self_annotations];
      [exact E3|].
    destruct (mark_used_frame (index (deref self3 sel3)) (self_annotations self3))
      as (_ & M2 & M3).
    rewrite M2.
    assert (Hidx : index (deref (mkRecordings
                     (mark_used (index (deref self3 sel3)) (self_annotations self3))
                     (self_ecg_data self3)) sel3) = index (deref self3 sel3)).
    { destruct sel3; cbn [deref self_annotations]; [exact M3|reflexivity]. }
    rewrite Hidx.
    clear - E2 E3. revert E2 E3.
    generalize (index (deref self3 sel3)) as ids.
    generalize (self_annotations self) as t.
    generalize (self_annotations self3) as t3.
    induction t3 as [|b3 t3 IH]; intros [|b t] ids E2 E3; try discriminate;
      [reflexivity|].
    cbn [map] in *. unfold core_columns at 1 3 in E2.
    injection E2 as Hid _ _ _ _ _ _ E2. injection E3 as Hu E3.
    rewrite (IH t ids E2 E3), Hu, Hid. reflexivity.
  - apply mark_used_idempotent.
  - intro Hna. destruct (Hfresh Hna) as (rows & ->).
    destruct E5 as (-> & rows3 & ->).
    destruct remain_unused; injection H as -> -> _; cbn [self_annotations deref];
      reflexivity.
Qed.

Lemma provide_data_frame_witness :
  let self :=
    mkRecordings
      [ mkBeat 0 0 2 0 0 false false false None None None;
        mkBeat 1 2 4 1 0 false true false None None None;
        mkBeat 2 4 6 0 0 false false false None None None ]
      [[0; 10]; [1; 11]; [2; 12]; [3; 13]; [4; 14]; [5; 15]] in
  exists self' selection signal w',
    provide_data 0 self (Some 2) [] [(ColIsUsed, [1])] (ProbsDict [(1, 1%Q)])
      false None [] 1 1 false (mkWorld [] [])
    = Ok (self', (selection, signal)) w'
    /\ index selection = [1]
    /\ signal = [[2; 12]; [3; 13]]
    /\ map is_used (self_annotations self') = [false; true; false]
    /\ self_annotations self' = mark_used (index selection) (self_annotations self).
Proof.
  intro self.
  eexists. eexists. eexists. eexists.
  split; [vm_compute; reflexivity|].
  split; [reflexivity|]. split; [reflexivity|]. split; [reflexivity|].
  eapply (provide_data_frame 0 self (Some 2) [] [(ColIsUsed, [1])]
            (ProbsDict [(1, 1%Q)]) false None [] 1 1 false (mkWorld [] [])).
  - vm_compute. reflexivity.
  - left. discriminate.
Defined.

(** C6 (evaluation at the failing input).  A repository with one beat,
    [remain_unused = False].  Called with [num_beats = None] and with both
    filters empty, [provide_data] works on the repository's own table
    ([_filter_data] returns [self.annotations] itself, and [selection] is
    that object): besides marking the beat it writes the columns
    [idx_start_new] and [idx_end_new], meant for the returned selection,
    into the repository, so more than [is_used] has changed there.  The
    same call with the default filter [exclude = {"is_used": True}] works
    on a table of its own: the selection gets the columns, and the
    repository's table is the table before with the returned beat
    marked. *)
Theorem provide_data_alias_writes_columns :
  let self :=
    mkRecordings [mkBeat 0 0 2 0 0 false false false None None None]
                 [[0; 10]; [1; 11]] in
  (exists self' selection signal w',
     provide_data 0 self None [] [] ProbsNone false None [] 1 1 false
       (mkWorld [] [])
     = Ok (self', (selection, signal)) w'
     /\ map idx_start_new (self_annotations self) = [None]
     /\ map idx_end_new (self_annotations self) = [None]
     /\ map idx_start_new (self_annotations self') = [Some 0]
     /\ map idx_end_new (self_annotations self') = [Some 2]
     /\ self_annotations self'
        <> mark_used (index selection) (self_annotations self))
  /\ (exists self' selection signal w',
        provide_data 0 self None [] [(ColIsUsed, [1])] ProbsNone false None []
          1 1 false (mkWorld [] [])
        = Ok (self', (selection, signal)) w'
        /\ map idx_start_new selection = [Some 0]
        /\ map idx_end_new selection = [Some 2]
        /\ map idx_start_new (self_annotations self') = [None]
        /\ map idx_end_new (self_annotations self') = [None]
        /\ self_annotations self'
           = mark_used (index selection) (self_annotations self)).
Proof.
  intro self. split.
  - eexists. eexists. eexists. eexists.
    split; [vm_compute; reflexivity|].
    repeat (split; [reflexivity|]).
    discriminate.
  - eexists. eexists. eexists. eexists.
    split; [vm_compute; reflexivity|].
    repeat (split; [reflexivity|]).
    reflexivity.
Qed.

(** ** Plain draws

    C4 (evaluation at the failing input).  A repository with one beat
    (identifier 7), two beats requested, [target_probs] [None], no
    segmentation: whatever the random source yields, [_pick_beats] returns
    that beat twice, and so does [provide_data]. *)
Theorem pick_beats_none_repeats :
  let beat := mkBeat 7 0 2 0 0 false false false None None None in
  let self := mkRecordings [beat] [[0; 10]; [1; 11]] in
  forall w : world,
  exists w',
    _pick_beats 2 [beat] ProbsNone w = Ok [7; 7] w'
    /\ ~ NoDup [7; 7]
    /\ exists self' selection signal,
         provide_data 0 self (Some 2) [] [(ColIsUsed, [1])] ProbsNone
           false None [] 1 1 false w
         = Ok (self', (selection, signal)) w'
         /\ index selection = [7; 7].
Proof.
  intros beat self w.
  assert (Hdup : ~ NoDup [7; 7]).
  { intro H. inversion H as [|? ? Hn _]; subst. apply Hn. now left. }
  destruct w as [[|r1 [|r2 t]] ws]; eexists;
    (split; [reflexivity|]); (split; [exact Hdup|]);
    eexists; eexists; eexists; (split; [vm_compute; reflexivity|reflexivity]).
Qed.

Lemma same_id_same_row (t : DataFrame) (b1 b2 : Beat) :
  NoDup (index t) -> In b1 t -> In b2 t -> beat_id b1 = beat_id b2 -> b1 = b2.
Proof.
  intros Hnd H1 H2 E.
  pose proof (loc_found t b1 Hnd H1) as L1.
  pose proof (loc_found t b2 Hnd H2) as L2.
  rewrite E in L1. congruence.
Qed.

Lemma NoDup_index_filter (f : Beat -> bool) (t : DataFrame) :
  NoDup (index t) -> NoDup (index (filter f t)).
Proof.
  unfold index. induction t as [|b t IH]; intro H; [constructor|].
  cbn [map] in H. inversion H as [|? ? Hn Hnd]; subst.
  cbn [filter]. destruct (f b); [|now apply IH].
  cbn [map]. constructor; [|now apply IH].
  intro Hin. apply Hn. apply in_map_iff in Hin. destruct Hin as (x & Hx & Hin).
  apply filter_In in Hin. apply in_map_iff. exists x. tauto.
Qed.

Lemma NoDup_firstn {A} (n : nat) (l : list A) : NoDup l -> NoDup (firstn n l).
Proof.
  intro H. rewrite <- (firstn_skipn n l) in H. eapply NoDup_app_remove_r. exact H.
Qed.

Lemma np_choice_noreplace_result {A} (a : list A) (size : Z) (w : world) :
  (exists p w', np_choice_noreplace a size w = Ok (firstn (Z.to_nat size) p) w'
                /\ Permutation p a)
  \/ np_choice_noreplace a size w = Raise ValueError w.
Proof.
  unfold np_choice_noreplace.
  destruct ((len a =? 0) && negb (size =? 0)); [now right|].
  destruct (len a <? size); [now right|].
  destruct (size <? 0); [now right|].
  left. destruct (np_shuffle_perm a w) as (p & w' & E & Hp & _).
  exists p, w'. unfold bind. rewrite E. split; [reflexivity|exact Hp].
Qed.

Lemma pick_target_beats_distinct
    (tgt num_beats : Z) (annotations : DataFrame) (w : world)
    (beats : list Z) (w' : world) :
  NoDup (index annotations) ->
  _pick_target_beats tgt num_beats annotations w = Ok beats w' ->
  NoDup beats
  /\ Forall (fun id => In id (index (with_target tgt annotations))) beats.
Proof.
  intros Hnd H. unfold _pick_target_beats, except_ValueError in H.
  pose proof (NoDup_index_filter (fun b => target b =? tgt) annotations Hnd) as Hndf.
  fold (with_target tgt annotations) in Hndf.
  destruct (np_choice_noreplace_result (index (with_target tgt annotations))
              num_beats w) as [(p & w1 & E & Hp)|E]; rewrite E in H.
  - injection H as <- _.
    assert (NoDup p) by (eapply Permutation_NoDup; [symmetry; exact Hp|exact Hndf]).
    split; [now apply NoDup_firstn|].
    apply Forall_forall. intros id Hid. apply In_firstn in Hid.
    eapply Permutation_in; eauto.
  - destruct (len (index (with_target tgt annotations)) <? num_beats);
      [|discriminate].
    unfold bind, warn, ret in H. injection H as <- _.
    split; [exact Hndf|]. apply Forall_forall. auto.
Qed.

Lemma mapM_keys (norm : Q) (d : dict Q) (w : world) (probs : dict Q) (w' : world) :
  mapM (fun '(tgt, p) =>
          if Qeq_bool norm 0 then raise ZeroDivisionError
          else ret (tgt, (p / norm)%Q)) d w = Ok probs w' ->
  keys probs = keys d.
Proof.
  revert probs w w'. induction d as [|[k v] d IH]; intros probs w w' H.
  - apply ret_Ok in H. destruct H as [-> _]. reflexivity.
  - cbn [mapM] in H. apply bind_Ok in H. destruct H as ([k1 v1] & w1 & H1 & H).
    apply bind_Ok in H. destruct H as (rest & w2 & H2 & H).
    apply ret_Ok in H. destruct H as [-> _].
    destruct (Qeq_bool norm 0); [discriminate|].
    apply ret_Ok in H1. destruct H1 as [[= -> ->] _].
    rewrite !keys_cons. f_equal. eapply IH; eauto.
Qed.

Lemma determine_beat_counts_keys
    (num_beats : Z) (annotations : DataFrame) (target_probs : target_probs_arg)
    (w : world) (beat_counts : dict Z) (w' : world) :
  target_probs = ProbsUniform
  \/ (exists d, target_probs = ProbsDict d /\ NoDup (keys d)) ->
  _determine_beat_counts num_beats annotations target_probs false w
  = Ok beat_counts w' ->
  NoDup (keys beat_counts).
Proof.
  intros Htp H. unfold _determine_beat_counts, np_unique_counts in H.
  apply bind_Ok in H. destruct H as (bc0 & w1 & H0 & H).
  apply bind_Ok in H. destruct H as (bc1 & w2 & H1 & H).
  apply ret_Ok in H. destruct H as [-> _].
  assert (K0 : NoDup (keys bc0)).
  { destruct Htp as [->|(d & -> & Hd)].
    - destruct (len (np_unique (map target annotations)) =? 0); [discriminate|].
      apply ret_Ok in H0. destruct H0 as [-> _].
      unfold keys. rewrite map_map. cbn [fst]. rewrite map_id. apply np_unique_NoDup.
    - apply bind_Ok in H0. destruct H0 as (probs & w0 & Hm & H0).
      apply ret_Ok in H0. destruct H0 as [-> _].
      apply mapM_keys in Hm.
      assert (Hk : keys (map (fun '(tgt, p) =>
                                (tgt, np_round (p * inject_Z num_beats))) probs)
                   = keys probs).
      { unfold keys. rewrite map_map. apply map_ext. intros [k v]. reflexivity. }
      rewrite Hk, Hm. exact Hd. }
  assert (K1 : keys bc1 = keys bc0); [|rewrite K1; exact K0].
  destruct (dict_get bc0 0) as [v|] eqn:Eg.
  - apply ret_Ok in H1. destruct H1 as [-> _].
    apply (dict_set_existing bc0 0 v _ Eg).
  - apply bind_Ok in H1. destruct H1 as (tgts & w3 & _ & H1).
    revert H1. apply foldM_invariant with (I := fun d => keys d = keys bc0);
      [|reflexivity].
    intros d t wa d' wb Hd _ Hstep. unfold dict_add in Hstep.
    destruct (dict_get d t) as [v|] eqn:E; [|discriminate].
    apply ret_Ok in Hstep. destruct Hstep as [-> _].
    rewrite <- Hd. apply (dict_set_existing d t v _ E).
Qed.

Lemma collect_target_beats_distinct (annotations : DataFrame) :
  NoDup (index annotations) ->
  forall (beat_counts : dict Z) (collected : list Z) (w : world)
         (beats : list Z) (w' : world),
    NoDup (keys beat_counts) ->
    NoDup collected ->
    (forall id, In id collected ->
       exists b, In b annotations /\ beat_id b = id
                 /\ ~ In (target b) (keys beat_counts)) ->
    foldM (collect_target_beats annotations) beat_counts collected w
    = Ok beats w' ->
    NoDup beats.
Proof.
  intros Hnd. induction beat_counts as [|[tgt n] rest IH];
    intros collected w beats w' Hk Hc Hold H.
  - apply ret_Ok in H. destruct H as [-> _]. exact Hc.
  - cbn [foldM] in H. apply bind_Ok in H. destruct H as (acc & w1 & Hstep & H).
    unfold collect_target_beats in Hstep.
    apply bind_Ok in Hstep. destruct Hstep as (picked & w2 & Hp & Hr).
    apply ret_Ok in Hr. destruct Hr as [-> _].
    apply pick_target_beats_distinct in Hp; [|exact Hnd].
    destruct Hp as (Hpn & Hpin). rewrite Forall_forall in Hpin.
    rewrite keys_cons in Hk. inversion Hk as [|? ? Hnotin Hk']; subst.
    assert (Hrow : forall id, In id picked ->
              exists b, In b annotations /\ beat_id b = id /\ target b = tgt).
    { intros id Hid. specialize (Hpin id Hid). unfold index in Hpin.
      apply in_map_iff in Hpin. destruct Hpin as (b & Hb & Hin).
      unfold with_target in Hin. apply filter_In in Hin.
      destruct Hin as (Hin & Ht). apply Z.eqb_eq in Ht. eauto. }
    eapply IH; [exact Hk'| | |exact H].
    + apply NoDup_app; [exact Hc|exact Hpn|].
      intros id H1 H2. destruct (Hold id H1) as (b1 & Hb1 & Hid1 & Hn1).
      destruct (Hrow id H2) as (b2 & Hb2 & Hid2 & Ht2).
      assert (b1 = b2) by (eapply same_id_same_row; eauto; congruence).
      subst b2. apply Hn1. rewrite keys_cons, Ht2. now left.
    + intros id Hid. apply in_app_or in Hid. destruct Hid as [Hid|Hid].
      * destruct (Hold id Hid) as (b & Hb & Hidb & Hn). exists b.
        repeat split; try assumption. intro Hin. apply Hn.
        rewrite keys_cons. now right.
      * destruct (Hrow id Hid) as (b & Hb & Hidb & Ht). exists b.
        repeat split; try assumption. congruence.
Qed.

(** X3.  In a table with unique identifiers, and with [target_probs]
    ["uniform"] or a mapping, whatever [_pick_beats] returns holds no beat
    twice. *)
Theorem pick_beats_distinct
    (num_beats : Z) (annotations : DataFrame) (target_probs : target_probs_arg)
    (w : world) (beats : list Z) (w' : world) :
  NoDup (index annotations) ->
  target_probs = ProbsUniform
  \/ (exists d, target_probs = ProbsDict d /\ NoDup (keys d)) ->
  _pick_beats num_beats annotations target_probs w = Ok beats w' ->
  NoDup beats.
Proof.
  intros Hnd Htp H.
  assert (H' : (beat_counts <- _determine_beat_counts num_beats annotations
                                 target_probs false ;;
                collected_beats <- foldM (collect_target_beats annotations)
                                     beat_counts [] ;;
                np_shuffle collected_beats) w = Ok beats w').
  { destruct Htp as [->|(d & -> & _)]; exact H. }
  clear H. apply bind_Ok in H'. destruct H' as (bc & w1 & Hbc & H).
  apply bind_Ok in H. destruct H as (collected & w2 & Hcol & Hsh).
  apply determine_beat_counts_keys in Hbc; [|exact Htp].
  apply collect_target_beats_distinct in Hcol; try assumption;
    [|constructor|intros id []].
  destruct (np_shuffle_perm collected w2) as (y & w3 & E & Hp & _).
  rewrite E in Hsh. injection Hsh as <- _.
  eapply Permutation_NoDup; [symmetry; exact Hp|exact Hcol].
Qed.

Lemma pick_beats_distinct_witness :
  let annotations :=
    [ mkBeat 0 0 10 0 0 false false false None None None;
      mkBeat 1 10 20 1 0 false false false None None None;
      mkBeat 2 20 30 0 0 false false false None None None ] in
  let w := mkWorld [1%nat; 1%nat] [] in
  _pick_beats 2 annotations ProbsUniform w = Ok [0; 1] (mkWorld [] [])
  /\ NoDup [0; 1].
Proof.
  intros annotations w.
  assert (Hrun : _pick_beats 2 annotations ProbsUniform w
                 = Ok [0; 1] (mkWorld [] [])) by reflexivity.
  split; [exact Hrun|].
  apply (pick_beats_distinct 2 annotations ProbsUniform w [0; 1] (mkWorld [] []));
    [|left; reflexivity|exact Hrun].
  repeat constructor; simpl; intuition discriminate.
Defined.

(** ** Continuous-segment mode, seen from [provide_data] *)

Lemma filter_loc (t : DataFrame) (id : Z) :
  NoDup (index t) ->
  filter (fun b => beat_id b =? id) t
  = match loc t id with Some b => [b] | None => [] end.
Proof.
  unfold loc, index. induction t as [|a t IH]; intro Hnd; [reflexivity|].
  cbn [map] in Hnd. inversion Hnd as [|? ? Hn Hnd']; subst.
  cbn [filter find]. destruct (Z.eqb_spec (beat_id a) id) as [E|E].
  - f_equal. rewrite IH by assumption.
    destruct (find (fun b => beat_id b =? id) t) as [b|] eqn:Ef; [|reflexivity].
    apply find_some in Ef. destruct Ef as (Hin & Hb). apply Z.eqb_eq in Hb.
    exfalso. apply Hn. rewrite E, <- Hb. now apply in_map.
  - now apply IH.
Qed.




Lemma core_columns_facts (a b : DataFrame) :
  map core_columns a = map core_columns b ->
  index a = index b
  /\ (abutting b -> abutting a)
  /\ (forall rec, Forall (fun r => recording r = rec) b ->
                  Forall (fun r => recording r = rec) a).
Proof.
  unfold index. revert b. induction a as [|x a IH]; intros [|y b] H;
    try discriminate; [repeat split; auto|].
  cbn [map] in H. injection H as Hid Hs He _ Hr _ _ H.
  destruct (IH b H) as (I1 & I2 & I3). split; [|split].
  - cbn [map]. rewrite Hid, I1. reflexivity.
  - destruct a as [|x2 a'], b as [|y2 b']; try discriminate; [intros; exact I|].
    cbn [map] in H. injection H as _ Hs2 _ _ _ _ _ _.
    intros [Hab Hrest]. split; [congruence|]. apply I2. exact Hrest.
  - intros rec Hall. inversion Hall; subst. constructor; [congruence|auto].
Qed.







(** ** Further properties of [provide_data] *)

Lemma assign_column_deref (set1 : Beat -> Z -> Beat) (vals : list Z)
    (self : ECGRecordings) (f : frame) (self' : ECGRecordings) (f' : frame)
    (w w' : world) :
  assign_column set1 vals self f w = Ok (self', f') w' ->
  length (deref self f) = length vals
  /\ deref self' f' = set_column set1 vals (deref self f)
  /\ self_ecg_data self' = self_ecg_data self
  /\ w' = w
  /\ ((f = SelfTable /\ f' = SelfTable)
      \/ (exists rows rows', f = Fresh rows /\ f' = Fresh rows' /\ self' = self)).
Proof.
  intro H. unfold assign_column in H.
  destruct (Nat.eqb_spec (length (deref self f)) (length vals)) as [Hlen|];
    [|discriminate].
  apply ret_Ok in H. destruct H as [H ->]. split; [exact Hlen|].
  destruct f as [|rows]; cbn [update_frame deref] in *;
    injection H as -> ->; cbn [self_annotations self_ecg_data deref].
  - split; [reflexivity|]. split; [reflexivity|]. split; [reflexivity|].
    left. split; reflexivity.
  - split; [reflexivity|]. split; [reflexivity|]. split; [reflexivity|].
    right. eauto.
Qed.

Lemma offsets_rows_nonempty {A} (f : A -> Z) (t : list A) :
  length t = length (np_cumsum (0 :: removelast (map f t))) -> t <> [].
Proof. intros H ->. discriminate. Qed.

(** What a successful call of [provide_data] has done: it has drawn the
    rows [t0] from the filtered table, read their samples, written the new
    columns and marked the beats. *)
Lemma provide_data_shape
    (fuel : nat) (self : ECGRecordings) (num_beats : option Z)
    (include exclude : filters) (target_probs : target_probs_arg)
    (continuous_segments : bool) (min_anomal_per_seg : option Z)
    (match_segments : list column) (min_len_segment max_len_segment : Z)
    (remain_unused : bool) (w : world)
    (self' : ECGRecordings) (selection : DataFrame) (signal : list Sample)
    (w' : world) :
  provide_data fuel self num_beats include exclude target_probs
    continuous_segments min_anomal_per_seg match_segments
    min_len_segment max_len_segment remain_unused w
  = Ok (self', (selection, signal)) w' ->
  exists (t0 : DataFrame) (ids_segment : option (list Z)) (w1 w2 : world)
         (aliased : bool),
    incl t0 (deref self (_filter_data self include exclude))
    /\ match num_beats with
       | None => t0 = deref self (_filter_data self include exclude)
                 /\ ids_segment = None
       | Some n =>
           aliased = false
           /\ exists beat_indices wa,
               dispatch fuel n (deref self (_filter_data self include exclude))
                 target_probs continuous_segments min_anomal_per_seg
                 match_segments min_len_segment max_len_segment w
               = Ok (beat_indices, ids_segment) wa
               /\ loc_rows (deref self (_filter_data self include exclude))
                    beat_indices wa = Ok t0 w1
       end
    /\ generate_signal self t0 w1 = Ok signal w2
    /\ t0 <> []
    /\ (forall ids, ids_segment = Some ids -> length ids = length t0)
    /\ selection
       = (if aliased && negb remain_unused
          then mark_used (index (with_new_columns ids_segment t0))
                 (with_new_columns ids_segment t0)
          else with_new_columns ids_segment t0)
    /\ self_annotations self'
       = (if aliased then selection
          else if remain_unused then self_annotations self
               else mark_used (index selection) (self_annotations self)).
Proof.
  intro H. unfold provide_data in H.
  apply bind_Ok in H. destruct H as ([sel0 ids_segment] & w1 & Hsel & H).
  apply bind_Ok in H. destruct H as (sig & w2 & Hsig & H).
  apply bind_Ok in H. destruct H as ([self1 sel1] & w3 & Ha1 & H).
  apply bind_Ok in H. destruct H as ([self2 sel2] & w4 & Ha2 & H).
  apply bind_Ok in H. destruct H as ([self3 sel3] & w5 & Ha3 & H).
  apply ret_Ok in H. destruct H as [H _].
  apply assign_column_deref in Ha1. destruct Ha1 as (L1 & D1 & _ & _ & F1).
  apply assign_column_deref in Ha2. destruct Ha2 as (L2 & D2 & _ & _ & F2).
  set (t0 := deref self sel0) in *.
  assert (D3 : deref self3 sel3 = with_new_columns ids_segment t0
               /\ (forall ids, ids_segment = Some ids -> length ids = length t0)
               /\ ((sel2 = SelfTable /\ sel3 = SelfTable)
                   \/ (exists rows rows',
                          sel2 = Fresh rows /\ sel3 = Fresh rows' /\ self3 = self2))).
  { unfold with_new_columns. destruct ids_segment as [ids|].
    - apply assign_column_deref in Ha3. destruct Ha3 as (L3 & D3 & _ & _ & F3).
      rewrite D3, D2, D1. split; [reflexivity|]. split; [|exact F3].
      intros ids' [= <-]. rewrite <- L3, D2, D1.
      unfold set_column. rewrite !length_map, !length_combine, <- L2, D1.
      unfold set_column. rewrite !length_map, !length_combine, <- L1.
      rewrite !Nat.min_id. reflexivity.
    - apply ret_Ok in Ha3. destruct Ha3 as [[= -> ->] _].
      rewrite D2, D1. split; [reflexivity|]. split; [discriminate|].
      destruct sel2 as [|rows2]; [left; auto|right; eauto]. }
  destruct D3 as (D3 & Lids & F3).
  assert (Hlen : t0 <> []).
  { eapply offsets_rows_nonempty. exact L1. }
  assert (Hincl : incl t0 (deref self (_filter_data self include exclude))
                  /\ match num_beats with
       | None => t0 = deref self (_filter_data self include exclude)
                 /\ ids_segment = None /\ sel0 = _filter_data self include exclude
       | Some n =>
           (exists rows, sel0 = Fresh rows)
           /\ exists beat_indices wa,
               dispatch fuel n (deref self (_filter_data self include exclude))
                 target_probs continuous_segments min_anomal_per_seg
                 match_segments min_len_segment max_len_segment w
               = Ok (beat_indices, ids_segment) wa
               /\ loc_rows (deref self (_filter_data self include exclude))
                    beat_indices wa = Ok t0 w1
       end).
  { destruct num_beats as [n|].
    - destruct ((min_len_segment <? 1) || (max_len_segment <? 1)); [discriminate|].
      destruct (max_len_segment <? min_len_segment); [discriminate|].
      apply bind_Ok in Hsel. destruct Hsel as ([bi ids] & wa & Hd & Hsel).
      apply bind_Ok in Hsel. destruct Hsel as (rows & wb & Hl & Hsel).
      apply ret_Ok in Hsel. destruct Hsel as [[= -> ->] ->].
      subst t0. cbn [deref] in *. split.
      + intros b Hb. unfold loc_rows in Hl.
        apply bind_Ok in Hl. destruct Hl as (found & wc & Hm & Hl).
        apply ret_Ok in Hl. destruct Hl as [-> _].
        apply in_concat in Hb. destruct Hb as (piece & Hp & Hb).
        clear - Hm Hp Hb. revert found wa wc Hm Hp.
        induction bi as [|i bi IH]; intros found wa wc Hm Hp.
        * apply ret_Ok in Hm. destruct Hm as [-> _]. destruct Hp.
        * cbn [mapM] in Hm.
          apply bind_Ok in Hm. destruct Hm as (r & wd & Hr & Hm).
          apply bind_Ok in Hm. destruct Hm as (rs & we & Hrs & Hm).
          apply ret_Ok in Hm. destruct Hm as [-> _].
          destruct Hp as [<-|Hp]; [|eapply IH; eassumption].
          destruct (filter _ _) as [|x xs] eqn:E in Hr; [discriminate|].
          apply ret_Ok in Hr. destruct Hr as [-> _].
          rewrite <- E in Hb. apply filter_In in Hb. tauto.
      + split; [eauto|]. exists bi, wa. split; assumption.
    - apply ret_Ok in Hsel. destruct Hsel as [[= -> ->] ->].
      split; [apply incl_refl|]. split; [reflexivity|]. split; reflexivity. }
  destruct Hincl as (Hincl & Hnb).
  assert (Es : signal = sig) by (injection H as _ _ ->; reflexivity).
  subst sig.
  exists t0, ids_segment, w1, w2,
    (match sel0 with SelfTable => true | Fresh _ => false end).
  split; [exact Hincl|]. split.
  { destruct num_beats as [n|].
    - destruct Hnb as ((rows & ->) & Hnb). split; [reflexivity|exact Hnb].
    - destruct Hnb as (? & ? & _). split; assumption. }
  split; [exact Hsig|]. split; [exact Hlen|]. split; [exact Lids|].
  destruct F1 as [[E0 E1]|(r0 & r1 & E0 & E1 & S1)];
    destruct F2 as [[E1' E2]|(r1' & r2 & E1' & E2 & S2)];
    destruct F3 as [[E2' E3]|(r2' & r3 & E2' & E3 & S3)];
    try congruence; subst sel0 sel1 sel2 sel3; try discriminate.
  - cbn [deref] in *. cbn [andb].
    destruct remain_unused; cbn [negb] in *; injection H as -> ->;
      cbn [deref self_annotations]; rewrite ?D3; split; reflexivity.
  - cbn [deref] in *. cbn [andb]. subst self3 self2 self1.
    destruct remain_unused; cbn [negb] in *; injection H as -> ->;
      cbn [deref self_annotations]; rewrite <- ?D3; split; reflexivity.
Qed.

Lemma set_column_map {C} (g : Beat -> C) (set1 : Beat -> Z -> Beat)
    (vals : list Z) (t : DataFrame) :
  (forall b v, g (set1 b v) = g b) ->
  length t = length vals ->
  map g (set_column set1 vals t) = map g t.
Proof.
  intros Hset. unfold set_column. revert vals.
  induction t as [|b t IH]; intros [|v vals] Hlen; try discriminate;
    [reflexivity|].
  cbn [combine map]. rewrite Hset, IH; [reflexivity|]. simpl in Hlen. lia.
Qed.

Lemma set_column_length (set1 : Beat -> Z -> Beat) (vals : list Z) (t : DataFrame) :
  length t = length vals -> length (set_column set1 vals t) = length t.
Proof.
  intro H. unfold set_column. rewrite length_map, length_combine, <- H.
  apply Nat.min_id.
Qed.

Lemma mark_used_map {C} (g : Beat -> C) (ids : list Z) (t : DataFrame) :
  (forall b, g (set_used b) = g b) -> map g (mark_used ids t) = map g t.
Proof.
  intro Hg. unfold mark_used. rewrite map_map. apply map_ext. intro b.
  destruct (existsb _ _); [apply Hg|reflexivity].
Qed.

Lemma mark_used_In (ids : list Z) (t : DataFrame) (b : Beat) :
  In b (mark_used ids t) -> In (beat_id b) ids -> is_used b = true.
Proof.
  unfold mark_used. intros H Hid. apply in_map_iff in H.
  destruct H as (b0 & E & _).
  destruct (existsb (Z.eqb (beat_id b0)) ids) eqn:Ex.
  - subst b. reflexivity.
  - subst b0. exfalso.
    assert (Ht : existsb (Z.eqb (beat_id b)) ids = true).
    { apply existsb_exists. exists (beat_id b). split; [exact Hid|apply Z.eqb_refl]. }
    congruence.
Qed.

Lemma offsets_from_ext (t t' : DataFrame) (pos : Z) :
  map positions t = map positions t' -> offsets_from pos t -> offsets_from pos t'.
Proof.
  revert t' pos. induction t as [|b t IH]; intros [|b' t'] pos E H;
    try discriminate; [exact I|].
  cbn [map] in E. unfold positions at 1 3 in E. injection E as E1 E2 E3 E4 Et.
  cbn [offsets_from] in *. rewrite <- E1, <- E2, <- E3, <- E4.
  destruct H as (H1 & H2 & H3). split; [exact H1|]. split; [exact H2|].
  apply (IH t' _ Et H3).
Qed.

Lemma offsets_cumsum (t : DataFrame) (pos : Z) :
  t <> [] ->
  let beat_sizes := map (fun b => idx_end b - idx_start b) t in
  offsets_from pos
    (set_column set_idx_end_new (np_cumsum_from pos beat_sizes)
       (set_column set_idx_start_new
          (np_cumsum_from pos (0 :: removelast beat_sizes)) t)).
Proof.
  revert pos. induction t as [|b t IH]; intros pos Hne; [congruence|].
  destruct t as [|b' t'].
  - cbn. split; [f_equal; lia|]. split; [reflexivity|exact I].
  - specialize (IH (pos + (idx_end b - idx_start b))).
    cbv zeta in IH. cbv zeta.
    change (map (fun b => idx_end b - idx_start b) (b :: b' :: t'))
      with ((idx_end b - idx_start b)
              :: map (fun b => idx_end b - idx_start b) (b' :: t')).
    set (rest := map (fun b => idx_end b - idx_start b) (b' :: t')) in *.
    assert (Er : removelast ((idx_end b - idx_start b) :: rest)
                 = (idx_end b - idx_start b) :: removelast rest)
      by reflexivity.
    rewrite Er. cbn [np_cumsum_from] in *.
    rewrite Z.add_0_r in *. unfold set_column in *. cbn [combine map].
    cbn [offsets_from set_idx_end_new set_idx_start_new idx_start_new
           idx_end_new idx_start idx_end].
    split; [reflexivity|]. split; [reflexivity|].
    apply IH. discriminate.
Qed.

Lemma with_new_columns_facts (ids_segment : option (list Z)) (t0 : DataFrame) :
  t0 <> [] ->
  (forall ids, ids_segment = Some ids -> length ids = length t0) ->
  map core_columns (with_new_columns ids_segment t0) = map core_columns t0
  /\ map is_used (with_new_columns ids_segment t0) = map is_used t0
  /\ offsets_from 0 (with_new_columns ids_segment t0).
Proof.
  intros Hne Hids. unfold with_new_columns.
  set (beat_sizes := map (fun b => idx_end b - idx_start b) t0).
  assert (L1 : length t0 = length (np_cumsum (0 :: removelast beat_sizes))).
  { unfold np_cumsum. rewrite length_cumsum. cbn [length]. subst beat_sizes.
    rewrite removelast_firstn_len, length_firstn, length_map.
    destruct t0; [congruence|]. cbn [length]. lia. }
  set (t1 := set_column set_idx_start_new (np_cumsum (0 :: removelast beat_sizes)) t0).
  assert (Lt1 : length t1 = length t0) by (apply set_column_length, L1).
  assert (L2 : length t1 = length (np_cumsum beat_sizes)).
  { rewrite Lt1. unfold np_cumsum. rewrite length_cumsum. subst beat_sizes.
    now rewrite length_map. }
  set (t2 := set_column set_idx_end_new (np_cumsum beat_sizes) t1).
  assert (Lt2 : length t2 = length t0).
  { unfold t2. rewrite set_column_length; assumption. }
  assert (O2 : offsets_from 0 t2) by (apply (offsets_cumsum t0 0 Hne)).
  assert (C2 : map core_columns t2 = map core_columns t0).
  { unfold t2, t1. rewrite !set_column_map; auto. }
  assert (U2 : map is_used t2 = map is_used t0).
  { unfold t2, t1. rewrite !set_column_map; auto. }
  destruct ids_segment as [ids|]; [|auto].
  specialize (Hids ids eq_refl).
  rewrite !set_column_map by (auto; congruence).
  split; [exact C2|]. split; [exact U2|].
  eapply offsets_from_ext; [|exact O2]. symmetry.
  apply set_column_map; [reflexivity|congruence].
Qed.

Lemma provide_data_selection
    (fuel : nat) (self : ECGRecordings) (num_beats : option Z)
    (include exclude : filters) (target_probs : target_probs_arg)
    (continuous_segments : bool) (min_anomal_per_seg : option Z)
    (match_segments : list column) (min_len_segment max_len_segment : Z)
    (remain_unused : bool) (w : world)
    (self' : ECGRecordings) (selection : DataFrame) (signal : list Sample)
    (w' : world) :
  provide_data fuel self num_beats include exclude target_probs
    continuous_segments min_anomal_per_seg match_segments
    min_len_segment max_len_segment remain_unused w
  = Ok (self', (selection, signal)) w' ->
  exists (t0 : DataFrame) (w1 w2 : world),
    incl t0 (deref self (_filter_data self include exclude))
    /\ (num_beats = None -> t0 = deref self (_filter_data self include exclude))
    /\ generate_signal self t0 w1 = Ok signal w2
    /\ map core_columns selection = map core_columns t0
    /\ offsets_from 0 selection
    /\ (remain_unused = false ->
        exists t, self_annotations self' = mark_used (index selection) t).
Proof.
  intro H. apply provide_data_shape in H.
  destruct H as (t0 & ids & w1 & w2 & aliased & Hincl & Hnb & Hsig & Hne & Hids
                 & Hsel & Hself).
  destruct (with_new_columns_facts ids t0 Hne Hids) as (C & U & O).
  exists t0, w1, w2. split; [exact Hincl|]. split.
  { intros ->. tauto. }
  split; [exact Hsig|].
  assert (Hc : map core_columns selection = map core_columns t0).
  { rewrite Hsel. destruct (aliased && negb remain_unused); [|exact C].
    rewrite mark_used_map; [exact C|reflexivity]. }
  split; [exact Hc|]. split.
  { rewrite Hsel. destruct (aliased && negb remain_unused); [|exact O].
    eapply offsets_from_ext; [|exact O]. symmetry.
    apply mark_used_map. reflexivity. }
  intros ->. rewrite Hself. destruct aliased.
  - cbn [andb negb] in Hsel. exists (with_new_columns ids t0).
    rewrite Hsel at 1. f_equal. rewrite Hsel.
    symmetry. apply (mark_used_map beat_id). reflexivity.
  - eauto.
Qed.

Lemma mapM_length {A B} (f : A -> M B) (l : list A) (w : world) (r : list B)
    (w' : world) :
  mapM f l w = Ok r w' -> length r = length l.
Proof.
  revert w r w'. induction l as [|a t IH]; intros w r w' H.
  - apply ret_Ok in H. destruct H as [-> _]. reflexivity.
  - cbn [mapM] in H.
    apply bind_Ok in H. destruct H as (b & w1 & _ & H).
    apply bind_Ok in H. destruct H as (bs & w2 & Hbs & H).
    apply ret_Ok in H. destruct H as [-> _].
    cbn [length]. f_equal. eapply IH. exact Hbs.
Qed.







Lemma generate_signal_length (self : ECGRecordings) (t : DataFrame) (w : world)
    (signal : list Sample) (w' : world) :
  generate_signal self t w = Ok signal w' ->
  len signal = sum (map (fun b => Z.max 0 (idx_end b - idx_start b)) t).
Proof.
  unfold generate_signal. intro H. apply mapM_length in H.
  unfold len. rewrite H. clear.
  induction t as [|b t IH]; [reflexivity|].
  cbn [flat_map map]. rewrite length_app, sum_cons, <- IH.
  unfold py_range. rewrite length_map, length_seq. lia.
Qed.



Lemma map_core_In (t t' : DataFrame) (r : Beat) :
  map core_columns t = map core_columns t' -> In r t ->
  exists b, In b t' /\ core_columns r = core_columns b.
Proof.
  intros E Hr. apply (in_map core_columns) in Hr. rewrite E in Hr.
  apply in_map_iff in Hr. destruct Hr as (b & Eb & Hb). eauto.
Qed.

Lemma map_core_ext {C} (g : Z -> Z -> C) (t t' : DataFrame) :
  map core_columns t = map core_columns t' ->
  map (fun b => g (idx_start b) (idx_end b)) t
  = map (fun b => g (idx_start b) (idx_end b)) t'.
Proof.
  revert t'. induction t as [|b t IH]; intros [|b' t'] E; try discriminate;
    [reflexivity|].
  cbn [map] in E. unfold core_columns at 1 3 in E.
  injection E as _ E1 E2 _ _ _ _ E. cbn [map]. rewrite E1, E2. f_equal. auto.
Qed.

Lemma In_fold_filter (p : Beat -> column -> list Z -> bool) (fs : filters)
    (t : DataFrame) (b : Beat) :
  In b (fold_left (fun t '(category, vals) => filter (fun b => p b category vals) t)
                  fs t)
  <-> In b t /\ Forall (fun '(category, vals) => p b category vals = true) fs.
Proof.
  revert t. induction fs as [|[c v] fs IH]; intro t; cbn [fold_left].
  - split; [intro H; split; [exact H|constructor]|tauto].
  - rewrite IH, filter_In. split.
    + intros ((H1 & H2) & H3). split; [exact H1|]. constructor; assumption.
    + intros (H1 & H2). inversion H2; subst. tauto.
Qed.

Lemma filter_data_In (self : ECGRecordings) (include exclude : filters) (b : Beat) :
  In b (deref self (_filter_data self include exclude))
  <-> In b (self_annotations self) /\ passes include exclude b.
Proof.
  assert (G : In b (fold_left (fun t '(category, vals) =>
                          filter (fun b => negb (matches b category vals)) t)
                       exclude
                       (fold_left (fun t '(category, vals) =>
                                     filter (fun b => matches b category vals) t)
                                  include (self_annotations self)))
              <-> In b (self_annotations self) /\ passes include exclude b).
  { rewrite (In_fold_filter (fun b c v => negb (matches b c v))).
    rewrite (In_fold_filter matches). unfold passes.
    assert (E : Forall (fun '(category, vals) =>
                          negb (matches b category vals) = true) exclude
                <-> Forall (fun '(category, vals) =>
                              matches b category vals = false) exclude).
    { rewrite !Forall_forall. split; intros H [c v] Hx; specialize (H _ Hx);
        cbn in *; destruct (matches b c v); auto; discriminate. }
    rewrite E. tauto. }
  unfold _filter_data. destruct include as [|i include].
  - destruct exclude as [|e exclude]; [|exact G].
    cbn [deref]. unfold passes. split; [intro H; repeat split; auto|tauto].
  - exact G.
Qed.

(** X5.  Whenever [provide_data] returns, the slice of the signal it
    returns has as many samples as the returned beats cover: the sum of
    [idx_end - idx_start] over the returned rows (a beat whose end lies
    before its start covers none). *)
Theorem provide_data_signal_length
    (fuel : nat) (self : ECGRecordings) (num_beats : option Z)
    (include exclude : filters) (target_probs : target_probs_arg)
    (continuous_segments : bool) (min_anomal_per_seg : option Z)
    (match_segments : list column) (min_len_segment max_len_segment : Z)
    (remain_unused : bool) (w : world)
    (self' : ECGRecordings) (selection : DataFrame) (signal : list Sample)
    (w' : world) :
  provide_data fuel self num_beats include exclude target_probs
    continuous_segments min_anomal_per_seg match_segments
    min_len_segment max_len_segment remain_unused w
  = Ok (self', (selection, signal)) w' ->
  len signal = sum (map (fun b => Z.max 0 (idx_end b - idx_start b)) selection).
Proof.
  intro H. apply provide_data_selection in H.
  destruct H as (t0 & w1 & w2 & _ & _ & Hsig & Hc & _).
  apply generate_signal_length in Hsig. rewrite Hsig. f_equal.
  symmetry. apply (map_core_ext (fun s e => Z.max 0 (e - s))). exact Hc.
Qed.

Lemma provide_data_signal_length_witness :
  let self :=
    mkRecordings
      [ mkBeat 0 0 2 0 0 false false false None None None;
        mkBeat 1 2 5 1 0 false true false None None None;
        mkBeat 2 5 6 0 0 false false false None None None ]
      [[0; 10]; [1; 11]; [2; 12]; [3; 13]; [4; 14]; [5; 15]] in
  exists self' selection signal w',
    provide_data 0 self None [(ColTarget, [0])] [] ProbsNone false None [] 1 1
      false (mkWorld [] [])
    = Ok (self', (selection, signal)) w'
    /\ signal = [[0; 10]; [1; 11]; [5; 15]]
    /\ len signal
       = sum (map (fun b => Z.max 0 (idx_end b - idx_start b)) selection).
Proof.
  intro self.
  eexists. eexists. eexists. eexists.
  split; [vm_compute; reflexivity|]. split; [reflexivity|].
  eapply (provide_data_signal_length 0 self None [(ColTarget, [0])] []
            ProbsNone false None [] 1 1 false (mkWorld [] [])).
  vm_compute. reflexivity.
Defined.



(** X7.  [provide_data] returns only beats that pass the filters: every
    returned row carries the annotations of a row of the repository that
    matches every [include] entry and no [exclude] entry.  With
    [num_beats = None] it returns all of them: every such row of the
    repository is among the returned rows. *)
Theorem provide_data_respects_filters
    (fuel : nat) (self : ECGRecordings) (num_beats : option Z)
    (include exclude : filters) (target_probs : target_probs_arg)
    (continuous_segments : bool) (min_anomal_per_seg : option Z)
    (match_segments : list column) (min_len_segment max_len_segment : Z)
    (remain_unused : bool) (w : world)
    (self' : ECGRecordings) (selection : DataFrame) (signal : list Sample)
    (w' : world) :
  provide_data fuel self num_beats include exclude target_probs
    continuous_segments min_anomal_per_seg match_segments
    min_len_segment max_len_segment remain_unused w
  = Ok (self', (selection, signal)) w' ->
  (forall row, In row selection ->
     exists b, In b (self_annotations self)
               /\ core_columns row = core_columns b
               /\ passes include exclude b)
  /\ (num_beats = None ->
      forall b, In b (self_annotations self) -> passes include exclude b ->
        exists row, In row selection /\ core_columns row = core_columns b).
Proof.
  intro H. apply provide_data_selection in H.
  destruct H as (t0 & w1 & w2 & Hincl & Hall & _ & Hc & _). split.
  - intros row Hrow. destruct (map_core_In _ _ _ Hc Hrow) as (b & Hb & E).
    exists b. apply Hincl, filter_data_In in Hb. tauto.
  - intros Hn b Hb Hp. specialize (Hall Hn).
    assert (Hb0 : In b t0) by (rewrite Hall; apply filter_data_In; tauto).
    destruct (map_core_In _ _ _ (eq_sym Hc) Hb0) as (row & Hrow & E).
    exists row. split; [exact Hrow|]. symmetry. exact E.
Qed.

Lemma provide_data_respects_filters_witness :
  let self :=
    mkRecordings
      [ mkBeat 0 0 2 0 0 false false false None None None;
        mkBeat 1 2 5 1 0 false true false None None None;
        mkBeat 2 5 6 0 0 false false true None None None ]
      [[0; 10]; [1; 11]; [2; 12]; [3; 13]; [4; 14]; [5; 15]] in
  exists self' selection signal w',
    provide_data 0 self None [(ColTarget, [0])] [(ColIsUsed, [1])] ProbsNone
      false None [] 1 1 false (mkWorld [] [])
    = Ok (self', (selection, signal)) w'
    /\ index selection = [0]
    /\ (forall row, In row selection ->
          exists b, In b (self_annotations self)
                    /\ core_columns row = core_columns b
                    /\ passes [(ColTarget, [0])] [(ColIsUsed, [1])] b)
    /\ (@None Z = None ->
        forall b, In b (self_annotations self) ->
          passes [(ColTarget, [0])] [(ColIsUsed, [1])] b ->
          exists row, In row selection /\ core_columns row = core_columns b).
Proof.
  intro self.
  eexists. eexists. eexists. eexists.
  split; [vm_compute; reflexivity|]. split; [reflexivity|].
  eapply (provide_data_respects_filters 0 self None [(ColTarget, [0])]
            [(ColIsUsed, [1])] ProbsNone false None [] 1 1 false (mkWorld [] [])).
  vm_compute. reflexivity.
Defined.

(** X8.  Beats handed out are not handed out again: after a call of
    [provide_data] with [remain_unused = False], a later call on the
    repository it leaves, whose [exclude] argument holds the used beats
    ([is_used: True], the default), returns none of the beats of the first
    call. *)
Theorem provide_data_no_beat_again
    (fuel : nat) (self : ECGRecordings) (num_beats : option Z)
    (include exclude : filters) (target_probs : target_probs_arg)
    (continuous_segments : bool) (min_anomal_per_seg : option Z)
    (match_segments : list column) (min_len_segment max_len_segment : Z)
    (w : world)
    (self1 : ECGRecordings) (selection1 : DataFrame) (signal1 : list Sample)
    (w1 : world)
    (fuel2 : nat) (num_beats2 : option Z)
    (include2 exclude2 : filters) (target_probs2 : target_probs_arg)
    (continuous_segments2 : bool) (min_anomal_per_seg2 : option Z)
    (match_segments2 : list column) (min_len_segment2 max_len_segment2 : Z)
    (remain_unused2 : bool) (w2 : world)
    (self2 : ECGRecordings) (selection2 : DataFrame) (signal2 : list Sample)
    (w2' : world) (vals : list Z) :
  provide_data fuel self num_beats include exclude target_probs
    continuous_segments min_anomal_per_seg match_segments
    min_len_segment max_len_segment false w
  = Ok (self1, (selection1, signal1)) w1 ->
  provide_data fuel2 self1 num_beats2 include2 exclude2 target_probs2
    continuous_segments2 min_anomal_per_seg2 match_segments2
    min_len_segment2 max_len_segment2 remain_unused2 w2
  = Ok (self2, (selection2, signal2)) w2' ->
  In (ColIsUsed, vals) exclude2 -> In 1 vals ->
  forall id, In id (index selection1) -> ~ In id (index selection2).
Proof.
  intros H1 H2 Hex Hv id Hid1 Hid2.
  apply provide_data_selection in H1.
  destruct H1 as (_ & _ & _ & _ & _ & _ & _ & _ & Hmark).
  destruct (Hmark eq_refl) as (t & Et).
  apply provide_data_selection in H2.
  destruct H2 as (t0 & _ & _ & Hincl & _ & _ & Hc & _).
  unfold index in Hid2. apply in_map_iff in Hid2.
  destruct Hid2 as (row & Eid & Hrow).
  destruct (map_core_In _ _ _ Hc Hrow) as (b & Hb & E).
  apply Hincl, filter_data_In in Hb. destruct Hb as (Hb & _ & Hexc).
  rewrite Forall_forall in Hexc. specialize (Hexc _ Hex). cbn in Hexc.
  assert (Hu : is_used b = true).
  { rewrite Et in Hb. apply (mark_used_In _ _ _ Hb).
    unfold core_columns in E. injection E as E _ _ _ _ _ _.
    rewrite <- E, Eid. exact Hid1. }
  unfold matches in Hexc. cbn [column_value] in Hexc. rewrite Hu in Hexc.
  assert (Ht : existsb (Z.eqb 1) vals = true).
  { apply existsb_exists. exists 1. split; [exact Hv|reflexivity]. }
  congruence.
Qed.

Lemma provide_data_no_beat_again_witness :
  let self :=
    mkRecordings
      [ mkBeat 0 0 2 0 0 false false false None None None;
        mkBeat 1 2 4 1 0 false true false None None None;
        mkBeat 2 4 6 0 0 false false false None None None ]
      [[0; 10]; [1; 11]; [2; 12]; [3; 13]; [4; 14]; [5; 15]] in
  exists self1 selection1 signal1 w1 self2 selection2 signal2 w2,
    provide_data 0 self (Some 2) [] [(ColIsUsed, [1])] (ProbsDict [(1, 1%Q)])
      false None [] 1 1 false (mkWorld [] [])
    = Ok (self1, (selection1, signal1)) w1
    /\ provide_data 0 self1 None [] [(ColIsUsed, [1])] ProbsNone
         false None [] 1 1 false (mkWorld [] [])
       = Ok (self2, (selection2, signal2)) w2
    /\ index selection1 = [1]
    /\ index selection2 = [0; 2]
    /\ forall id, In id (index selection1) -> ~ In id (index selection2).
Proof.
  intro self.
  eexists. eexists. eexists. eexists. eexists. eexists. eexists. eexists.
  split; [vm_compute; reflexivity|]. split; [vm_compute; reflexivity|].
  split; [reflexivity|]. split; [reflexivity|].
  eapply (provide_data_no_beat_again 0 self (Some 2) [] [(ColIsUsed, [1])]
            (ProbsDict [(1, 1%Q)]) false None [] 1 1 (mkWorld [] [])
            _ _ _ _ 0 None [] [(ColIsUsed, [1])] ProbsNone false None [] 1 1
            false (mkWorld [] []) _ _ _ _ [1]).
  - vm_compute. reflexivity.
  - vm_compute. reflexivity.
  - left. reflexivity.
  - left. reflexivity.
Defined.

(** ** Further properties of [generate_target] *)

Lemma bind_Ok_eq {A B} (c : M A) (k : A -> M B) (w : world) (a : A) (w1 : world) :
  c w = Ok a w1 -> bind c k w = k a w1.
Proof. intro H. unfold bind. rewrite H. reflexivity. Qed.

Lemma lookup_Ok (m : dict Z) (k : Z) (w : world) (v : Z) (w' : world) :
  lookup m k w = Ok v w' -> dict_get m k = Some v /\ w' = w.
Proof.
  unfold lookup. destruct (dict_get m k) as [x|]; [|discriminate].
  intro H. apply ret_Ok in H. destruct H as [-> ->]. auto.
Qed.

Lemma dict_get_values {V} (d : dict V) (k : Z) (v : V) :
  dict_get d k = Some v -> In v (values d).
Proof.
  induction d as [|[k' v'] t IH]; [discriminate|].
  cbn [dict_get values map snd]. destruct (k' =? k).
  - intros [= ->]. now left.
  - intro H. right. now apply IH.
Qed.

Lemma mapM_lookup_Ok (m : dict Z) (l : list Z) (w : world) (r : list Z)
    (w' : world) :
  mapM (lookup m) l w = Ok r w' ->
  w' = w /\ length r = length l /\ forall v, In v r -> In v (values m).
Proof.
  revert w r w'. induction l as [|k l IH]; intros w r w' H.
  - apply ret_Ok in H. destruct H as [-> ->]. repeat split. intros v [].
  - cbn [mapM] in H.
    apply bind_Ok in H. destruct H as (v & w1 & Hv & H).
    apply bind_Ok in H. destruct H as (vs & w2 & Hvs & H).
    apply ret_Ok in H. destruct H as [-> ->].
    apply lookup_Ok in Hv. destruct Hv as [Hv ->].
    apply IH in Hvs. destruct Hvs as (-> & Hl & Hin).
    split; [reflexivity|]. split; [cbn [length]; now rewrite Hl|].
    intros x [<-|Hx]; [eapply dict_get_values; eassumption|auto].
Qed.

Lemma np_repeat_Ok (vals counts : list Z) (w : world) (r : list Z) (w' : world) :
  np_repeat vals counts w = Ok r w' ->
  w' = w
  /\ (forall x, In x r -> In x vals)
  /\ (length vals = length counts ->
      len r = sum counts /\ Forall (fun c => 0 <= c) counts).
Proof.
  revert counts w r w'. induction vals as [|v vals IH]; intros counts w r w' H.
  - apply ret_Ok in H. destruct H as [-> ->].
    split; [reflexivity|]. split; [intros x []|].
    destruct counts; [|discriminate]. intros _. split; [reflexivity|constructor].
  - destruct counts as [|c counts].
    + apply ret_Ok in H. destruct H as [-> ->].
      split; [reflexivity|]. split; [intros x []|discriminate].
    + cbn [np_repeat] in H. destruct (Z.ltb_spec c 0) as [|Hc]; [discriminate|].
      apply bind_Ok in H. destruct H as (rest & w1 & Hrest & H).
      apply ret_Ok in H. destruct H as [-> ->].
      apply IH in Hrest. destruct Hrest as (-> & Hin & Hlen).
      split; [reflexivity|]. split.
      * intros x Hx. apply in_app_or in Hx. destruct Hx as [Hx|Hx].
        -- apply repeat_spec in Hx. subst. now left.
        -- right. auto.
      * intro Hl. destruct Hlen as (Hs & Hf); [simpl in Hl; lia|].
        split; [|constructor; assumption].
        unfold len in *. rewrite length_app, repeat_length, sum_cons. lia.
Qed.

Lemma py_index_In {A} (l : list A) (i : Z) (w : world) (x : A) (w' : world) :
  py_index l i w = Ok x w' -> In x l /\ w' = w.
Proof.
  unfold py_index. cbv zeta.
  destruct (_ || _); [discriminate|].
  destruct (nth_error l _) as [y|] eqn:E; [|discriminate].
  intro H. apply ret_Ok in H. destruct H as [-> ->].
  split; [eapply nth_error_In; eassumption|reflexivity].
Qed.

Lemma nth_error_indexed_map {A B} (f : nat * A -> B) (l : list A) (k i : nat) :
  nth_error (map f (combine (seq k (length l)) l)) i
  = option_map (fun x => f ((k + i)%nat, x)) (nth_error l i).
Proof.
  revert k i. induction l as [|a l IH]; intros k i.
  - destruct i; reflexivity.
  - cbn [length seq combine map]. destruct i as [|i].
    + cbn. now rewrite Nat.add_0_r.
    + cbn [nth_error]. rewrite IH. now rewrite Nat.add_succ_r.
Qed.

Lemma slice_fill_length (l : list Z) (a b v : Z) :
  length (slice_fill l a b v) = length l.
Proof.
  unfold slice_fill. rewrite length_map, length_combine, length_seq.
  apply Nat.min_id.
Qed.

Lemma slice_fill_In (l : list Z) (a b v x : Z) :
  In x (slice_fill l a b v) -> x = v \/ In x l.
Proof.
  unfold slice_fill. intro H. apply in_map_iff in H.
  destruct H as ([i y] & E & H). apply in_combine_r in H.
  destruct (_ && _); [left|right]; congruence.
Qed.

Lemma slice_fill_beyond (l : list Z) (a b v : Z) (i : nat) :
  0 <= b <= Z.of_nat i -> nth_error (slice_fill l a b v) i = nth_error l i.
Proof.
  intro Hb. unfold slice_fill. rewrite nth_error_indexed_map.
  destruct (nth_error l i) as [x|]; [|reflexivity]. cbn [option_map Nat.add].
  assert (E : (Z.of_nat i <? slice_bound (len l) b) = false).
  { apply Z.ltb_ge. unfold slice_bound.
    destruct (Z.ltb_spec b 0); lia. }
  rewrite E, andb_false_r. reflexivity.
Qed.

Lemma extend_fold (e : Z) (idcs : list bool) :
  forall (t : list Z) (w : world) (s : list Z) (w' : world),
    foldM (extend_step e) idcs t w = Ok s w' ->
    w' = w
    /\ length s = length t
    /\ (forall x, In x s -> In x t)
    /\ (0 <= e -> forall i, e + 1 <= Z.of_nat i -> nth_error s i = nth_error t i).
Proof.
  induction idcs as [|c idcs IH]; intros t w s w' H.
  - apply ret_Ok in H. destruct H as [-> ->]. auto.
  - cbn [foldM] in H.
    apply bind_Ok in H. destruct H as (t1 & w1 & Hstep & H).
    apply IH in H. destruct H as (-> & Hl & Hin & Hnth).
    unfold extend_step in Hstep. cbv zeta in Hstep.
    apply bind_Ok in Hstep. destruct Hstep as (v & w2 & Hv & Hstep).
    apply ret_Ok in Hstep. destruct Hstep as [-> ->].
    apply py_index_In in Hv. destruct Hv as [Hv ->].
    split; [reflexivity|]. split; [now rewrite Hl, slice_fill_length|]. split.
    + intros x Hx. apply Hin, slice_fill_In in Hx.
      destruct Hx as [->|Hx]; assumption.
    + intros He i Hi. rewrite (Hnth He i Hi).
      apply slice_fill_beyond. destruct c; lia.
Qed.

(** What a successful call of [generate_target] has computed: the stream
    [base] of the beats' classes, then the stream [s] after the [extend]
    loop, returned as it is or as a raster. *)
Lemma generate_target_inv (annotations : DataFrame) (map_target : option (dict Z))
    (extend : option Z) (boolean_raster : bool) (w : world) (r : target_stream)
    (w' : world) :
  generate_target annotations map_target extend boolean_raster w = Ok r w' ->
  exists (beat_targets base s : list Z),
    w' = w
    /\ generate_target annotations map_target None false w = Ok (Stream base) w
    /\ generate_target annotations map_target extend false w = Ok (Stream s) w
    /\ generate_target annotations map_target extend true w
       = Ok (Raster (map (fun t => map (fun tgt => t =? tgt)
                                       (match map_target with
                                        | None => np_unique (filter (fun t => negb (t =? 0)) (map target annotations))
                                        | Some m =>
                                            match dict_get m 0 with
                                            | Some z => filter (fun v => negb (v =? z)) (np_unique (values m))
                                            | None => np_unique (values m)
                                            end
                                        end)) s)) w
    /\ length beat_targets = length annotations
    /\ (forall x, In x beat_targets ->
          match map_target with
          | None => In x (map target annotations)
          | Some m => In x (values m)
          end)
    /\ (forall x, In x base -> In x beat_targets)
    /\ len base = sum (map (fun b => idx_end b - idx_start b) annotations)
    /\ Forall (fun b => 0 <= idx_end b - idx_start b) annotations
    /\ length s = length base
    /\ (forall x, In x s -> In x base)
    /\ (extend = None -> s = base)
    /\ (forall e, extend = Some e -> 0 <= e ->
          forall i, e + 1 <= Z.of_nat i -> nth_error s i = nth_error base i).
Proof.
  intro H. unfold generate_target in H.
  apply bind_Ok in H. destruct H as (beat_targets & w1 & Hbt & H).
  apply bind_Ok in H. destruct H as (base & w2 & Hbase & H).
  apply bind_Ok in H. destruct H as (s & w3 & Hs & H).
  assert (Hbt' : w1 = w /\ length beat_targets = length annotations
                 /\ forall x, In x beat_targets ->
                      match map_target with
                      | None => In x (map target annotations)
                      | Some m => In x (values m)
                      end).
  { destruct map_target as [m|].
    - apply mapM_lookup_Ok in Hbt. rewrite length_map in Hbt. exact Hbt.
    - apply ret_Ok in Hbt. destruct Hbt as [-> ->]. rewrite length_map. auto. }
  destruct Hbt' as (-> & Lbt & Ibt).
  pose proof Hbase as Hbase'.
  apply np_repeat_Ok in Hbase'. destruct Hbase' as (-> & Ibase & Lbase).
  destruct Lbase as (Lbase & Fbase); [now rewrite length_map|].
  assert (Hs' : w3 = w /\ length s = length base
                /\ (forall x, In x s -> In x base)
                /\ (extend = None -> s = base)
                /\ (forall e, extend = Some e -> 0 <= e ->
                      forall i, e + 1 <= Z.of_nat i ->
                                nth_error s i = nth_error base i)).
  { destruct extend as [e|].
    - apply bind_Ok in Hs. destruct Hs as (z & w4 & Hz & Hs).
      assert (w4 = w).
      { destruct map_target as [m|].
        - apply lookup_Ok in Hz. tauto.
        - apply ret_Ok in Hz. tauto. }
      subst w4. apply extend_fold in Hs. destruct Hs as (-> & Hl & Hin & Hnth).
      split; [reflexivity|]. split; [exact Hl|]. split; [exact Hin|].
      split; [discriminate|]. intros e' [= <-]. exact Hnth.
    - apply ret_Ok in Hs. destruct Hs as [-> ->]. repeat split; auto;
        discriminate. }
  destruct Hs' as (-> & Ls & Is & Es & Ns).
  assert (Ew : w' = w).
  { destruct boolean_raster; cbn [negb] in H; apply ret_Ok in H; tauto. }
  subst w'.
  exists beat_targets, base, s. split; [reflexivity|].
  split; [|split; [|split]].
  - unfold generate_target.
    rewrite (bind_Ok_eq _ _ _ _ _ Hbt), (bind_Ok_eq _ _ _ _ _ Hbase). reflexivity.
  - unfold generate_target.
    rewrite (bind_Ok_eq _ _ _ _ _ Hbt), (bind_Ok_eq _ _ _ _ _ Hbase),
      (bind_Ok_eq _ _ _ _ _ Hs). reflexivity.
  - unfold generate_target.
    rewrite (bind_Ok_eq _ _ _ _ _ Hbt), (bind_Ok_eq _ _ _ _ _ Hbase),
      (bind_Ok_eq _ _ _ _ _ Hs). reflexivity.
  - split; [exact Lbt|]. split; [exact Ibt|]. split; [exact Ibase|].
    split; [exact Lbase|]. split.
    { rewrite Forall_map in Fbase. exact Fbase. }
    split; [exact Ls|]. split; [exact Is|]. split; [exact Es|exact Ns].
Qed.





(** X10.  The loop of [generate_target] that is to extend the anomalies
    writes at the start of the stream only: with [extend = e >= 0] the
    stream has the length it has without [extend], and from the time step
    [e + 1] on it carries the classes it carries without [extend].  No
    anomaly that ends later is prolonged. *)
Theorem generate_target_extend_reach
    (annotations : DataFrame) (map_target : option (dict Z)) (e : Z)
    (w : world) (s : list Z) (w' : world) :
  0 <= e ->
  generate_target annotations map_target (Some e) false w = Ok (Stream s) w' ->
  exists base,
    generate_target annotations map_target None false w = Ok (Stream base) w'
    /\ length s = length base
    /\ forall i, e + 1 <= Z.of_nat i -> nth_error s i = nth_error base i.
Proof.
  intros He H. pose proof H as H0. apply generate_target_inv in H0.
  destruct H0 as (bt & base & s' & -> & Hbase & Hs & _ & _ & _ & _ & _ & _ & Ls
                  & _ & _ & Hn).
  rewrite Hs in H. injection H as <-.
  exists base. split; [exact Hbase|]. split; [exact Ls|].
  apply (Hn e eq_refl He).
Qed.

Lemma generate_target_extend_reach_witness :
  let annotations :=
    [ mkBeat 0 0 3 0 0 false false false None None None;
      mkBeat 1 3 5 7 0 false true false None None None;
      mkBeat 2 5 9 0 0 false false false None None None ] in
  exists s,
    0 <= 1
    /\ generate_target annotations None (Some 1) false (mkWorld [] [])
       = Ok (Stream s) (mkWorld [] [])
    /\ s = [0; 0; 0; 7; 7; 0; 0; 0; 0]
    /\ exists base,
         generate_target annotations None None false (mkWorld [] [])
         = Ok (Stream base) (mkWorld [] [])
         /\ length s = length base
         /\ forall i, 1 + 1 <= Z.of_nat i -> nth_error s i = nth_error base i.
Proof.
  intro annotations. eexists.
  split; [lia|]. split; [vm_compute; reflexivity|]. split; [reflexivity|].
  apply (generate_target_extend_reach annotations None 1 (mkWorld [] [])).
  - lia.
  - vm_compute. reflexivity.
Defined.




(** ** Further properties of the continuous-segment pickers *)

Lemma draw_Ok (w : world) (r : nat) (w' : world) :
  draw w = Ok r w' -> warnings w' = warnings w.
Proof.
  unfold draw. destruct (tape w); intros [= <- <-]; reflexivity.
Qed.

Lemma randbelow_Ok (n : nat) (w : world) (i : nat) (w' : world) :
  randbelow n w = Ok i w' -> warnings w' = warnings w.
Proof.
  unfold randbelow. intro H. apply bind_Ok in H. destruct H as (r & w1 & Hd & H).
  apply ret_Ok in H. destruct H as [_ ->]. eapply draw_Ok, Hd.
Qed.

Lemma np_choice_weighted_Ok (weights : list Z) (w : world) (i : nat) (w' : world) :
  np_choice_weighted weights w = Ok i w' -> warnings w' = warnings w.
Proof.
  unfold np_choice_weighted. cbv zeta. destruct (sum weights =? 0); [discriminate|].
  intro H. apply bind_Ok in H. destruct H as (r & w1 & Hr & H).
  apply ret_Ok in H. destruct H as [_ ->]. eapply randbelow_Ok, Hr.
Qed.

Lemma np_randint_Ok (low high : Z) (w : world) (x : Z) (w' : world) :
  np_randint low high w = Ok x w' ->
  low <= x < high /\ warnings w' = warnings w.
Proof.
  unfold np_randint. destruct (Z.leb_spec high low) as [|Hlt]; [discriminate|].
  intro H. apply bind_Ok in H. destruct H as (r & w1 & Hr & H).
  apply ret_Ok in H. destruct H as [-> ->].
  split; [|eapply draw_Ok, Hr].
  pose proof (Z.mod_pos_bound (Z.of_nat r) (high - low)). lia.
Qed.

Lemma try_randint_Ok (low high : Z) (w : world) (r : option Z) (w' : world) :
  except_ValueError (len_seg <- np_randint low high ;; ret (Some len_seg))
                    (ret None) w = Ok r w' ->
  warnings w' = warnings w
  /\ match r with Some x => low <= x < high | None => True end.
Proof.
  unfold except_ValueError, bind.
  destruct (np_randint low high w) as [x w1|e w1|] eqn:E; [| |discriminate].
  - intro H. apply ret_Ok in H. destruct H as [-> ->].
    apply np_randint_Ok in E. tauto.
  - unfold np_randint in E. destruct (high <=? low).
    + unfold raise in E. injection E as <- <-. intro H.
      apply ret_Ok in H. destruct H as [Hr Hw]. subst. auto.
    + unfold bind, ret, draw in E. destruct (tape w); discriminate.
Qed.

Lemma np_choice_one_Ok {A} (a : list A) (w : world) (x : A) (w' : world) :
  np_choice_one a w = Ok x w' -> In x a /\ warnings w' = warnings w.
Proof.
  unfold np_choice_one. intro H.
  apply bind_Ok in H. destruct H as (i & w1 & Hi & H).
  destruct (nth_error a i) as [y|] eqn:E; [|discriminate].
  apply ret_Ok in H. destruct H as [-> ->].
  split; [eapply nth_error_In, E|eapply randbelow_Ok, Hi].
Qed.

(** Counting occurrences: how often [x] is in a list of beat identifiers. *)
Lemma occ_pop (x : Z) (i : nat) (l : list (list Z)) :
  count_occ Z.eq_dec (concat l) x
  = (count_occ Z.eq_dec (nth i l []) x
     + count_occ Z.eq_dec (concat (remove_nth i l)) x)%nat.
Proof.
  revert i. induction l as [|a l IH]; intro i.
  - destruct i; reflexivity.
  - destruct i as [|i]; cbn [nth remove_nth concat].
    + now rewrite count_occ_app.
    + rewrite !count_occ_app, (IH i). lia.
Qed.

Lemma occ_split (x : Z) (k : nat) (l : list Z) :
  count_occ Z.eq_dec l x
  = (count_occ Z.eq_dec (firstn k l) x + count_occ Z.eq_dec (skipn k l) x)%nat.
Proof. rewrite <- count_occ_app, firstn_skipn. reflexivity. Qed.

Lemma occ_concat_filter (x : Z) (p : list Z -> bool) (l : list (list Z)) :
  (count_occ Z.eq_dec (concat (filter p l)) x
   <= count_occ Z.eq_dec (concat l) x)%nat.
Proof.
  induction l as [|a l IH]; [reflexivity|].
  cbn [filter concat]. destruct (p a); cbn [concat]; rewrite !count_occ_app; lia.
Qed.

Lemma len_app {A} (l1 l2 : list A) : len (l1 ++ l2) = len l1 + len l2.
Proof. unfold len. rewrite length_app. lia. Qed.

Section ContinuousLoopCounts.

Variables min_len_segment max_len_segment : Z.
Hypothesis Hmin : 1 <= min_len_segment.
Hypothesis Hmax : min_len_segment <= max_len_segment.
Variable bound : Z -> nat.

(** What the loop keeps: a beat is in the lists it holds no more often
    than at the start ([bound], which is 1 for unique identifiers), no
    collected segment is longer than [max_len_segment], the beats it adds
    stay below [num_beats + max_len_segment], and it adds at least
    [num_beats] of them unless it gives its warning. *)
Lemma cont_segments_loop_counts (fuel : nat) :
  forall (num_beats : Z) (available_segs collected_segments : list (list Z))
         (w : world) (segs : list (list Z)) (w' : world),
    cont_segments_loop fuel min_len_segment max_len_segment num_beats
      available_segs collected_segments w = Ok segs w' ->
    (forall x, (count_occ Z.eq_dec (concat available_segs) x
                + count_occ Z.eq_dec (concat collected_segments) x <= bound x)%nat) ->
    Forall (fun l => len l <= max_len_segment) collected_segments ->
    (forall x, (count_occ Z.eq_dec (concat segs) x <= bound x)%nat)
    /\ Forall (fun l => len l <= max_len_segment) segs
    /\ (num_beats <= 0 -> len (concat segs) = len (concat collected_segments))
    /\ (0 < num_beats ->
        len (concat segs) - len (concat collected_segments)
        < num_beats + max_len_segment)
    /\ ((warnings w' = warnings w
         /\ num_beats <= len (concat segs) - len (concat collected_segments))
        \/ warnings w' = warnings w ++ [WarnNoMoreSegments]).
Proof.
  induction fuel as [|fuel IH]; intros n avail coll w segs w' H Hocc Hlen;
    [discriminate|].
  cbn [cont_segments_loop] in H.
  destruct (Z.ltb_spec 0 n) as [Hn|Hn].
  2:{ apply ret_Ok in H. destruct H as [-> ->].
      split; [intro x; specialize (Hocc x); lia|]. split; [exact Hlen|].
      split; [reflexivity|]. split; [lia|]. left. split; [reflexivity|lia]. }
  destruct (len avail =? 0).
  { apply bind_Ok in H. destruct H as ([] & w1 & Hw & H).
    apply ret_Ok in H. destruct H as [-> ->].
    unfold warn in Hw. injection Hw as <-.
    split; [intro x; specialize (Hocc x); lia|]. split; [exact Hlen|].
    split; [reflexivity|]. split; [lia|]. right. reflexivity. }
  apply bind_Ok in H. destruct H as (idx & w1 & Hidx & H).
  apply np_choice_weighted_Ok in Hidx.
  set (sublist := nth idx avail []) in *.
  set (avail' := remove_nth idx avail) in *.
  assert (Hpop : forall x, count_occ Z.eq_dec (concat avail) x
                           = (count_occ Z.eq_dec sublist x
                              + count_occ Z.eq_dec (concat avail') x)%nat)
    by (intro x; apply occ_pop).
  pose proof (len_nonneg sublist) as HL.
  destruct (Z.leb_spec (len sublist) max_len_segment) as [Hshort|Hlong].
  - (* the whole sub-list, or its first [num_beats] beats *)
    set (len_seg := Z.min (len sublist) n) in *.
    assert (Epiece : py_slice_to sublist len_seg = firstn (Z.to_nat len_seg) sublist)
      by (apply py_slice_to_Z; lia).
    rewrite Epiece in H.
    assert (Lpiece : len (firstn (Z.to_nat len_seg) sublist) = len_seg)
      by (unfold len in *; rewrite length_firstn; lia).
    apply IH in H.
    + destruct H as (H1 & H2 & H3 & H4 & H5).
      rewrite concat_app in H3, H4, H5. cbn [concat] in H3, H4, H5.
      rewrite app_nil_r, len_app, Lpiece in H3, H4, H5.
      split; [exact H1|]. split; [exact H2|]. split; [lia|]. split.
      * intros _. destruct (Z_le_gt_dec (n - len_seg) 0) as [Hle|Hgt].
        -- rewrite (H3 Hle). lia.
        -- specialize (H4 ltac:(lia)). lia.
      * rewrite Hidx in H5. destruct H5 as [[E5 G5]|E5]; [left|right; exact E5].
        split; [exact E5|lia].
    + intro x. rewrite concat_app. cbn [concat]. rewrite app_nil_r, count_occ_app.
      specialize (Hocc x). rewrite Hpop in Hocc.
      pose proof (occ_split x (Z.to_nat len_seg) sublist). lia.
    + apply Forall_app. split; [exact Hlen|]. constructor; [|constructor]. lia.
  - apply bind_Ok in H. destruct H as (drawn & w2 & Hdrawn & H).
    apply try_randint_Ok in Hdrawn. destruct Hdrawn as (Ew2 & Hdrawn).
    destruct drawn as [len_seg|].
    + apply bind_Ok in H. destruct H as (idx_start & w3 & Hstart & H).
      apply np_choice_one_Ok in Hstart. destruct Hstart as (Hstart & Ew3).
      assert (Hs : 0 <= idx_start <= len sublist - len_seg).
      { cbn [app] in Hstart. destruct Hstart as [<-|[<-|Hstart]]; [lia|lia|].
        apply In_py_range in Hstart. lia. }
      assert (E0 : py_slice_to sublist idx_start
                   = firstn (Z.to_nat idx_start) sublist)
        by (apply py_slice_to_Z; lia).
      assert (E1 : py_slice sublist idx_start (idx_start + len_seg)
                   = firstn (Z.to_nat len_seg) (skipn (Z.to_nat idx_start) sublist)).
      { rewrite py_slice_Z by lia. f_equal. lia. }
      assert (E2 : py_slice_from sublist (idx_start + len_seg)
                   = skipn (Z.to_nat len_seg) (skipn (Z.to_nat idx_start) sublist)).
      { rewrite py_slice_from_Z by lia. rewrite skipn_skipn. f_equal. lia. }
      rewrite E0, E1, E2 in H.
      set (rest := skipn (Z.to_nat idx_start) sublist) in *.
      assert (Lpiece : len (firstn (Z.to_nat len_seg) rest) = len_seg).
      { unfold len in *. subst rest. rewrite length_firstn, length_skipn. lia. }
      apply IH in H.
      * destruct H as (H1 & H2 & H3 & H4 & H5).
        rewrite concat_app in H3, H4, H5. cbn [concat] in H3, H4, H5.
        rewrite app_nil_r, len_app, Lpiece in H3, H4, H5.
        split; [exact H1|]. split; [exact H2|]. split; [lia|]. split.
        -- intros _. destruct (Z_le_gt_dec (n - len_seg) 0) as [Hle|Hgt].
           ++ rewrite (H3 Hle). lia.
           ++ specialize (H4 ltac:(lia)). lia.
        -- rewrite Ew3, Ew2, Hidx in H5.
           destruct H5 as [[E5 G5]|E5]; [left|right; exact E5].
           split; [exact E5|lia].
      * intro x. rewrite !concat_app. cbn [concat]. rewrite app_nil_r, !count_occ_app.
        specialize (Hocc x). rewrite Hpop in Hocc.
        pose proof (occ_split x (Z.to_nat idx_start) sublist) as S1.
        pose proof (occ_split x (Z.to_nat len_seg) rest) as S2. fold rest in S1.
        pose proof (occ_concat_filter x (fun l => max_len_segment <? len l)
                      [firstn (Z.to_nat idx_start) sublist;
                       skipn (Z.to_nat len_seg) rest]) as S3.
        cbn [concat] in S3. rewrite app_nil_r, count_occ_app in S3.
        destruct (filter _ _) as [|f1 [|f2 fs]] in S3 |- *; cbn [concat] in *;
          rewrite ?app_nil_r, ?count_occ_app in *; cbn [count_occ] in *; lia.
      * apply Forall_app. split; [exact Hlen|]. constructor; [|constructor]. lia.
    + apply IH in H; [|exact (fun x => ltac:(specialize (Hocc x);
                                  rewrite Hpop in Hocc; lia))|exact Hlen].
      destruct H as (H1 & H2 & H3 & H4 & H5).
      split; [exact H1|]. split; [exact H2|]. split; [lia|].
      split; [exact H4|]. rewrite Ew2, Hidx in H5. exact H5.
Qed.

End ContinuousLoopCounts.

Lemma occ_filter_disjoint (x : Z) (p1 p2 : Beat -> bool) (t : DataFrame) :
  (forall b, p1 b && p2 b = false) ->
  (count_occ Z.eq_dec (index (filter p1 t)) x
   + count_occ Z.eq_dec (index (filter p2 t)) x
   = count_occ Z.eq_dec (index (filter (fun b => p1 b || p2 b) t)) x)%nat.
Proof.
  intro Hd. unfold index. induction t as [|b t IH]; [reflexivity|].
  cbn [filter]. specialize (Hd b).
  destruct (p1 b), (p2 b); try discriminate; cbn [orb map count_occ];
    destruct (Z.eq_dec (beat_id b) x); lia.
Qed.

Lemma occ_filter_le (x : Z) (p : Beat -> bool) (t : DataFrame) :
  (count_occ Z.eq_dec (index (filter p t)) x
   <= count_occ Z.eq_dec (index t) x)%nat.
Proof.
  unfold index. induction t as [|b t IH]; [reflexivity|].
  cbn [filter]. destruct (p b); cbn [map count_occ];
    destruct (Z.eq_dec (beat_id b) x); lia.
Qed.

Lemma occ_by_recording (x : Z) (t : DataFrame) (recs : list Z) :
  NoDup recs ->
  (count_occ Z.eq_dec
     (concat (map (fun rec => index (with_recording rec t)) recs)) x
   <= count_occ Z.eq_dec
        (index (filter (fun b => existsb (Z.eqb (recording b)) recs) t)) x)%nat.
Proof.
  induction 1 as [|r rs Hr Hrs IH]; [cbn; lia|].
  cbn [map concat]. rewrite count_occ_app.
  unfold with_recording at 1.
  assert (E : forall b, existsb (Z.eqb (recording b)) (r :: rs)
                        = (recording b =? r)
                          || existsb (Z.eqb (recording b)) rs) by reflexivity.
  rewrite (filter_ext _ _ E).
  rewrite <- (occ_filter_disjoint x (fun b => recording b =? r)
                (fun b => existsb (Z.eqb (recording b)) rs)).
  - lia.
  - intro b. destruct (Z.eqb_spec (recording b) r) as [->|]; [|reflexivity].
    cbn [andb]. destruct (existsb (Z.eqb r) rs) eqn:Ex; [|reflexivity].
    apply existsb_exists in Ex. destruct Ex as (y & Hy & Ey).
    apply Z.eqb_eq in Ey. subst y. contradiction.
Qed.

Lemma occ_initial_segs (x : Z) (annotations : DataFrame) (min_len_segment : Z) :
  (count_occ Z.eq_dec (concat (initial_segs annotations min_len_segment)) x
   <= count_occ Z.eq_dec (index annotations) x)%nat.
Proof.
  unfold initial_segs. cbv zeta.
  etransitivity; [|etransitivity;
    [apply (occ_by_recording x annotations
              (np_unique (map recording annotations))), np_unique_NoDup
    |apply occ_filter_le]].
  generalize (np_unique (map recording annotations)) as recs.
  induction recs as [|r rs IH]; [reflexivity|].
  cbn [map flat_map concat]. rewrite concat_app, !count_occ_app.
  pose proof (occ_concat_filter x (fun seg => min_len_segment <=? len seg)
                (split_at_discontinuity (index (with_recording r annotations)) 1))
    as Hf.
  assert (Hc : concat (split_at_discontinuity
                        (index (with_recording r annotations)) 1)
               = index (with_recording r annotations))
    by (rewrite split_at_discontinuity_runs; apply concat_runs).
  rewrite Hc in Hf. lia.
Qed.

(** X12.  On a table with unique beat identifiers and with
    [1 <= min_len_segment <= max_len_segment], the segments
    [_pick_cont_segments_inner] returns share no beat: no identifier is
    in two segments or twice in one; and every segment has between 1 and
    [max_len_segment] beats. *)
Theorem pick_cont_segments_inner_disjoint
    (num_beats : Z) (annotations : DataFrame) (min_len_segment max_len_segment : Z)
    (w : world) (segs : list (list Z)) (w' : world) :
  1 <= min_len_segment -> min_len_segment <= max_len_segment ->
  NoDup (index annotations) ->
  _pick_cont_segments_inner num_beats annotations min_len_segment max_len_segment w
  = Ok segs w' ->
  NoDup (concat segs)
  /\ Forall (fun seg => 1 <= len seg <= max_len_segment) segs.
Proof.
  intros Hmin Hmax Hnd H.
  destruct (pick_cont_segments_inner_ok num_beats annotations
              min_len_segment max_len_segment w Hmin Hmax)
    as (segs1 & w1 & E & Hruns).
  rewrite E in H. injection H as -> ->.
  unfold _pick_cont_segments_inner in E.
  apply (cont_segments_loop_counts min_len_segment max_len_segment Hmin Hmax
           (fun _ => 1%nat)) in E.
  - destruct E as (H1 & H2 & _). split.
    + apply (NoDup_count_occ Z.eq_dec). exact H1.
    + rewrite Forall_forall in *. intros seg Hseg.
      specialize (H2 seg Hseg). destruct (Hruns seg Hseg) as (Hne & _).
      split; [|exact H2]. destruct seg; [congruence|]. rewrite len_cons.
      pose proof (len_nonneg seg). lia.
  - intro x. cbn [concat count_occ]. rewrite Nat.add_0_r.
    etransitivity; [apply occ_initial_segs|].
    apply (NoDup_count_occ Z.eq_dec). exact Hnd.
  - constructor.
Qed.

Lemma pick_cont_segments_inner_disjoint_witness :
  let annotations :=
    [ mkBeat 0 0 10 0 0 false false false None None None;
      mkBeat 1 10 20 1 0 false false false None None None;
      mkBeat 2 20 30 0 0 false false false None None None;
      mkBeat 4 40 50 0 0 false false false None None None ] in
  exists segs w',
    (1 <= 1 /\ 1 <= 2)
    /\ NoDup (index annotations)
    /\ _pick_cont_segments_inner 3 annotations 1 2 (mkWorld [0; 0; 2]%nat []) = Ok segs w'
    /\ segs = [[0]; [4]]
    /\ NoDup (concat segs)
    /\ Forall (fun seg => 1 <= len seg <= 2) segs.
Proof.
  intro annotations. eexists. eexists.
  split; [lia|].
  assert (Hnd : NoDup (index annotations)).
  { repeat (constructor; [cbn; intuition discriminate|]). constructor. }
  split; [exact Hnd|].
  split; [vm_compute; reflexivity|]. split; [reflexivity|].
  eapply (pick_cont_segments_inner_disjoint 3 annotations 1 2 (mkWorld [0; 0; 2]%nat []));
    [lia|lia|exact Hnd|vm_compute; reflexivity].
Defined.

(** X13.  With [1 <= min_len_segment <= max_len_segment],
    [_pick_cont_segments_inner] returns fewer than
    [num_beats + max_len_segment] beats (none for [num_beats <= 0]), and
    at least [num_beats] unless it gives the warning that no more
    segments can be produced; it gives no other warning. *)
Theorem pick_cont_segments_inner_count
    (num_beats : Z) (annotations : DataFrame) (min_len_segment max_len_segment : Z)
    (w : world) (segs : list (list Z)) (w' : world) :
  1 <= min_len_segment -> min_len_segment <= max_len_segment ->
  _pick_cont_segments_inner num_beats annotations min_len_segment max_len_segment w
  = Ok segs w' ->
  len (concat segs) < Z.max 0 num_beats + max_len_segment
  /\ ((warnings w' = warnings w /\ num_beats <= len (concat segs))
      \/ warnings w' = warnings w ++ [WarnNoMoreSegments]).
Proof.
  intros Hmin Hmax H. unfold _pick_cont_segments_inner in H.
  apply (cont_segments_loop_counts min_len_segment max_len_segment Hmin Hmax
           (fun x => count_occ Z.eq_dec
                       (concat (initial_segs annotations min_len_segment)) x)) in H.
  - destruct H as (_ & _ & H3 & H4 & H5). cbn [concat] in H3, H4, H5.
    change (len (@nil Z)) with 0 in H3, H4, H5. rewrite Z.sub_0_r in H4, H5.
    split; [|exact H5].
    destruct (Z_le_gt_dec num_beats 0) as [Hle|Hgt].
    + rewrite (H3 Hle). lia.
    + specialize (H4 ltac:(lia)). lia.
  - intro x. cbn [concat count_occ]. lia.
  - constructor.
Qed.

Lemma pick_cont_segments_inner_count_witness :
  let annotations :=
    [ mkBeat 0 0 10 0 0 false false false None None None;
      mkBeat 1 10 20 1 0 false false false None None None;
      mkBeat 2 20 30 0 0 false false false None None None;
      mkBeat 4 40 50 0 0 false false false None None None ] in
  let w := mkWorld [0; 0; 2]%nat [] in
  exists segs w',
    (1 <= 1 /\ 1 <= 2)
    /\ _pick_cont_segments_inner 7 annotations 1 2 w = Ok segs w'
    /\ segs = [[0]; [4]]
    /\ warnings w' = [WarnNoMoreSegments]
    /\ len (concat segs) < Z.max 0 7 + 2
    /\ ((warnings w' = warnings w /\ 7 <= len (concat segs))
        \/ warnings w' = warnings w ++ [WarnNoMoreSegments]).
Proof.
  intros annotations w. eexists. eexists.
  split; [lia|].
  split; [vm_compute; reflexivity|]. split; [reflexivity|]. split; [reflexivity|].
  eapply (pick_cont_segments_inner_count 7 annotations 1 2 w);
    [lia|lia|vm_compute; reflexivity].
Defined.

(** ** Segments of one class *)

Lemma np_split_from_incl {A} (l : list A) (idx : list Z) (prev : Z) (seg : list A) :
  In seg (np_split_from l prev idx) -> incl seg l.
Proof.
  revert prev. induction idx as [|i idx IH]; intros prev H; cbn [np_split_from] in H.
  - destruct H as [<-|[]]. unfold py_slice. intros x Hx.
    apply In_firstn, In_skipn in Hx. exact Hx.
  - destruct H as [<-|H]; [|eapply IH; exact H].
    unfold py_slice. intros x Hx. apply In_firstn, In_skipn in Hx. exact Hx.
Qed.

Lemma np_choice_noreplace_incl {A} (a : list A) (size : Z) (w : world)
    (r : list A) (w' : world) :
  np_choice_noreplace a size w = Ok r w' -> incl r a.
Proof.
  intro H.
  destruct (np_choice_noreplace_result a size w) as [(p & w1 & E & Hp)|E];
    rewrite E in H; [|discriminate].
  injection H as <- _. intros x Hx. apply In_firstn in Hx.
  eapply Permutation_in; eauto.
Qed.

Lemma pick_target_beats_incl (tgt num_beats : Z) (annotations : DataFrame)
    (w : world) (beats : list Z) (w' : world) :
  _pick_target_beats tgt num_beats annotations w = Ok beats w' ->
  incl beats (index (with_target tgt annotations)).
Proof.
  intro H. unfold _pick_target_beats, except_ValueError in H. cbv zeta in H.
  destruct (np_choice_noreplace (index (with_target tgt annotations)) num_beats w)
    as [r w1|e w1|] eqn:E; [| |discriminate].
  - injection H as <- _. eapply np_choice_noreplace_incl, E.
  - destruct e; try discriminate.
    destruct (len (index (with_target tgt annotations)) <? num_beats);
      [|discriminate].
    unfold bind, warn, ret in H. injection H as <- _. apply incl_refl.
Qed.

Lemma In_index_with_target (annotations : DataFrame) (tgt id : Z) :
  In id (index (with_target tgt annotations)) ->
  exists b, In b annotations /\ beat_id b = id /\ target b = tgt.
Proof.
  unfold index, with_target. intro H. apply in_map_iff in H.
  destruct H as (b & Hid & Hb). apply filter_In in Hb. destruct Hb as (Hb & Ht).
  apply Z.eqb_eq in Ht. eauto.
Qed.

Lemma In_index_with_recording (annotations : DataFrame) (tgt rec id : Z) :
  In id (index (with_recording rec (with_target tgt annotations))) ->
  exists b, In b annotations /\ beat_id b = id /\ target b = tgt /\ recording b = rec.
Proof.
  unfold index, with_recording, with_target. intro H. apply in_map_iff in H.
  destruct H as (b & Hid & Hb). apply filter_In in Hb. destruct Hb as (Hb & Hr).
  apply filter_In in Hb. destruct Hb as (Hb & Ht).
  apply Z.eqb_eq in Ht. apply Z.eqb_eq in Hr. eauto 6.
Qed.

Lemma of_class_and_recording_of_class (annotations : DataFrame) (tgt rec : Z)
    (seg : list Z) :
  of_class_and_recording annotations tgt rec seg -> of_class annotations tgt seg.
Proof.
  unfold of_class_and_recording, of_class. apply Forall_impl.
  intros id (b & H1 & H2 & H3 & _). eauto.
Qed.

(** X14.  The segments [_pick_category_segments] returns are of one class
    each: all beats of a segment are beats of one target class of the
    table, and when [match_segments] names the recording as well, of one
    recording too. *)
Theorem pick_category_segments_one_class
    (num_beats : Z) (annotations : DataFrame) (target_probs : target_probs_arg)
    (match_segments : list column) (min_len_segment max_len_segment : Z)
    (w : world) (beats ids : list Z) (w' : world) :
  _pick_category_segments num_beats annotations target_probs match_segments
    min_len_segment max_len_segment w = Ok (beats, ids) w' ->
  exists segs,
    parallel_lists segs beats ids
    /\ Forall (fun seg => exists tgt, of_class annotations tgt seg) segs
    /\ (In ColRecording match_segments ->
        Forall (fun seg => exists tgt rec,
                             of_class_and_recording annotations tgt rec seg) segs).
Proof.
  intro H. unfold _pick_category_segments in H.
  apply bind_Ok in H. destruct H as (beat_counts & w1 & _ & H).
  apply bind_Ok in H. destruct H as (segs0 & w2 & Hsegs & Hf).
  apply flatten_segments_Ok in Hf. destruct Hf as (segs & Hp & Hpar).
  exists segs. split; [exact Hpar|].
  assert (Hrec : Forall (fun seg => exists tgt rec,
                           of_class_and_recording annotations tgt rec seg) segs0
                 \/ (~ In ColRecording match_segments
                     /\ Forall (fun seg => exists tgt, of_class annotations tgt seg)
                               segs0)).
  { destruct (same_set match_segments [ColTarget]) eqn:E1.
    - right. split.
      + intro Hin. unfold same_set in E1. apply andb_true_iff in E1.
        destruct E1 as (E1 & _). rewrite forallb_forall in E1.
        specialize (E1 _ Hin). cbn in E1. discriminate.
      + revert Hsegs.
        apply foldM_invariant
          with (I := Forall (fun seg => exists tgt, of_class annotations tgt seg));
          [|constructor].
        intros coll [tgt counts] wa coll' wb Hcoll _ Hstep.
        unfold category_segments_target in Hstep.
        apply bind_Ok in Hstep. destruct Hstep as (bs & wc & Hbs & Hstep).
        apply bind_Ok in Hstep. destruct Hstep as (lens & wd & _ & Hstep).
        apply ret_Ok in Hstep. destruct Hstep as [-> _].
        apply pick_target_beats_incl in Hbs.
        apply Forall_app. split; [exact Hcoll|].
        apply Forall_forall. intros seg Hseg. exists tgt.
        apply np_split_from_incl in Hseg. apply Forall_forall. intros id Hid.
        apply In_index_with_target, Hbs, Hseg, Hid.
    - destruct (same_set match_segments [ColTarget; ColRecording]);
        [|discriminate].
      left. revert Hsegs.
      apply foldM_invariant
        with (I := Forall (fun seg => exists tgt rec,
                             of_class_and_recording annotations tgt rec seg));
        [|constructor].
      intros coll [tgt n_tgt] wa coll' wb Hcoll _ Hstep.
      unfold category_segments_target_recording in Hstep. cbv zeta in Hstep.
      destruct (np_unique_counts (map recording (with_target tgt annotations)))
        as [recs sizes].
      apply bind_Ok in Hstep. destruct Hstep as (per_rec & wc & _ & Hstep).
      revert Hstep.
      apply foldM_invariant
        with (I := Forall (fun seg => exists tgt rec,
                             of_class_and_recording annotations tgt rec seg));
        [|exact Hcoll].
      intros c [rec n_beats] wd c' we Hc _ Hin.
      destruct (0 <? n_beats).
      + apply bind_Ok in Hin. destruct Hin as (sizes' & wf & _ & Hin).
        apply bind_Ok in Hin. destruct Hin as (bs & wg & Hbs & Hin).
        apply ret_Ok in Hin. destruct Hin as [-> _].
        apply np_choice_noreplace_incl in Hbs.
        apply Forall_app. split; [exact Hc|].
        apply Forall_forall. intros seg Hseg. exists tgt, rec.
        apply np_split_from_incl in Hseg. apply Forall_forall. intros id Hid.
        apply In_index_with_recording, Hbs, Hseg, Hid.
      + apply ret_Ok in Hin. destruct Hin as [-> _]. exact Hc. }
  destruct Hrec as [Hrec|(Hno & Hcls)].
  - assert (Hrec' : Forall (fun seg => exists tgt rec,
                              of_class_and_recording annotations tgt rec seg) segs)
      by (eapply Forall_perm; eauto).
    split; [|intros _; exact Hrec'].
    eapply Forall_impl; [|exact Hrec']. intros seg (tgt & rec & Hs).
    exists tgt. eapply of_class_and_recording_of_class, Hs.
  - split; [eapply Forall_perm; eauto|]. intro Hin. contradiction.
Qed.

Lemma pick_category_segments_one_class_witness :
  let annotations :=
    [ mkBeat 0 0 10 0 0 false false false None None None;
      mkBeat 1 10 20 1 0 false false false None None None;
      mkBeat 2 20 30 0 0 false false false None None None;
      mkBeat 3 30 40 1 0 false false false None None None;
      mkBeat 4 40 50 0 1 false false false None None None ] in
  exists beats ids w',
    _pick_category_segments 4 annotations ProbsUniform [ColTarget] 1 2
      (mkWorld [] []) = Ok (beats, ids) w'
    /\ beats = [3; 1; 2; 4] /\ ids = [0; 0; 1; 1]
    /\ exists segs,
         parallel_lists segs beats ids
         /\ Forall (fun seg => exists tgt, of_class annotations tgt seg) segs
         /\ (In ColRecording [ColTarget] ->
             Forall (fun seg => exists tgt rec,
                                  of_class_and_recording annotations tgt rec seg)
                    segs).
Proof.
  intro annotations. eexists. eexists. eexists.
  split; [vm_compute; reflexivity|]. split; [reflexivity|]. split; [reflexivity|].
  eapply (pick_category_segments_one_class 4 annotations ProbsUniform [ColTarget]
            1 2 (mkWorld [] [])).
  vm_compute. reflexivity.
Defined.



(** X16.  When the table has at least [num_beats >= 0] beats of the class,
    [_pick_target_beats] returns exactly [num_beats] of them and gives no
    warning; on a table with unique identifiers they are all different. *)
Theorem pick_target_beats_enough
    (tgt num_beats : Z) (annotations : DataFrame) (w : world) :
  0 <= num_beats <= len (index (with_target tgt annotations)) ->
  exists beats w',
    _pick_target_beats tgt num_beats annotations w = Ok beats w'
    /\ len beats = num_beats
    /\ of_class annotations tgt beats
    /\ warnings w' = warnings w
    /\ (NoDup (index annotations) -> NoDup beats).
Proof.
  intros Hn. unfold _pick_target_beats, except_ValueError, np_choice_noreplace.
  cbv zeta. set (a := index (with_target tgt annotations)) in *.
  assert (E1 : (len a =? 0) && negb (num_beats =? 0) = false).
  { destruct (Z.eqb_spec (len a) 0) as [E|]; [|reflexivity].
    destruct (Z.eqb_spec num_beats 0); [reflexivity|lia]. }
  assert (E2 : (len a <? num_beats) = false) by (apply Z.ltb_ge; lia).
  assert (E3 : (num_beats <? 0) = false) by (apply Z.ltb_ge; lia).
  rewrite E1, E2, E3.
  destruct (np_shuffle_perm a w) as (p & w' & E & Hp & Hw).
  unfold bind. rewrite E. unfold ret.
  exists (firstn (Z.to_nat num_beats) p), w'. split; [reflexivity|].
  split.
  { unfold len in *. rewrite length_firstn, (Permutation_length Hp). lia. }
  split.
  { apply Forall_forall. intros id Hid. apply In_firstn in Hid.
    apply In_index_with_target. eapply Permutation_in; eauto. }
  split; [exact Hw|].
  intro Hnd. apply NoDup_firstn.
  eapply Permutation_NoDup; [symmetry; exact Hp|].
  apply (NoDup_index_filter (fun b => target b =? tgt) annotations Hnd).
Qed.

Lemma pick_target_beats_enough_witness :
  let annotations :=
    [ mkBeat 0 0 10 0 0 false false false None None None;
      mkBeat 1 10 20 1 0 false false false None None None;
      mkBeat 2 20 30 0 0 false false false None None None;
      mkBeat 3 30 40 1 0 false false false None None None;
      mkBeat 4 40 50 0 1 false false false None None None ] in
  let w := mkWorld [1; 0; 2]%nat [] in
  0 <= 2 <= len (index (with_target 0 annotations))
  /\ _pick_target_beats 0 2 annotations w = Ok [4; 0] (mkWorld [2]%nat [])
  /\ exists beats w',
       _pick_target_beats 0 2 annotations w = Ok beats w'
       /\ len beats = 2
       /\ of_class annotations 0 beats
       /\ warnings w' = warnings w
       /\ (NoDup (index annotations) -> NoDup beats).
Proof.
  intros annotations w.
  split; [vm_compute; split; discriminate|]. split; [vm_compute; reflexivity|].
  apply (pick_target_beats_enough 0 2 annotations w).
  vm_compute. split; discriminate.
Defined.

(** ** The density criterion of [_pick_new_style_segments] *)

Lemma loc_rows_pure (t : DataFrame) (ids : list Z) (w : world) (rows : DataFrame)
    (w' : world) :
  loc_rows t ids w = Ok rows w' -> forall w2, loc_rows t ids w2 = Ok rows w2.
Proof.
  unfold loc_rows. intros H w2.
  apply bind_Ok in H. destruct H as (found & w1 & Hm & H).
  apply ret_Ok in H. destruct H as [-> _].
  assert (G : mapM (fun id => match filter (fun b => beat_id b =? id) t with
                              | [] => raise KeyError
                              | found => ret found
                              end) ids w2 = Ok found w2).
  { clear - Hm. revert found w w1 Hm.
    induction ids as [|i ids IH]; intros found w w1 Hm.
    - apply ret_Ok in Hm. destruct Hm as [-> _]. reflexivity.
    - cbn [mapM] in *.
      apply bind_Ok in Hm. destruct Hm as (r & wa & Hr & Hm).
      apply bind_Ok in Hm. destruct Hm as (rs & wb & Hrs & Hm).
      apply ret_Ok in Hm. destruct Hm as [-> _].
      destruct (filter (fun b => beat_id b =? i) t) as [|x xs]; [discriminate|].
      apply ret_Ok in Hr. destruct Hr as [-> ->].
      rewrite (bind_Ok_eq _ _ w2 (x :: xs) w2 eq_refl).
      rewrite (bind_Ok_eq _ _ w2 rs w2 (IH _ _ _ Hrs)). reflexivity. }
  rewrite (bind_Ok_eq _ _ _ _ _ G). reflexivity.
Qed.

Lemma py_max_reached (l : list Z) (m : Z) :
  l <> [] -> m <= py_max l -> exists x, In x l /\ m <= x.
Proof.
  destruct l as [|a t]; [congruence|]. intros _. cbn [py_max].
  revert a. induction t as [|b t IH]; intros a H; cbn [fold_left] in H.
  - exists a. split; [now left|exact H].
  - apply IH in H. destruct H as (x & [<-|Hx] & Hm).
    + destruct (Z.max_spec a b) as [[_ E]|[_ E]]; rewrite E in Hm.
      * exists b. split; [right; now left|exact Hm].
      * exists a. split; [now left|exact Hm].
    + exists x. split; [right; now right|exact Hm].
Qed.

Lemma count_filter_le (x : Z) (p : Beat -> bool) (rows : DataFrame) :
  count x (map target (filter p rows)) <= count x (map target rows).
Proof.
  induction rows as [|b rows IH]; [reflexivity|].
  cbn [filter]. destruct (p b); cbn [map]; rewrite !count_cons;
    destruct (x =? target b); lia.
Qed.

Lemma filter_nil_Forall {A} (p : A -> bool) (l : list A) :
  filter p l = [] -> Forall (fun a => p a = false) l.
Proof.
  induction l as [|a l IH]; [constructor|].
  cbn [filter]. destruct (p a) eqn:E; [discriminate|].
  intro H. constructor; auto.
Qed.

Lemma consider_segment_dense (annotations : DataFrame) (min_anomal_per_seg : Z)
    (new_beats new_segs : list Z) (st : new_style_state) (i_seg : Z) (w : world)
    (st' : new_style_state) (w' : world) :
  consider_segment annotations min_anomal_per_seg new_beats new_segs st i_seg w
  = Ok st' w' ->
  Forall (dense_segment annotations min_anomal_per_seg) (ns_collected st) ->
  Forall (dense_segment annotations min_anomal_per_seg) (ns_collected st').
Proof.
  intros H Hst. unfold consider_segment in H. cbv zeta in H.
  apply bind_Ok in H. destruct H as (annot_seg & w1 & Hloc & H).
  unfold np_unique_counts in H. cbv beta iota zeta in H.
  set (anom := filter (fun b => negb (target b =? 0)) annot_seg) in *.
  set (cnts_anom := map (fun x => count x (map target anom))
                        (np_unique (map target anom))) in *.
  apply bind_Ok in H. destruct H as (accepted & w2 & Hacc & H).
  destruct accepted.
  2:{ apply ret_Ok in H. destruct H as [-> _]. exact Hst. }
  apply bind_Ok in H. destruct H as (missing & w3 & _ & H).
  apply ret_Ok in H. destruct H as [-> _]. cbn [ns_collected].
  apply Forall_app. split; [exact Hst|]. constructor; [|constructor].
  exists annot_seg. split; [eapply loc_rows_pure; exact Hloc|].
  destruct ((negb (len cnts_anom =? 0) && (min_anomal_per_seg <=? py_max cnts_anom))
            || (len cnts_anom =? 0)) eqn:Hdense.
  2:{ apply ret_Ok in Hacc. destruct Hacc as [Hacc _]. discriminate. }
  destruct (Z.eqb_spec (len cnts_anom) 0) as [Hzero|Hpos].
  - left.
    assert (Hu : np_unique (map target anom) = []).
    { unfold cnts_anom, len in Hzero. rewrite length_map in Hzero.
      destruct (np_unique (map target anom)); [reflexivity|simpl in Hzero; lia]. }
    assert (Ha : anom = []).
    { destruct anom as [|b rest]; [reflexivity|]. exfalso.
      assert (Hin : In (target b) (np_unique (map target (b :: rest))))
        by (apply In_np_unique; now left).
      rewrite Hu in Hin. destruct Hin. }
    apply filter_nil_Forall in Ha. eapply Forall_impl; [|exact Ha].
    cbv beta. intros b Hb. apply negb_false_iff, Z.eqb_eq in Hb. exact Hb.
  - right. cbn [negb andb orb] in Hdense. rewrite orb_false_r in Hdense.
    apply Z.leb_le in Hdense.
    assert (Hne : cnts_anom <> []).
    { intro E. rewrite E in Hpos. apply Hpos. reflexivity. }
    destruct (py_max_reached cnts_anom min_anomal_per_seg Hne Hdense)
      as (c & Hc & Hm).
    unfold cnts_anom in Hc. apply in_map_iff in Hc. destruct Hc as (tgt & <- & Ht).
    apply In_np_unique, in_map_iff in Ht. destruct Ht as (b & <- & Hb).
    unfold anom in Hb. apply filter_In in Hb. destruct Hb as (_ & Hb).
    exists (target b). split.
    + apply negb_true_iff, Z.eqb_neq in Hb. exact Hb.
    + pose proof (count_filter_le (target b) (fun b => negb (target b =? 0))
                    annot_seg). fold anom in H. lia.
Qed.

Lemma new_style_loop_dense (fuel : nat) (annotations : DataFrame)
    (min_anomal_per_seg min_len_segment max_len_segment : Z) :
  forall (st : new_style_state) (w : world) (segs : list (list Z)) (w' : world),
    new_style_loop fuel annotations min_anomal_per_seg min_len_segment
      max_len_segment st w = Ok segs w' ->
    Forall (dense_segment annotations min_anomal_per_seg) (ns_collected st) ->
    Forall (dense_segment annotations min_anomal_per_seg) segs.
Proof.
  induction fuel as [|fuel IH]; intros st w segs w' H Hst; [discriminate|].
  cbn [new_style_loop] in H.
  destruct (len (ns_missing st) =? 0); [discriminate|].
  destruct (0 <? py_max (values (ns_missing st))).
  2:{ apply ret_Ok in H. destruct H as [-> _]. exact Hst. }
  cbv zeta in H.
  apply bind_Ok in H. destruct H as ([new_beats new_segs] & w1 & _ & H).
  apply bind_Ok in H. destruct H as (st' & w2 & Hfold & H).
  apply IH in H; [exact H|]. revert Hfold.
  apply foldM_invariant
    with (I := fun s => Forall (dense_segment annotations min_anomal_per_seg)
                               (ns_collected s));
    [|exact Hst].
  intros s i wa s' wb Hs _ Hstep. eapply consider_segment_dense; eauto.
Qed.

(** X17.  Every segment [_pick_new_style_segments] returns meets its
    density criterion against the table it was given: the beats of the
    segment are all normal (class 0), or some anomalous class has at least
    [min_anomal_per_seg] beats in the segment. *)
Theorem pick_new_style_segments_dense
    (fuel : nat) (num_beats : Z) (annotations : DataFrame) (min_anomal_per_seg : Z)
    (target_probs : target_probs_arg) (min_len_segment max_len_segment : Z)
    (w : world) (beats ids : list Z) (w' : world) :
  _pick_new_style_segments fuel num_beats annotations min_anomal_per_seg
    target_probs min_len_segment max_len_segment w = Ok (beats, ids) w' ->
  exists segs,
    parallel_lists segs beats ids
    /\ Forall (dense_segment annotations min_anomal_per_seg) segs.
Proof.
  intro H. unfold _pick_new_style_segments in H.
  destruct target_probs as [| |d|]; try discriminate. cbv zeta in H.
  apply bind_Ok in H. destruct H as (missing & w1 & _ & H).
  apply bind_Ok in H. destruct H as (segs0 & w2 & Hloop & Hf).
  apply flatten_segments_Ok in Hf. destruct Hf as (segs & Hp & Hpar).
  exists segs. split; [exact Hpar|]. eapply Forall_perm; [exact Hp|].
  eapply new_style_loop_dense; [exact Hloop|]. constructor.
Qed.

Lemma pick_new_style_segments_dense_witness :
  let annotations :=
    [ mkBeat 0 0 10 0 0 false false false None None None;
      mkBeat 1 10 20 1 0 false true false None None None;
      mkBeat 2 20 30 1 0 false true false None None None;
      mkBeat 3 30 40 0 0 false false false None None None;
      mkBeat 4 40 50 0 1 false false false None None None ] in
  exists beats ids w',
    _pick_new_style_segments 8 4 annotations 2 (ProbsDict [(0, 1%Q); (1, 1%Q)])
      2 4 (mkWorld [] []) = Ok (beats, ids) w'
    /\ beats = [0; 1; 2; 3] /\ ids = [0; 0; 0; 0]
    /\ exists segs,
         parallel_lists segs beats ids
         /\ Forall (dense_segment annotations 2) segs.
Proof.
  intro annotations. eexists. eexists. eexists.
  split; [vm_compute; reflexivity|]. split; [reflexivity|]. split; [reflexivity|].
  eapply (pick_new_style_segments_dense 8 4 annotations 2
            (ProbsDict [(0, 1%Q); (1, 1%Q)]) 2 4 (mkWorld [] [])).
  vm_compute. reflexivity.
Defined.

(** ** [_relative_counts] *)

Lemma sum_position_counts (samples : list nat) (n : nat) :
  Forall (fun s => (s < n)%nat) samples ->
  sum (map (fun i => len (filter (Nat.eqb i) samples)) (seq 0 n)) = len samples.
Proof.
  induction 1 as [|s samples Hs _ IH].
  - clear. generalize 0%nat as k.
    induction n as [|n IH]; intro k; [reflexivity|].
    cbn [seq map]. rewrite sum_cons, IH. reflexivity.
  - rewrite len_cons, <- IH.
    assert (G : forall k,
               (k <= s < k + n)%nat ->
               sum (map (fun i => len (filter (Nat.eqb i) (s :: samples))) (seq k n))
               = sum (map (fun i => len (filter (Nat.eqb i) samples)) (seq k n)) + 1).
    { clear IH Hs. induction n as [|n IHn]; intros k Hk; [lia|].
      cbn [seq map]. rewrite !sum_cons. cbn [filter].
      destruct (Nat.eqb_spec k s) as [->|Hne].
      - rewrite len_cons.
        assert (E : forall m, (s < m)%nat ->
                   sum (map (fun i => len (filter (Nat.eqb i) (s :: samples)))
                            (seq m n))
                   = sum (map (fun i => len (filter (Nat.eqb i) samples)) (seq m n))).
        { clear. induction n as [|n IHn]; intros m Hm; [reflexivity|].
          cbn [seq map]. rewrite !sum_cons. cbn [filter].
          destruct (Nat.eqb_spec m s); [lia|]. rewrite IHn by lia. reflexivity. }
        rewrite E by lia. lia.
      - rewrite IHn by lia. lia. }
    apply G. lia.
Qed.

Lemma In_np_where_from_true (mask : list bool) (k i : nat) :
  In i (np_where_from k mask) -> nth_error mask (i - k) = Some true /\ (k <= i)%nat.
Proof.
  revert k. induction mask as [|b mask IH]; intros k H; [destruct H|].
  cbn [np_where_from] in H. destruct b.
  - destruct H as [<-|H].
    + rewrite Nat.sub_diag. split; [reflexivity|lia].
    + apply IH in H. destruct H as (H & Hk).
      replace (i - k)%nat with (S (i - S k)) by lia. split; [exact H|lia].
  - apply IH in H. destruct H as (H & Hk).
    replace (i - k)%nat with (S (i - S k)) by lia. split; [exact H|lia].
Qed.

Lemma np_where_from_nil (mask : list bool) (k : nat) :
  np_where_from k mask = [] -> Forall (fun b => b = false) mask.
Proof.
  revert k. induction mask as [|b mask IH]; intros k H; [constructor|].
  cbn [np_where_from] in H. destruct b; [discriminate|].
  constructor; [reflexivity|eapply IH; exact H].
Qed.

Lemma Qsum_zero (l : list Q) :
  Forall (fun d => Qle_bool d 0 = true) l ->
  Forall (fun d => Qle_bool 0 d = true) l ->
  Qeq_bool (Qsum l) 0 = true.
Proof.
  intros H1 H2. apply Qeq_bool_iff.
  induction l as [|d l IH]; [reflexivity|].
  inversion H1 as [|? ? Hd1 Hl1]; inversion H2 as [|? ? Hd2 Hl2]; subst.
  apply Qle_bool_iff in Hd1. apply Qle_bool_iff in Hd2.
  cbn [Qsum fold_right]. fold (Qsum l). rewrite (IH Hl1 Hl2).
  rewrite Qplus_0_r. apply Qle_antisym; assumption.
Qed.

Lemma mapM_Forall {A B} (P : B -> Prop) (f : A -> M B) (l : list A) :
  (forall a w x w', f a w = Ok x w' -> P x) ->
  forall w r w', mapM f l w = Ok r w' -> Forall P r.
Proof.
  intro Hf. induction l as [|a l IH]; intros w r w' H.
  - apply ret_Ok in H. destruct H as [-> _]. constructor.
  - cbn [mapM] in H.
    apply bind_Ok in H. destruct H as (x & w1 & Hx & H).
    apply bind_Ok in H. destruct H as (xs & w2 & Hxs & H).
    apply ret_Ok in H. destruct H as [-> _].
    constructor; [eapply Hf; exact Hx|eapply IH; exact Hxs].
Qed.

Lemma randbelow_lt (n : nat) (w : world) (i : nat) (w' : world) :
  (0 < n)%nat -> randbelow n w = Ok i w' -> (i < n)%nat.
Proof.
  intros Hn H. unfold randbelow in H.
  apply bind_Ok in H. destruct H as (r & w1 & _ & H).
  apply ret_Ok in H. destruct H as [-> _]. apply Nat.mod_upper_bound. lia.
Qed.

Lemma Qdiv_zero_num (d norm : Q) :
  ~ (norm == 0)%Q -> (d / norm == 0)%Q -> (d == 0)%Q.
Proof.
  intros Hn H. unfold Qdiv in H. apply Qmult_integral in H.
  destruct H as [H|H]; [exact H|]. exfalso.
  apply (Q_apart_0_1). rewrite <- (Qmult_inv_r norm Hn), H. ring.
Qed.

(** What a successful call of [_relative_counts] has drawn. *)
Lemma relative_counts_draws
    (num_total : Z) (distribution : list Q) (w : world) (counts : list Z)
    (w' : world) :
  _relative_counts num_total distribution w = Ok counts w' ->
  exists samples : list nat,
    0 <= num_total
    /\ length samples = Z.to_nat num_total
    /\ Forall (fun s => In s (np_where
                                (map (fun p => negb (Qle_bool p 0))
                                     (map (fun d => (d / Qsum distribution)%Q)
                                          distribution)))) samples
    /\ counts = map (fun i => len (filter (Nat.eqb i) samples))
                    (seq 0 (length distribution)).
Proof.
  intro H. unfold _relative_counts in H. cbv zeta in H.
  set (probs := map (fun d => (d / Qsum distribution)%Q) distribution) in *.
  destruct (len probs =? 0); [discriminate|].
  destruct (Qeq_bool (Qsum distribution) 0) eqn:Hsum; [discriminate|].
  destruct (existsb (fun p => negb (Qle_bool 0 p)) probs) eqn:Hneg;
    [discriminate|].
  destruct (Z.ltb_spec num_total 0) as [|Hn]; [discriminate|].
  set (mask := map (fun p => negb (Qle_bool p 0)) probs) in *.
  set (support := np_where mask) in *.
  apply bind_Ok in H. destruct H as (samples & w1 & Hs & H).
  apply ret_Ok in H. destruct H as [-> _].
  assert (Hnorm : ~ (Qsum distribution == 0)%Q).
  { intro E. apply Qeq_bool_iff in E. congruence. }
  assert (Hsupp : support <> []).
  { intro E. unfold support, np_where in E. apply np_where_from_nil in E.
    unfold mask in E. rewrite Forall_map in E.
    assert (Z0 : Forall (fun d => (d == 0)%Q) distribution).
    { apply Forall_forall. intros d Hd.
      apply (Qdiv_zero_num d (Qsum distribution) Hnorm).
      apply Qle_antisym.
      - rewrite Forall_forall in E.
        assert (Hp : In (d / Qsum distribution)%Q probs)
          by (unfold probs; apply in_map_iff; exists d; auto).
        specialize (E _ Hp). cbv beta in E. apply negb_false_iff in E.
        apply Qle_bool_iff, E.
      - destruct (Qle_bool 0 (d / Qsum distribution)) eqn:E0;
          [apply Qle_bool_iff, E0|].
        assert (C : existsb (fun p => negb (Qle_bool 0 p)) probs = true);
          [|congruence].
        apply existsb_exists. exists (d / Qsum distribution)%Q. split.
        + unfold probs. apply in_map_iff. exists d. auto.
        + rewrite E0. reflexivity. }
    assert (C : Qeq_bool (Qsum distribution) 0 = true); [|congruence].
    apply Qsum_zero; (eapply Forall_impl; [|exact Z0]); cbv beta; intros d Hd;
      apply Qle_bool_iff; rewrite Hd; apply Qle_refl. }
  exists samples. split; [exact Hn|]. split.
  { apply mapM_length in Hs. now rewrite Hs, repeat_length. }
  split; [|unfold probs; now rewrite length_map].
  revert Hs. apply mapM_Forall. intros [] wa x wb Hx.
  apply bind_Ok in Hx. destruct Hx as (i & wc & Hi & Hx).
  apply ret_Ok in Hx. destruct Hx as [-> _].
  apply nth_In. eapply randbelow_lt; [|exact Hi].
  destruct support; [congruence|simpl; lia].
Qed.

Lemma relative_counts_total
    (num_total : Z) (distribution : list Q) (w : world) (counts : list Z)
    (w' : world) :
  _relative_counts num_total distribution w = Ok counts w' ->
  length counts = length distribution
  /\ sum counts = num_total
  /\ Forall (fun c => 0 <= c) counts.
Proof.
  intro H. apply relative_counts_draws in H.
  destruct H as (samples & Hn & Hlen & Hin & ->).
  assert (Hlt : Forall (fun s => (s < length distribution)%nat) samples).
  { eapply Forall_impl; [|exact Hin]. cbv beta. intros s Hs'.
    apply In_np_where_from_bound in Hs'. rewrite !length_map in Hs'. lia. }
  split; [now rewrite length_map, length_seq|]. split.
  { rewrite (sum_position_counts samples _ Hlt). unfold len. rewrite Hlen. lia. }
  apply Forall_forall. intros c Hc. apply in_map_iff in Hc.
  destruct Hc as (i & <- & _). apply len_nonneg.
Qed.

(** X18.  Whenever [_relative_counts] returns, it returns one count per
    entry of the distribution; the counts are non-negative integers that
    sum up to [num_total], and an entry of weight 0 gets the count 0.
    (Weights below 0 are not refused as such: the code normalises first,
    so weights that are all [<= 0] are drawn from like their absolute
    values, as in the example that follows the theorem.) *)
Theorem relative_counts_sum
    (num_total : Z) (distribution : list Q) (w : world) (counts : list Z)
    (w' : world) :
  _relative_counts num_total distribution w = Ok counts w' ->
  length counts = length distribution
  /\ sum counts = num_total
  /\ Forall (fun c => 0 <= c) counts
  /\ (forall i d, nth_error distribution i = Some d -> (d == 0)%Q ->
                  nth_error counts i = Some 0).
Proof.
  intro H. destruct (relative_counts_total _ _ _ _ _ H) as (H1 & H2 & H3).
  split; [exact H1|]. split; [exact H2|]. split; [exact H3|].
  apply relative_counts_draws in H.
  destruct H as (samples & _ & _ & Hin & ->).
  intros i d Hi Hd.
  assert (Hil : (i < length distribution)%nat)
    by (apply nth_error_Some; congruence).
  rewrite nth_error_map, nth_error_seq.
  destruct (Nat.ltb_spec i (length distribution)) as [_|]; [|lia].
  cbn [option_map Nat.add]. f_equal.
  assert (E : filter (Nat.eqb i) samples = []); [|rewrite E; reflexivity].
  rewrite Forall_forall in Hin.
  destruct (filter (Nat.eqb i) samples) as [|s rest] eqn:Ef; [reflexivity|].
  exfalso.
  assert (Hs' : In s (filter (Nat.eqb i) samples)) by (rewrite Ef; now left).
  apply filter_In in Hs'. destruct Hs' as (Hs1 & Hs2).
  apply Nat.eqb_eq in Hs2. subst s.
  apply Hin, In_np_where_from_true in Hs1. destruct Hs1 as (Hm & _).
  rewrite Nat.sub_0_r, !nth_error_map, Hi in Hm. cbn [option_map] in Hm.
  injection Hm as Hm. apply negb_true_iff in Hm.
  assert (C : Qle_bool (d / Qsum distribution) 0 = true); [|congruence].
  apply Qle_bool_iff. rewrite Hd. unfold Qdiv. rewrite Qmult_0_l. apply Qle_refl.
Qed.

Lemma relative_counts_sum_witness :
  let distribution := [(-1)%Q; 0%Q; (-2)%Q] in
  exists counts w',
    _relative_counts 3 distribution (mkWorld [0; 1; 1]%nat []) = Ok counts w'
    /\ counts = [1; 0; 2]
    /\ length counts = length distribution
    /\ sum counts = 3
    /\ Forall (fun c => 0 <= c) counts
    /\ (forall i d, nth_error distribution i = Some d -> (d == 0)%Q ->
                    nth_error counts i = Some 0).
Proof.
  intro distribution. eexists. eexists.
  split; [vm_compute; reflexivity|]. split; [reflexivity|].
  eapply (relative_counts_sum 3 distribution (mkWorld [0; 1; 1]%nat [])).
  vm_compute. reflexivity.
Defined.

(** ** [_relative_counts_min] *)

Lemma np_choice_noreplace_Ok {A} (a : list A) (size : Z) (w : world)
    (r : list A) (w' : world) :
  np_choice_noreplace a size w = Ok r w' ->
  0 <= size <= len a
  /\ exists p, Permutation p a /\ r = firstn (Z.to_nat size) p.
Proof.
  unfold np_choice_noreplace.
  destruct ((len a =? 0) && negb (size =? 0)); [discriminate|].
  destruct (Z.ltb_spec (len a) size) as [|H1]; [discriminate|].
  destruct (Z.ltb_spec size 0) as [|H2]; [discriminate|].
  intro H. split; [lia|].
  destruct (np_shuffle_perm a w) as (p & w1 & E & Hp & _).
  rewrite (bind_Ok_eq _ _ _ _ _ E) in H. apply ret_Ok in H. destruct H as [-> _].
  exists p. split; [exact Hp|reflexivity].
Qed.

Lemma np_select_length {A} (l : list A) (mask : list bool) :
  length l = length mask ->
  length (np_select l mask) = length (filter (fun b : bool => b) mask).
Proof.
  revert mask. induction l as [|a l IH]; intros [|b mask] H; try discriminate;
    [reflexivity|].
  cbn [np_select filter]. destruct b; cbn [length]; rewrite IH; auto.
Qed.

Lemma scatter_facts (mask : list bool) (vals : list Z) :
  length vals = length (filter (fun b : bool => b) mask) ->
  length (scatter mask vals) = length mask
  /\ sum (scatter mask vals) = sum vals
  /\ Forall (fun c => c = 0 \/ In c vals) (scatter mask vals).
Proof.
  revert vals. induction mask as [|b mask IH]; intros vals H.
  - destruct vals; [|discriminate]. repeat split. constructor.
  - destruct b; cbn [filter scatter] in *.
    + destruct vals as [|v vals]; [discriminate|].
      destruct (IH vals) as (H1 & H2 & H3); [simpl in H; lia|].
      cbn [length]. rewrite !sum_cons, H1, H2. repeat split.
      constructor; [right; now left|].
      eapply Forall_impl; [|exact H3]. cbv beta. intros c [->|Hc];
        [now left|right; now right].
    + destruct (IH vals H) as (H1 & H2 & H3).
      cbn [length]. rewrite sum_cons, H1, H2. repeat split.
      constructor; [now left|exact H3].
Qed.

Lemma filter_map_length {A} (f : A -> bool) (l : list A) :
  length (filter (fun b : bool => b) (map f l)) = length (filter f l).
Proof.
  induction l as [|a l IH]; [reflexivity|].
  cbn [map filter]. destruct (f a); cbn [length]; now rewrite IH.
Qed.

Lemma filter_negb_length {A} (f : A -> bool) (l : list A) :
  (length (filter (fun a => negb (f a)) l) + length (filter f l) = length l)%nat.
Proof.
  induction l as [|a l IH]; [reflexivity|].
  cbn [filter]. destruct (f a); cbn [negb length]; lia.
Qed.

Lemma chosen_positions_length (zeros : list nat) (n : nat) :
  NoDup zeros -> incl zeros (seq 0 n) ->
  length (filter (fun i => existsb (Nat.eqb i) zeros) (seq 0 n)) = length zeros.
Proof.
  intros Hnd Hincl. apply Permutation_length.
  apply NoDup_Permutation; [apply NoDup_filter, seq_NoDup|exact Hnd|].
  intro x. rewrite filter_In, existsb_exists. split.
  - intros (_ & y & Hy & E). apply Nat.eqb_eq in E. now subst.
  - intro Hx. split; [apply Hincl, Hx|].
    exists x. split; [exact Hx|apply Nat.eqb_refl].
Qed.

(** X19.  [_relative_counts_min] returns one count per entry of the
    distribution; the counts sum up to [num_total], and every count is 0
    or at least [min_count]. *)
Theorem relative_counts_min_sum
    (num_total : Z) (distribution : list Z) (min_count : Z) (w : world)
    (counts : list Z) (w' : world) :
  _relative_counts_min num_total distribution min_count w = Ok counts w' ->
  length counts = length distribution
  /\ sum counts = num_total
  /\ Forall (fun c => c = 0 \/ min_count <= c) counts.
Proof.
  intro H. unfold _relative_counts_min in H. cbv zeta in H.
  apply bind_Ok in H. destruct H as (ratio & w1 & _ & H).
  set (full_size := len distribution) in *.
  set (num_nonzero := Z.min ratio full_size) in *.
  apply bind_Ok in H. destruct H as (is_nonzero & w2 & Hmask & H).
  apply bind_Ok in H. destruct H as (counts_nonzero & w3 & Hcn & H).
  apply ret_Ok in H. destruct H as [-> _].
  assert (Hm : length is_nonzero = length distribution
               /\ Z.of_nat (length (filter (fun b : bool => b) is_nonzero))
                  = num_nonzero).
  { destruct (Z.ltb_spec num_nonzero full_size) as [Hlt|Hge].
    - apply bind_Ok in Hmask. destruct Hmask as (zeros & w4 & Hz & Hmask).
      apply ret_Ok in Hmask. destruct Hmask as [-> _].
      apply np_choice_noreplace_Ok in Hz.
      destruct Hz as (Hsize & p & Hp & ->).
      unfold len in Hsize. rewrite length_seq in Hsize. fold (len distribution) in Hsize.
      fold full_size in Hsize.
      split; [now rewrite length_map, length_seq|].
      rewrite filter_map_length.
      pose proof (filter_negb_length
                    (fun i => existsb (Nat.eqb i)
                                (firstn (Z.to_nat (full_size - num_nonzero)) p))
                    (seq 0 (length distribution))) as Hsplit.
      rewrite chosen_positions_length in Hsplit.
      + rewrite length_seq, length_firstn, (Permutation_length Hp), length_seq
          in Hsplit.
        unfold full_size, len in *. lia.
      + apply NoDup_firstn. eapply Permutation_NoDup; [symmetry; exact Hp|].
        apply seq_NoDup.
      + intros x Hx. apply In_firstn in Hx. eapply Permutation_in; eauto.
    - apply ret_Ok in Hmask. destruct Hmask as [-> _].
      rewrite repeat_length. split; [reflexivity|].
      assert (E : filter (fun b : bool => b) (repeat true (length distribution))
                  = repeat true (length distribution)).
      { generalize (length distribution) as n. induction n as [|n IHn];
          [reflexivity|]. cbn [repeat filter]. now rewrite IHn. }
      rewrite E, repeat_length. unfold num_nonzero, full_size, len in *. lia. }
  destruct Hm as (Hlen & Htrue).
  apply relative_counts_total in Hcn. destruct Hcn as (Lcn & Scn & Fcn).
  rewrite !length_map, np_select_length in Lcn by (symmetry; exact Hlen).
  destruct (scatter_facts is_nonzero (map (fun c => c + min_count) counts_nonzero))
    as (S1 & S2 & S3); [now rewrite length_map|].
  split; [now rewrite S1|]. split.
  - rewrite S2, (sum_map_add (fun c => c) (fun _ => min_count)), map_id, Scn.
    assert (E : sum (map (fun _ : Z => min_count) counts_nonzero)
                = Z.of_nat (length counts_nonzero) * min_count).
    { clear. induction counts_nonzero as [|c l IH]; [reflexivity|].
      cbn [map length]. rewrite sum_cons, IH. lia. }
    rewrite E, Lcn, Htrue. lia.
  - eapply Forall_impl; [|exact S3]. cbv beta. intros c [->|Hc]; [now left|].
    right. apply in_map_iff in Hc. destruct Hc as (c0 & <- & Hc0).
    rewrite Forall_forall in Fcn. specialize (Fcn _ Hc0). lia.
Qed.

Lemma relative_counts_min_sum_witness :
  exists counts w',
    _relative_counts_min 5 [3; 4; 2] 2 (mkWorld [0; 1; 1; 0; 1]%nat [])
    = Ok counts w'
    /\ counts = [2; 3; 0]
    /\ length counts = length [3; 4; 2]
    /\ sum counts = 5
    /\ Forall (fun c => c = 0 \/ 2 <= c) counts.
Proof.
  eexists. eexists.
  split; [vm_compute; reflexivity|]. split; [reflexivity|].
  eapply (relative_counts_min_sum 5 [3; 4; 2] 2 (mkWorld [0; 1; 1; 0; 1]%nat [])).
  vm_compute. reflexivity.
Defined.

(** ** [_determine_beat_counts] with an explicit mapping that has class 0 *)

Lemma mapM_normalise (norm : Q) (d : dict Q) (w : world) :
  Qeq_bool norm 0 = false ->
  mapM (fun '(tgt, p) =>
          if Qeq_bool norm 0 then raise ZeroDivisionError
          else ret (tgt, (p / norm)%Q)) d w
  = Ok (map (fun '(tgt, p) => (tgt, (p / norm)%Q)) d) w.
Proof.
  intro Hn. induction d as [|[k v] d IH]; [reflexivity|].
  cbn [mapM map]. destruct (Qeq_bool norm 0); [discriminate|].
  unfold bind at 1.
  change (ret (k, (v / norm)%Q) w) with (Ok (k, (v / norm)%Q) w). cbv beta iota.
  unfold bind at 1. rewrite IH. reflexivity.
Qed.

(** The normalisation keeps the classes and touches neither the random
    state nor the warnings. *)
Lemma mapM_normalise_Ok (norm : Q) (d : dict Q) (w : world)
    (probs : dict Q) (w' : world) :
  mapM (fun '(tgt, p) =>
          if Qeq_bool norm 0 then raise ZeroDivisionError
          else ret (tgt, (p / norm)%Q)) d w
  = Ok probs w' ->
  w' = w /\ keys probs = keys d.
Proof.
  intro H. destruct (Qeq_bool norm 0) eqn:Hn.
  - destruct d as [|[k v] d].
    + apply ret_Ok in H. destruct H as [-> ->]. split; reflexivity.
    + exfalso. cbn [mapM] in H.
      apply bind_Ok in H. destruct H as (x & w1 & Hx & _). discriminate Hx.
  - assert (E := mapM_normalise norm d w Hn).
    destruct (Qeq_bool norm 0); [discriminate|].
    rewrite E in H. injection H as <- <-. split; [reflexivity|].
    unfold keys. rewrite map_map. apply map_ext. intros [k v]. reflexivity.
Qed.

Lemma dict_get_set_other {V} (d : dict V) (k k' : Z) (v : V) :
  k <> k' -> dict_get (dict_set d k v) k' = dict_get d k'.
Proof.
  intro Hne. induction d as [|[k0 v0] d IH]; cbn [dict_set dict_get].
  - destruct (Z.eqb_spec k k'); [contradiction|reflexivity].
  - destruct (Z.eqb_spec k0 k) as [->|Hk]; cbn [dict_get].
    + destruct (Z.eqb_spec k k'); [contradiction|reflexivity].
    + destruct (k0 =? k'); [reflexivity|exact IH].
Qed.

(** X20.  For an explicit class-to-weight mapping that has an entry for
    class 0, whenever [_determine_beat_counts] returns (without
    [include_zero_prob]), it has drawn nothing at random and given no
    warning, the counts are those of the classes of the mapping, in its
    order, and they sum exactly to [num_beats]: class 0 takes what the
    rounded shares of the other classes leave, whatever the rounding. *)
Theorem determine_beat_counts_zero_class
    (num_beats : Z) (annotations : DataFrame) (d : dict Q) (w : world)
    (beat_counts : dict Z) (w' : world) :
  In 0 (keys d) ->
  _determine_beat_counts num_beats annotations (ProbsDict d) false w
  = Ok beat_counts w' ->
  w' = w
  /\ keys beat_counts = keys d
  /\ sum (values beat_counts) = num_beats.
Proof.
  intros H0 H. unfold _determine_beat_counts, np_unique_counts in H.
  cbv beta iota zeta in H.
  apply bind_Ok in H. destruct H as (bc0 & w1 & Hb & H).
  apply bind_Ok in H. destruct H as (bc1 & w2 & Hz & H).
  apply ret_Ok in H. destruct H as [-> ->].
  apply bind_Ok in Hb. destruct Hb as (probs & w3 & Hp & Hb).
  apply ret_Ok in Hb. destruct Hb as [-> ->].
  apply mapM_normalise_Ok in Hp. destruct Hp as [-> Hk].
  set (bc0 := map (fun '(tgt, p) => (tgt, np_round (p * inject_Z num_beats))) probs)
    in *.
  assert (Hk0 : keys bc0 = keys d).
  { rewrite <- Hk. unfold keys, bc0. rewrite map_map. apply map_ext.
    intros [k v]. reflexivity. }
  destruct (dict_get_In bc0 0) as (v & Ev); [rewrite Hk0; exact H0|].
  rewrite Ev in Hz. apply ret_Ok in Hz. destruct Hz as [-> ->].
  destruct (dict_set_existing bc0 0 v (v + (num_beats - sum (values bc0))) Ev)
    as (Hk1 & Hs & _).
  split; [reflexivity|]. split; [now rewrite Hk1|lia].
Qed.

Lemma determine_beat_counts_zero_class_witness :
  let annotations :=
    [ mkBeat 0 0 10 0 0 false false false None None None;
      mkBeat 1 10 20 1 0 false true false None None None ] in
  let d := [(0, 1%Q); (1, 2%Q)] in
  let w := mkWorld [] [] in
  exists beat_counts w',
    In 0 (keys d)
    /\ _determine_beat_counts 7 annotations (ProbsDict d) false w
       = Ok beat_counts w'
    /\ beat_counts = [(0, 2); (1, 5)]
    /\ w' = w
    /\ keys beat_counts = keys d
    /\ sum (values beat_counts) = 7.
Proof.
  intros annotations d w. eexists. eexists.
  split; [now left|]. split; [vm_compute; reflexivity|]. split; [reflexivity|].
  eapply (determine_beat_counts_zero_class 7 annotations d w);
    [now left|vm_compute; reflexivity].
Defined.

(** ** Plain draws, the default segment length, and beats outside the signal *)

(** X21.  With [target_probs = None], a non-negative [num_beats] and a
    non-empty table, [_pick_beats] returns exactly [num_beats] beat
    identifiers of the table and gives no warning. *)
Theorem pick_beats_none_count
    (num_beats : Z) (annotations : DataFrame) (w : world) :
  0 <= num_beats -> annotations <> [] ->
  exists beats w',
    _pick_beats num_beats annotations ProbsNone w = Ok beats w'
    /\ len beats = num_beats
    /\ Forall (fun id => In id (index annotations)) beats
    /\ warnings w' = warnings w.
Proof.
  intros Hn Hne. cbn [_pick_beats]. unfold np_choice_replace.
  assert (Hidx : index annotations <> []).
  { destruct annotations; [congruence|discriminate]. }
  assert (E1 : (len (index annotations) =? 0) = false).
  { apply Z.eqb_neq. unfold len. destruct (index annotations); [congruence|].
    cbn [length]. lia. }
  assert (E2 : (num_beats <? 0) = false) by (apply Z.ltb_ge; lia).
  rewrite E1, E2. cbn [andb].
  destruct (random_choices_ok (index annotations) num_beats w Hidx)
    as (picks & w' & E & Hl & Hall & Hw).
  exists picks, w'. split; [exact E|]. split; [unfold len; lia|].
  split; [exact Hall|exact Hw].
Qed.

Lemma pick_beats_none_count_witness :
  let annotations :=
    [ mkBeat 0 0 10 0 0 false false false None None None;
      mkBeat 1 10 20 1 0 false true false None None None;
      mkBeat 2 20 30 0 0 false false false None None None ] in
  let w := mkWorld [4; 1; 2]%nat [] in
  (0 <= 3 /\ annotations <> [])
  /\ _pick_beats 3 annotations ProbsNone w = Ok [1; 1; 2] (mkWorld [] [])
  /\ exists beats w',
       _pick_beats 3 annotations ProbsNone w = Ok beats w'
       /\ len beats = 3
       /\ Forall (fun id => In id (index annotations)) beats
       /\ warnings w' = warnings w.
Proof.
  intros annotations w.
  split; [split; [lia|discriminate]|]. split; [vm_compute; reflexivity|].
  apply (pick_beats_none_count 3 annotations w); [lia|discriminate].
Defined.

(** X22.  With [max_len_segment = 1], which is the default, [provide_data]
    draws single beats whatever [continuous_segments], [min_anomal_per_seg]
    and [match_segments] say: the call does what the call with
    [continuous_segments = False], no [min_anomal_per_seg] and an empty
    [match_segments] does. *)
Theorem provide_data_unit_segments
    (fuel fuel' : nat) (self : ECGRecordings) (num_beats : option Z)
    (include exclude : filters) (target_probs : target_probs_arg)
    (continuous_segments : bool) (min_anomal_per_seg : option Z)
    (match_segments : list column) (min_len_segment : Z)
    (remain_unused : bool) (w : world) :
  provide_data fuel self num_beats include exclude target_probs
    continuous_segments min_anomal_per_seg match_segments
    min_len_segment 1 remain_unused w
  = provide_data fuel' self num_beats include exclude target_probs
      false None [] min_len_segment 1 remain_unused w.
Proof.
  unfold provide_data, dispatch.
  change (1 =? 1) with true. rewrite !orb_true_r. reflexivity.
Qed.

Lemma py_index_cases {A} (l : list A) (i : Z) (w : world) :
  (exists x, py_index l i w = Ok x w) \/ py_index l i w = Raise IndexError w.
Proof.
  unfold py_index. cbv zeta.
  destruct (_ || _); [now right|].
  destruct (nth_error l _) as [x|]; [left; exists x; reflexivity|now right].
Qed.

Lemma py_index_outside {A} (l : list A) (i : Z) (w : world) :
  len l <= i \/ i < - len l -> py_index l i w = Raise IndexError w.
Proof.
  intro H. unfold py_index. cbv zeta.
  pose proof (len_nonneg l) as Hl.
  destruct (Z.ltb_spec i 0) as [Hi|Hi].
  - destruct (Z.ltb_spec (i + len l) 0) as [|Hc]; [reflexivity|lia].
  - destruct (Z.ltb_spec i 0) as [|_]; [lia|].
    destruct (Z.leb_spec (len l) i) as [|Hc]; [reflexivity|lia].
Qed.

Lemma mapM_py_index_outside {A} (l : list A) (idxs : list Z) (i : Z) (w : world) :
  In i idxs -> len l <= i \/ i < - len l ->
  mapM (py_index l) idxs w = Raise IndexError w.
Proof.
  intros Hin Hout. induction idxs as [|a idxs IH]; [destruct Hin|].
  cbn [mapM]. unfold bind at 1.
  destruct (py_index_cases l a w) as [(x & E)|E]; rewrite E; [|reflexivity].
  destruct Hin as [->|Hin].
  - rewrite (py_index_outside l i w Hout) in E. discriminate.
  - unfold bind at 1. rewrite (IH Hin). reflexivity.
Qed.

(** X23.  [generate_signal] refuses beats that reach outside the
    recordings: when a sample position of some beat of the selection is
    at or beyond the length of [ecg_data] (or below its negative), the
    call raises [IndexError]. *)
Theorem generate_signal_out_of_range
    (self : ECGRecordings) (selection : DataFrame) (b : Beat) (i : Z) (w : world) :
  In b selection -> idx_start b <= i < idx_end b ->
  len (self_ecg_data self) <= i \/ i < - len (self_ecg_data self) ->
  generate_signal self selection w = Raise IndexError w.
Proof.
  intros Hb Hi Hout. unfold generate_signal. cbv zeta.
  apply (mapM_py_index_outside _ _ i); [|exact Hout].
  apply in_flat_map. exists b. split; [exact Hb|].
  unfold py_range. apply in_map_iff. exists (Z.to_nat (i - idx_start b)).
  split; [lia|]. apply in_seq. lia.
Qed.

Lemma generate_signal_out_of_range_witness :
  let self :=
    mkRecordings
      [ mkBeat 0 0 2 0 0 false false false None None None;
        mkBeat 1 2 5 1 0 false true false None None None ]
      [[0; 10]; [1; 11]; [2; 12]; [3; 13]] in
  let b := mkBeat 1 2 5 1 0 false true false None None None in
  let w := mkWorld [] [] in
  (In b (self_annotations self) /\ idx_start b <= 4 < idx_end b
   /\ (len (self_ecg_data self) <= 4 \/ 4 < - len (self_ecg_data self)))
  /\ generate_signal self (self_annotations self) w = Raise IndexError w.
Proof.
  intros self b w.
  assert (H1 : In b (self_annotations self)) by (right; now left).
  assert (H2 : idx_start b <= 4 < idx_end b) by (cbn; lia).
  assert (H3 : len (self_ecg_data self) <= 4 \/ 4 < - len (self_ecg_data self))
    by (left; cbn; lia).
  split; [auto|].
  apply (generate_signal_out_of_range self (self_annotations self) b 4 w H1 H2 H3).
Defined.

(** ** The returned rows and their identifiers as arguments of the methods *)

Lemma provide_data_repository
    (fuel : nat) (self : ECGRecordings) (num_beats : option Z)
    (include exclude : filters) (target_probs : target_probs_arg)
    (continuous_segments : bool) (min_anomal_per_seg : option Z)
    (match_segments : list column) (min_len_segment max_len_segment : Z)
    (remain_unused : bool) (w : world)
    (self' : ECGRecordings) (selection : DataFrame) (signal : list Sample)
    (w' : world) :
  provide_data fuel self num_beats include exclude target_probs
    continuous_segments min_anomal_per_seg match_segments
    min_len_segment max_len_segment remain_unused w
  = Ok (self', (selection, signal)) w' ->
  self_ecg_data self' = self_ecg_data self
  /\ map core_columns (self_annotations self')
     = map core_columns (self_annotations self).
Proof.
  intro H. unfold provide_data in H.
  apply bind_Ok in H. destruct H as ([sel0 ids_segment] & w1 & _ & H).
  apply bind_Ok in H. destruct H as (sig & w2 & _ & H).
  apply bind_Ok in H. destruct H as ([self1 sel1] & w3 & Ha1 & H).
  apply bind_Ok in H. destruct H as ([self2 sel2] & w4 & Ha2 & H).
  apply bind_Ok in H. destruct H as ([self3 sel3] & w5 & Ha3 & H).
  apply ret_Ok in H. destruct H as [H _].
  destruct setters_keep_columns as (K1 & K2 & K3).
  apply assign_column_step in Ha1; [|exact K1]. destruct Ha1 as (S1 & _).
  apply assign_column_step in Ha2; [|exact K2]. destruct Ha2 as (S2 & _).
  assert (S3 : frame_step self2 sel2 self3 sel3).
  { destruct ids_segment as [ids|].
    - apply assign_column_step in Ha3; [|exact K3]. tauto.
    - apply ret_Ok in Ha3. destruct Ha3 as [[= -> ->] _]. apply frame_step_refl. }
  pose proof (frame_step_trans _ _ _ _ _ _ (frame_step_trans _ _ _ _ _ _ S1 S2) S3)
    as (E1 & E2 & _).
  destruct remain_unused; injection H as -> _ _; cbn [self_ecg_data self_annotations].
  - split; assumption.
  - split; [exact E1|].
    destruct (mark_used_frame (index (deref self3 sel3)) (self_annotations self3))
      as (M1 & _). rewrite M1. exact E2.
Qed.

Lemma py_index_pure {A} (l : list A) (i : Z) (w : world) (x : A) (w' : world) :
  py_index l i w = Ok x w' -> forall w0, py_index l i w0 = Ok x w0.
Proof.
  unfold py_index. cbv zeta. intros H w0.
  destruct (_ || _); [discriminate|].
  destruct (nth_error l _) as [y|]; [|discriminate].
  apply ret_Ok in H. destruct H as [-> _]. reflexivity.
Qed.

Lemma generate_signal_pure (self : ECGRecordings) (t : DataFrame) (w : world)
    (signal : list Sample) (w' : world) :
  generate_signal self t w = Ok signal w' ->
  forall w0, generate_signal self t w0 = Ok signal w0.
Proof.
  unfold generate_signal. cbv zeta.
  generalize (flat_map (fun b => py_range (idx_start b) (idx_end b)) t) as idxs.
  intro idxs. revert w signal w'.
  induction idxs as [|i idxs IH]; intros w signal w' H w0.
  - apply ret_Ok in H. destruct H as [-> _]. reflexivity.
  - cbn [mapM] in *.
    apply bind_Ok in H. destruct H as (x & w1 & Hx & H).
    apply bind_Ok in H. destruct H as (xs & w2 & Hxs & H).
    apply ret_Ok in H. destruct H as [-> _].
    rewrite (bind_Ok_eq _ _ _ _ _ (py_index_pure _ _ _ _ _ Hx w0)).
    rewrite (bind_Ok_eq _ _ _ _ _ (IH _ _ _ Hxs w0)). reflexivity.
Qed.

Lemma map_core_target (t t' : DataFrame) :
  map core_columns t = map core_columns t' -> map target t = map target t'.
Proof.
  revert t'. induction t as [|b t IH]; intros [|b' t'] E; try discriminate;
    [reflexivity|].
  cbn [map] in E. unfold core_columns at 1 3 in E.
  injection E as _ _ _ Et _ _ _ E. cbn [map]. rewrite Et. f_equal. auto.
Qed.

Lemma generate_signal_ext (self self' : ECGRecordings) (t t' : DataFrame) :
  self_ecg_data self' = self_ecg_data self ->
  map core_columns t' = map core_columns t ->
  generate_signal self' t' = generate_signal self t.
Proof.
  intros He Hc. unfold generate_signal. cbv zeta.
  rewrite He, !flat_map_concat_map, (map_core_ext py_range _ _ Hc). reflexivity.
Qed.

Lemma generate_target_ext (t t' : DataFrame) (map_target : option (dict Z))
    (extend : option Z) (boolean_raster : bool) :
  map core_columns t' = map core_columns t ->
  generate_target t' map_target extend boolean_raster
  = generate_target t map_target extend boolean_raster.
Proof.
  intro Hc. unfold generate_target. cbv zeta.
  rewrite (map_core_ext (fun s e => e - s) _ _ Hc), (map_core_target _ _ Hc).
  reflexivity.
Qed.

Lemma loc_rows_by_index (t : DataFrame) (sel : DataFrame) :
  NoDup (index t) ->
  (forall r, In r sel -> exists b, In b t /\ core_columns b = core_columns r) ->
  exists rows,
    (forall w, loc_rows t (index sel) w = Ok rows w)
    /\ map core_columns rows = map core_columns sel.
Proof.
  intros Hnd. induction sel as [|r sel IH]; intro Hsel.
  - exists []. split; [reflexivity|reflexivity].
  - destruct IH as (rows & Hrows & Hc); [intros x Hx; apply Hsel; now right|].
    destruct (Hsel r (or_introl eq_refl)) as (b & Hb & Eb).
    assert (Eid : beat_id r = beat_id b).
    { unfold core_columns in Eb. injection Eb as E _ _ _ _ _ _. congruence. }
    assert (Ef : filter (fun x => beat_id x =? beat_id r) t = [b]).
    { rewrite (filter_loc t (beat_id r) Hnd), Eid, (loc_found t b Hnd Hb).
      reflexivity. }
    exists (b :: rows). split; [|cbn [map]; rewrite Eb, Hc; reflexivity].
    intro w. specialize (Hrows w). unfold loc_rows in *.
    apply bind_Ok in Hrows. destruct Hrows as (found & w1 & Hm & Hret).
    apply ret_Ok in Hret. destruct Hret as [-> <-].
    cbn [index map mapM]. fold (index sel).
    unfold bind at 1. unfold bind at 1. rewrite Ef.
    change (ret [b] w) with (Ok [b] w). cbv beta iota.
    unfold bind at 1. rewrite Hm. reflexivity.
Qed.

(** X24.  On a repository with unique beat identifiers, the rows
    [provide_data] returns and their identifiers are interchangeable
    arguments of the two methods: called on the repository the call
    leaves, [generate_signal] gives the returned signal for the rows and
    for their index alike, and [generate_target] for the index gives what
    the function [generate_target] gives for the rows. *)
Theorem provide_data_index_round_trip
    (fuel : nat) (self : ECGRecordings) (num_beats : option Z)
    (include exclude : filters) (target_probs : target_probs_arg)
    (continuous_segments : bool) (min_anomal_per_seg : option Z)
    (match_segments : list column) (min_len_segment max_len_segment : Z)
    (remain_unused : bool) (w : world)
    (self' : ECGRecordings) (selection : DataFrame) (signal : list Sample)
    (w' : world) :
  NoDup (index (self_annotations self)) ->
  provide_data fuel self num_beats include exclude target_probs
    continuous_segments min_anomal_per_seg match_segments
    min_len_segment max_len_segment remain_unused w
  = Ok (self', (selection, signal)) w' ->
  forall w0,
    generate_signal_method self' (AsFrame selection) w0 = Ok signal w0
    /\ generate_signal_method self' (AsIndex (index selection)) w0 = Ok signal w0
    /\ forall map_target extend boolean_raster,
         generate_target_method self' (AsIndex (index selection))
           map_target extend boolean_raster w0
         = generate_target selection map_target extend boolean_raster w0.
Proof.
  intros Hnd H w0.
  destruct (provide_data_repository _ _ _ _ _ _ _ _ _ _ _ _ _ _ _ _ _ H)
    as (Hecg & Hcore).
  apply provide_data_selection in H.
  destruct H as (t0 & w1 & w2 & Hincl & _ & Hsig & Hc & _).
  assert (Hnd' : NoDup (index (self_annotations self'))).
  { destruct (core_columns_facts _ _ Hcore) as (Hi & _). rewrite Hi. exact Hnd. }
  assert (Hrows : forall r, In r selection ->
            exists b, In b (self_annotations self')
                      /\ core_columns b = core_columns r).
  { intros r Hr. destruct (map_core_In _ _ _ Hc Hr) as (b0 & Hb0 & E0).
    apply Hincl, filter_data_In in Hb0. destruct Hb0 as (Hb0 & _).
    destruct (map_core_In _ _ _ (eq_sym Hcore) Hb0) as (b & Hb & E).
    exists b. split; [exact Hb|congruence]. }
  destruct (loc_rows_by_index _ selection Hnd' Hrows) as (rows & Hloc & Hcr).
  pose proof (generate_signal_pure _ _ _ _ _ Hsig w0) as Hsig0.
  split; [|split].
  - unfold generate_signal_method. cbn [annotations_of].
    rewrite (bind_Ok_eq _ _ w0 selection w0 eq_refl).
    rewrite (generate_signal_ext self self' t0 selection Hecg Hc). exact Hsig0.
  - unfold generate_signal_method. cbn [annotations_of].
    rewrite (bind_Ok_eq _ _ _ _ _ (Hloc w0)).
    rewrite (generate_signal_ext self self' t0 rows Hecg); [exact Hsig0|congruence].
  - intros map_target extend boolean_raster.
    unfold generate_target_method. cbn [annotations_of].
    rewrite (bind_Ok_eq _ _ _ _ _ (Hloc w0)).
    rewrite (generate_target_ext selection rows _ _ _ Hcr). reflexivity.
Qed.

Lemma provide_data_index_round_trip_witness :
  let self :=
    mkRecordings
      [ mkBeat 0 0 2 0 0 false false false None None None;
        mkBeat 1 2 5 1 0 false true false None None None;
        mkBeat 2 5 6 0 0 false false false None None None ]
      [[0; 10]; [1; 11]; [2; 12]; [3; 13]; [4; 14]; [5; 15]] in
  exists self' selection signal w',
    NoDup (index (self_annotations self))
    /\ provide_data 0 self None [(ColTarget, [0])] [] ProbsNone false None [] 1 1
         false (mkWorld [] [])
       = Ok (self', (selection, signal)) w'
    /\ index selection = [0; 2]
    /\ forall w0,
         generate_signal_method self' (AsFrame selection) w0 = Ok signal w0
         /\ generate_signal_method self' (AsIndex (index selection)) w0
            = Ok signal w0
         /\ forall map_target extend boolean_raster,
              generate_target_method self' (AsIndex (index selection))
                map_target extend boolean_raster w0
              = generate_target selection map_target extend boolean_raster w0.
Proof.
  intro self.
  eexists. eexists. eexists. eexists.
  assert (Hnd : NoDup (index (self_annotations self))).
  { repeat (constructor; [cbn; intuition discriminate|]). constructor. }
  split; [exact Hnd|].
  split; [vm_compute; reflexivity|]. split; [reflexivity|].
  eapply (provide_data_index_round_trip 0 self None [(ColTarget, [0])] []
            ProbsNone false None [] 1 1 false (mkWorld [] [])); [exact Hnd|].
  vm_compute. reflexivity.
Defined.

(** ** [include_zero_prob] *)

Lemma dict_get_set_same {V} (d : dict V) (k : Z) (v : V) :
  dict_get (dict_set d k v) k = Some v.
Proof.
  induction d as [|[k0 v0] d IH]; cbn [dict_set dict_get].
  - now rewrite Z.eqb_refl.
  - destruct (Z.eqb_spec k0 k) as [->|Hk]; cbn [dict_get].
    + now rewrite Z.eqb_refl.
    + destruct (Z.eqb_spec k0 k); [contradiction|exact IH].
Qed.

Lemma existsb_keys {V} (d : dict V) (k : Z) :
  existsb (Z.eqb k) (keys d) = match dict_get d k with Some _ => true | None => false end.
Proof.
  induction d as [|[k0 v0] d IH]; [reflexivity|].
  cbn [keys map fst existsb dict_get]. fold (keys d). rewrite IH, (Z.eqb_sym k k0).
  destruct (k0 =? k); reflexivity.
Qed.

Lemma zero_fill_get (targets : list Z) (d : dict Z) (k : Z) :
  dict_get (fold_left
              (fun bc tgt => if existsb (Z.eqb tgt) (keys bc) then bc
                             else dict_set bc tgt 0)
              targets d) k
  = match dict_get d k with
    | Some v => Some v
    | None => if existsb (Z.eqb k) targets then Some 0 else None
    end.
Proof.
  revert d. induction targets as [|t ts IH]; intro d; cbn [fold_left existsb].
  - destruct (dict_get d k); reflexivity.
  - rewrite IH, existsb_keys. destruct (dict_get d t) as [vt|] eqn:Et.
    + destruct (dict_get d k) as [v|] eqn:Ek; [reflexivity|].
      destruct (Z.eqb_spec k t) as [->|_]; [congruence|reflexivity].
    + destruct (Z.eqb_spec k t) as [->|Hne].
      * rewrite dict_get_set_same, Et. reflexivity.
      * rewrite dict_get_set_other by congruence. reflexivity.
Qed.

Lemma existsb_np_unique (k : Z) (l : list Z) :
  existsb (Z.eqb k) (np_unique l) = existsb (Z.eqb k) l.
Proof.
  destruct (existsb (Z.eqb k) l) eqn:E.
  - apply existsb_exists in E. destruct E as (x & Hx & Ex).
    apply existsb_exists. exists x. split; [apply In_np_unique, Hx|exact Ex].
  - destruct (existsb (Z.eqb k) (np_unique l)) eqn:E'; [|reflexivity].
    apply existsb_exists in E'. destruct E' as (x & Hx & Ex).
    apply (proj1 (In_np_unique _ _)) in Hx.
    assert (C : existsb (Z.eqb k) l = true); [|congruence].
    apply existsb_exists. exists x. split; [exact Hx|exact Ex].
Qed.

(** X25.  [include_zero_prob = True] changes the result of
    [_determine_beat_counts] in one way only: the classes of the table
    that have no count get the count 0.  When the call returns, the call
    without it returns too, in the same state; every class keeps the count
    it has there, a class without one has the count 0 if a beat of the
    table is of that class and none otherwise, and the counts sum up to
    the same number. *)
Theorem determine_beat_counts_zero_fill
    (num_beats : Z) (annotations : DataFrame) (target_probs : target_probs_arg)
    (w : world) (beat_counts : dict Z) (w' : world) :
  _determine_beat_counts num_beats annotations target_probs true w
  = Ok beat_counts w' ->
  exists beat_counts0,
    _determine_beat_counts num_beats annotations target_probs false w
    = Ok beat_counts0 w'
    /\ sum (values beat_counts) = sum (values beat_counts0)
    /\ forall tgt,
         dict_get beat_counts tgt
         = match dict_get beat_counts0 tgt with
           | Some v => Some v
           | None => if existsb (Z.eqb tgt) (map target annotations)
                     then Some 0 else None
           end.
Proof.
  intro H. unfold _determine_beat_counts, np_unique_counts in *.
  cbv beta iota zeta in *.
  apply bind_Ok in H. destruct H as (bc0 & w1 & H0 & H).
  apply bind_Ok in H. destruct H as (bc1 & w2 & H1 & H).
  apply ret_Ok in H. destruct H as [-> ->].
  exists bc1. split.
  - rewrite (bind_Ok_eq _ _ _ _ _ H0), (bind_Ok_eq _ _ _ _ _ H1). reflexivity.
  - split; [apply zero_fill_ok|].
    intro tgt. rewrite zero_fill_get, existsb_np_unique. reflexivity.
Qed.

Lemma determine_beat_counts_zero_fill_witness :
  let annotations :=
    [ mkBeat 0 0 10 0 0 false false false None None None;
      mkBeat 1 10 20 1 0 false true false None None None;
      mkBeat 2 20 30 3 0 false true false None None None ] in
  let w := mkWorld [] [] in
  exists beat_counts w',
    _determine_beat_counts 7 annotations (ProbsDict [(0, 1%Q); (1, 2%Q)]) true w
    = Ok beat_counts w'
    /\ beat_counts = [(0, 2); (1, 5); (3, 0)]
    /\ exists beat_counts0,
         _determine_beat_counts 7 annotations (ProbsDict [(0, 1%Q); (1, 2%Q)])
           false w = Ok beat_counts0 w'
         /\ sum (values beat_counts) = sum (values beat_counts0)
         /\ forall tgt,
              dict_get beat_counts tgt
              = match dict_get beat_counts0 tgt with
                | Some v => Some v
                | None => if existsb (Z.eqb tgt) (map target annotations)
                          then Some 0 else None
                end.
Proof.
  intros annotations w. eexists. eexists.
  split; [vm_compute; reflexivity|]. split; [reflexivity|].
  eapply (determine_beat_counts_zero_fill 7 annotations
            (ProbsDict [(0, 1%Q); (1, 2%Q)]) w).
  vm_compute. reflexivity.
Defined.
